(** * Vantage: recency aggregation and live-change notification

    A shallow embedding of the parts of [vantage.services] that decide the
    behaviour of the recently-changed feed ([git_service.py]), of the change
    watcher ([watcher.py]) and of the notification broadcaster
    ([socket_manager.py]), together with the properties proved about them.

    Conventions of the embedding:
    - a Python [str] is a [string]; paths are considered over ASCII, so
      [str.lower] is the ASCII lower-casing;
    - a Python [set] is a [gset]; iterating a set visits [elements] of it;
    - a Python [dict] used as a map is a [gmap];
    - clock readings ([time.monotonic], the event loop's [time]) are integer
      milliseconds;
    - results of the operating system and of the [git] tool are inputs of the
      functions, [None] standing for a failed invocation. *)

From Stdlib Require Import ZArith List Ascii String Bool Lia Sorting.Sorted Permutation.
From stdpp Require Import base gmap sets list strings option.

Set Warnings "-register-all,-clear-no-such-hyp".

Open Scope string_scope.
Open Scope list_scope.

(* ===================================================================== *)
(** ** Python string primitives *)
(* ===================================================================== *)

Module PyStr.

  (** [s.replace(a, b)] for single characters. *)
Fixpoint replace_char (a b : ascii) (s : string) : string :=
    match s with
    | EmptyString => EmptyString
    | String c s' => String (if Ascii.eqb c a then b else c) (replace_char a b s')
    end.

  (** [s.split(sep)] for a single-character separator: never empty,
      [''.split('/') == ['']], ['a//b'.split('/') == ['a', '', 'b']]. *)
Fixpoint split (sep : ascii) (s : string) : list string :=
    match s with
    | EmptyString => [EmptyString]
    | String c s' =>
        if Ascii.eqb c sep then EmptyString :: split sep s'
        else match split sep s' with
             | [] => [String c EmptyString]
             | p :: ps => String c p :: ps
             end
    end.

  (** [sep.join(parts)]. *)
Fixpoint join (sep : string) (parts : list string) : string :=
    match parts with
    | [] => EmptyString
    | [p] => p
    | p :: ps => p ++ sep ++ join sep ps
    end.

Definition lower_char (c : ascii) : ascii :=
    let n := nat_of_ascii c in
    if (65 <=? n)%nat && (n <=? 90)%nat then ascii_of_nat (n + 32) else c.

  (** [s.lower()] on ASCII text. *)
Fixpoint lower (s : string) : string :=
    match s with
    | EmptyString => EmptyString
    | String c s' => String (lower_char c) (lower s')
    end.

  (** [s.startswith(p)]. *)
Fixpoint startswith (p s : string) : bool :=
    match p, s with
    | EmptyString, _ => true
    | String a p', String b s' => Ascii.eqb a b && startswith p' s'
    | String _ _, EmptyString => false
    end.

  (** [s.endswith(e)]: [e] is the suffix of [s] of its own length. *)
Fixpoint endswith (e s : string) : bool :=
    match s with
    | EmptyString => String.eqb e EmptyString
    | String _ s' => String.eqb e s || endswith e s'
    end.

  (** [x in xs] for a list or a constant set of strings. *)
Definition mem (x : string) (xs : list string) : bool :=
    existsb (String.eqb x) xs.

  (** [s1 <= s2] on [str]: lexicographic on code points. *)
Definition leb (s1 s2 : string) : bool := String.leb s1 s2.

  (** Characters at which [str.splitlines] breaks a line. *)
Definition is_linebreak (c : ascii) : bool :=
    let n := nat_of_ascii c in
    (n =? 10)%nat || (n =? 11)%nat || (n =? 12)%nat || (n =? 13)%nat
    || (n =? 28)%nat || (n =? 29)%nat || (n =? 30)%nat || (n =? 133)%nat.

  (** [splitlines_aux cur s]: [cur] is the line being read, reversed into
      place by appending. *)
Fixpoint splitlines_aux (cur : string) (started : bool) (s : string) : list string :=
    match s with
    | EmptyString => if started then [cur] else []
    | String c s' =>
        if is_linebreak c then
          match nat_of_ascii c, s' with
          | 13, String c2 s2 =>
              if (nat_of_ascii c2 =? 10)%nat
              then cur :: splitlines_aux EmptyString false s2
              else cur :: splitlines_aux EmptyString false s'
          | _, _ => cur :: splitlines_aux EmptyString false s'
          end
        else splitlines_aux (cur ++ String c EmptyString) true s'
    end.

  (** [s.splitlines()]: no empty last line after a final line break. *)
Definition splitlines (s : string) : list string := splitlines_aux EmptyString false s.

  (** Characters removed by [str.strip()]. *)
Definition is_space (c : ascii) : bool :=
    let n := nat_of_ascii c in
    ((9 <=? n)%nat && (n <=? 13)%nat) || ((28 <=? n)%nat && (n <=? 32)%nat)
    || (n =? 133)%nat || (n =? 160)%nat.

Fixpoint lstrip (s : string) : string :=
    match s with
    | EmptyString => EmptyString
    | String c s' => if is_space c then lstrip s' else s
    end.

Fixpoint rstrip (s : string) : string :=
    match s with
    | EmptyString => EmptyString
    | String c s' =>
        match rstrip s' with
        | EmptyString => if is_space c then EmptyString else String c EmptyString
        | r => String c r
        end
    end.

  (** [s.strip()]. *)
Definition strip (s : string) : string := rstrip (lstrip s).

  (** [s[:n]] and [s[n:]] for a non-negative [n]. *)
Fixpoint take (n : nat) (s : string) : string :=
    match n, s with
    | S n', String c s' => String c (take n' s')
    | _, _ => EmptyString
    end.

Fixpoint drop (n : nat) (s : string) : string :=
    match n, s with
    | S n', String _ s' => drop n' s'
    | _, _ => s
    end.

  (** [c in s] for a character. *)
Fixpoint contains_char (c : ascii) (s : string) : bool :=
    match s with
    | EmptyString => false
    | String a s' => Ascii.eqb a c || contains_char c s'
    end.

  (** [s.split(sep, maxsplit)]: at most [maxsplit] cuts, the rest of the
      text stays in the last part. *)
Fixpoint split_max (sep : ascii) (maxsplit : nat) (s : string) : list string :=
    match maxsplit with
    | O => [s]
    | S m =>
        match s with
        | EmptyString => [EmptyString]
        | String c s' =>
            if Ascii.eqb c sep then EmptyString :: split_max sep m s'
            else match split_max sep maxsplit s' with
                 | [] => [String c EmptyString]
                 | p :: ps => String c p :: ps
                 end
        end
    end.

End PyStr.

(** [parts[-1]]: the last element of a non-empty list. *)
Definition last_part (parts : list string) : string := List.last parts EmptyString.

(** [path.replace("\\", "/").split("/")], used throughout the services. *)
Definition path_parts (path : string) : list string :=
  PyStr.split "/" (PyStr.replace_char "\" "/" path).

(* ===================================================================== *)
(** ** Stable sorting ([list.sort] / [sorted]) *)
(* ===================================================================== *)

(** Python's sort is stable, and stays stable under [reverse=True]: the
    result is the unique stable arrangement for the comparison, which the
    insertion sort below computes.  [le x y] reads "[x] may stand before
    [y]". *)
Section StableSort.
Context {A : Type} (le : A -> A -> bool).

Fixpoint insert_sorted (x : A) (l : list A) : list A :=
    match l with
    | [] => [x]
    | y :: l' => if le x y then x :: y :: l' else y :: insert_sorted x l'
    end.

Definition stable_sort (l : list A) : list A := foldr insert_sorted [] l.
End StableSort.

(** [sorted(xs)] on strings. *)
Definition sorted_str (xs : list string) : list string := stable_sort PyStr.leb xs.

(** [xs[:n]] for a Python [int] [n]: a negative [n] counts from the end. *)
Definition slice_to {A : Type} (n : Z) (xs : list A) : list A :=
  if (0 <=? n)%Z then take (Z.to_nat n) xs
  else take (length xs - Z.to_nat (- n)) xs.

(* ===================================================================== *)
(** ** socket_manager.py *)
(* ===================================================================== *)

(** The notification sent to observers:
    [{"type": "files_changed", "paths": [...], "repo": ...}], the last key
    being optional. *)
Record Message := mkMessage {
  msg_type : string;
  msg_paths : list string;
  msg_repo : option string
}.

Module SocketManager.

  (** A [WebSocket] object, by identity. *)
Definition WebSocket := nat.

  (** [list.remove(x)]: drops the first occurrence; [None] is the
      [ValueError] of an absent element. *)
Fixpoint list_remove (x : WebSocket) (l : list WebSocket) : option (list WebSocket) :=
    match l with
    | [] => None
    | y :: l' => if Nat.eqb x y then Some l'
                 else match list_remove x l' with
                      | Some r => Some (y :: r)
                      | None => None
                      end
    end.

  (** [with contextlib.suppress(ValueError): active_connections.remove(conn)] *)
Definition remove_suppressed (x : WebSocket) (l : list WebSocket) : list WebSocket :=
    match list_remove x l with
    | Some r => r
    | None => l
    end.

  (** [ConnectionManager.disconnect]. *)
Definition disconnect (active_connections : list WebSocket) (websocket : WebSocket)
    : list WebSocket :=
    remove_suppressed websocket active_connections.

  (** [ConnectionManager.connect]: the connection is registered once
      [websocket.accept()] has returned; [None] when it raised. *)
Definition connect (accept : WebSocket -> bool) (active_connections : list WebSocket)
             (websocket : WebSocket) : option (list WebSocket) :=
    if accept websocket then Some (active_connections ++ [websocket]) else None.

  (** The outcome of one [broadcast]: the connections left registered, the
      deliveries attempted (in order), and the [dead] list. *)
Record BroadcastResult := mkBroadcastResult {
    remaining : list WebSocket;
    attempted : list (WebSocket * Message);
    dead : list WebSocket;
    sent : nat
  }.

Section Broadcast.
    (** [send_json connection message]: [true] when the send returns,
        [false] when it raises an [Exception]. *)
Variable send_json : WebSocket -> Message -> bool.

    (** The delivery loop: one attempt per element of the list, a failure
        is recorded in [dead] and the loop goes on. *)
Fixpoint deliver (message : Message) (conns : list WebSocket)
             (acc : list (WebSocket * Message) * list WebSocket * nat)
      : list (WebSocket * Message) * list WebSocket * nat :=
      match conns with
      | [] => acc
      | connection :: rest =>
          let '(att, dd, snt) := acc in
          if send_json connection message
          then deliver message rest (att ++ [(connection, message)], dd, S snt)
          else deliver message rest (att ++ [(connection, message)], dd ++ [connection], snt)
      end.

    (** [ConnectionManager.broadcast]. *)
Definition broadcast (active_connections : list WebSocket) (message : Message)
      : BroadcastResult :=
      match active_connections with
      | [] => mkBroadcastResult [] [] [] 0
      | _ =>
          let '(att, dd, snt) := deliver message active_connections ([], [], 0) in
          mkBroadcastResult (foldl (fun l conn => remove_suppressed conn l) active_connections dd)
                            att dd snt
      end.
End Broadcast.

End SocketManager.

(* ===================================================================== *)
(** ** Paths ([pathlib]) *)
(* ===================================================================== *)

(** [strip_parts pre l]: [l] without its prefix [pre], when it has it. *)
Fixpoint strip_parts (pre l : list string) : option (list string) :=
  match pre, l with
  | [], _ => Some l
  | p :: pre', x :: l' => if String.eqb p x then strip_parts pre' l' else None
  | _ :: _, [] => None
  end.

(** [str(Path(p).relative_to(base))] on normalised POSIX paths: [None] is
    the [ValueError] raised when [p] is not below [base]. *)
Definition relative_to (base p : string) : option string :=
  match strip_parts (PyStr.split "/" base) (PyStr.split "/" p) with
  | Some [] => Some "."
  | Some rest => Some (PyStr.join "/" rest)
  | None => None
  end.

(** [str(Path(a) / b)] for a relative, normalised [b]. *)
Definition path_join (a b : string) : string := a ++ "/" ++ b.

(* ===================================================================== *)
(** ** watcher.py *)
(* ===================================================================== *)

Module Watcher.

Definition _WATCHED_EXTENSIONS : list string := [".md"].

Definition _GIT_STATE_FILES : list string :=
    ["index"; "HEAD"; "MERGE_HEAD"; "REBASE_HEAD"; "CHERRY_PICK_HEAD"].

  (** Clock readings are in milliseconds. *)
Definition _QUIET_PERIOD_S : Z := 500.
Definition _MAX_WAIT_S : Z := 3000.

  (** [watchfiles.Change]. *)
Inductive Change := added | modified | deleted.

  (** [next(i for i, p in enumerate(parts) if p == ".git")], [None] for
      [StopIteration]. *)
Fixpoint git_idx_from (i : nat) (parts : list string) : option nat :=
    match parts with
    | [] => None
    | p :: rest => if String.eqb p ".git" then Some i else git_idx_from (S i) rest
    end.

Definition git_idx (parts : list string) : option nat := git_idx_from 0 parts.

  (** [_is_relevant]. *)
Definition _is_relevant (path : string) : bool :=
    let lower := PyStr.lower path in
    if existsb (fun ext => PyStr.endswith ext lower) _WATCHED_EXTENSIONS then true
    else
      let parts := path_parts path in
      (2 <=? length parts)%nat
      && match parts with p0 :: _ => String.eqb p0 ".git" | [] => false end
      && PyStr.mem (last_part parts) _GIT_STATE_FILES.

  (** [_is_git_state_change]. *)
Definition _is_git_state_change (path : string) : bool :=
    let parts := path_parts path in
    (2 <=? length parts)%nat
    && match parts with p0 :: _ => String.eqb p0 ".git" | [] => false end
    && PyStr.mem (last_part parts) _GIT_STATE_FILES.

  (** What a flush does to the rest of the process, in order. *)
Inductive Effect :=
  | ClearRecentFilesCache
  | Broadcast (msg : Message).

  (** [_coalesce_and_broadcast(pending, repo_name)]. *)
Definition _coalesce_and_broadcast (pending : gset string) (repo_name : option string)
    : list Effect :=
    if decide (pending = ∅) then []
    else
      let has_git_change := existsb _is_git_state_change (elements pending) in
      let unique_paths := sorted_str (elements pending) in
      let msg :=
        match repo_name with
        | Some (String c n) => mkMessage "files_changed" unique_paths (Some (String c n))
        | _ => mkMessage "files_changed" unique_paths None
        end in
      (if has_git_change then [ClearRecentFilesCache] else []) ++ [Broadcast msg].

Section Filter.
    (** [watchfiles.DefaultFilter.__call__], a library of its own. *)
Variable default_filter : Change -> string -> bool.

    (** [_GitAwareFilter.__call__]. *)
Definition git_aware_filter (change : Change) (path : string) : bool :=
      let parts := path_parts path in
      match git_idx parts with
      | None => default_filter change path
      | Some i =>
          (length parts =? i + 2)%nat && PyStr.mem (last_part parts) _GIT_STATE_FILES
      end.

    (** The event filtering as a whole, for one change below [target]: the
        watch filter of [awatch], then the relevance check of the loop on
        the relative path.  An accepted path is what enters [pending]. *)
Definition event_accepted (target : string) (change : Change) (abs_path : string) : bool :=
      git_aware_filter change abs_path
      && match relative_to target abs_path with
         | Some rel_path => _is_relevant rel_path
         | None => false
         end.

    (** The state of [watch_repo] between two iterations of its loop:
        the [pending] set, whether a quiet-period task is scheduled and has
        not run yet, and [batch_start]. *)
Record WatchState := mkWatchState {
      pending : gset string;
      quiet_task : bool;
      batch_start : option Z
    }.

Definition initial : WatchState := mkWatchState ∅ false None.

    (** [flush()] of [watch_repo]. *)
Definition flush (s : WatchState) : WatchState * list Effect :=
      (mkWatchState ∅ (quiet_task s) None, _coalesce_and_broadcast (pending s) None).

    (** The inner [for _change, abs_path in changes] loop. *)
Definition add_changes (target : string) (changes : list (Change * string))
               (pend : gset string) : gset string :=
      foldl (fun acc ch =>
               match relative_to target (snd ch) with
               | None => acc
               | Some rel_path => if _is_relevant rel_path then {[ rel_path ]} ∪ acc else acc
               end) pend changes.

    (** What the watcher reacts to: a batch of raw filesystem changes
        delivered at clock reading [now], or the quiet-period timer. *)
Inductive Event :=
    | Changes (now : Z) (raw : list (Change * string))
    | QuietTimer.

    (** One reaction of [watch_repo].  [awatch] applies the watch filter
        and yields only non-empty batches. *)
Definition step (target : string) (s : WatchState) (e : Event)
      : WatchState * list Effect :=
      match e with
      | Changes now raw =>
          let changes := filter (fun ch => git_aware_filter (fst ch) (snd ch) = true) raw in
          match changes with
          | [] => (s, [])
          | _ =>
              let pend := add_changes target changes (pending s) in
              if decide (pend = ∅) then (mkWatchState pend (quiet_task s) (batch_start s), [])
              else
                let start := match batch_start s with Some b => b | None => now end in
                if (_MAX_WAIT_S <=? now - start)%Z
                then flush (mkWatchState pend false (Some start))
                else (mkWatchState pend true (Some start), [])
          end
      | QuietTimer =>
          if quiet_task s then flush (mkWatchState (pending s) false (batch_start s))
          else (s, [])
      end.

    (** Running the watcher over a sequence of events, collecting the
        effects of each reaction separately. *)
Fixpoint run (target : string) (s : WatchState) (es : list Event)
      : WatchState * list (list Effect) :=
      match es with
      | [] => (s, [])
      | e :: es' =>
          let '(s1, out) := step target s e in
          let '(s2, outs) := run target s1 es' in
          (s2, out :: outs)
      end.
End Filter.

  (** The acceptance rule in the words of the specification: the extension
      is watched, or the path is exactly one segment below a [.git]
      directory and its file name is a state marker. *)
Definition has_watched_extension (path : string) : bool :=
    existsb (fun ext => PyStr.endswith ext (PyStr.lower path)) _WATCHED_EXTENSIONS.

Definition one_below_control_dir (path : string) : bool :=
    match rev (path_parts path) with
    | m :: g :: _ => String.eqb g ".git" && PyStr.mem m _GIT_STATE_FILES
    | _ => false
    end.

Definition spec_accepts (path : string) : bool :=
    has_watched_extension path || one_below_control_dir path.

  (** The states that [watch_repo] can be in. *)
Definition reachable (default_filter : Change -> string -> bool) (target : string)
             (s : WatchState) : Prop :=
    exists es, fst (run default_filter target initial es) = s.

  (** What a flush of the batch [P] owes to the rest of the process: one
      notification with the sorted, duplicate-free paths of [P] and the
      repository identifier [repo], preceded by the clearing of the cache
      exactly when a path of [P] is a state change. *)
Definition notifies_batch (P : gset string) (repo : option string) (effs : list Effect)
    : Prop :=
    exists msg,
      (effs = [Broadcast msg] \/ effs = [ClearRecentFilesCache; Broadcast msg])
      /\ (In ClearRecentFilesCache effs
          <-> exists p, p ∈ P /\ _is_git_state_change p = true)
      /\ msg_type msg = "files_changed"
      /\ msg_repo msg = repo
      /\ StronglySorted (fun a b => PyStr.leb a b = true) (msg_paths msg)
      /\ List.NoDup (msg_paths msg)
      /\ (forall p, In p (msg_paths msg) <-> p ∈ P).

  (** [flush()] of [watch_multi_repo]: [pending] maps a repository name to
      its paths, in insertion order; one [_coalesce_and_broadcast] per
      repository. *)
Definition flush_multi (pending_by_repo : list (string * gset string))
    : list (string * gset string) * list (list Effect) :=
    ([], map (fun kv => _coalesce_and_broadcast (snd kv) (Some (fst kv))) pending_by_repo).

End Watcher.

(* ===================================================================== *)
(** ** git_service.py: data *)
(* ===================================================================== *)

Module GitService.

  (** One record of the recently-changed feed (a [dict] in the source). *)
Record Entry := mkEntry {
    path : string;
    date : string;
    author_name : string;
    message : string;
    hexsha : string;
    untracked : bool
  }.

  (** Exceptions, as far as the handlers of the module tell them apart:
      [except OSError], [except ValueError], and [suppress(Exception)]. *)
Inductive exn := OSError | ValueError | OtherError.

Definition is_OSError (e : exn) : bool :=
    match e with OSError => true | _ => false end.

  (** A call that returns a value or raises. *)
Definition result (A : Type) : Type := (exn + A)%type.

  (** [subprocess.CompletedProcess]. *)
Record CompletedProcess := mkProc {
    returncode : Z;
    stdout : string
  }.

  (** [os.stat_result], as far as it is read: [S_ISREG(st_mode)] and
      [st_mtime]. *)
Record stat_result := mkStat {
    st_isreg : bool;
    st_mtime : Z
  }.

  (** What [os.walk] finds below a directory: the file names of the
      directory and its sub-directories (unreadable ones are empty, as
      [os.walk] skips errors). *)
Inductive Tree :=
  | Node (filenames : list string) (dirs : list (string * Tree)).

  (** [os.DirEntry]: [is_dir] is [is_dir(follow_symlinks=False)],
      [is_file] is [is_file(follow_symlinks=True)], [tree] is what a walk
      of the entry finds. *)
Record DirEntry := mkDirEntry {
    name : string;
    is_dir : result bool;
    is_file : result bool;
    entry_stat : result stat_result;
    tree : Tree
  }.

  (** What one [GitService] instance observes of its surroundings during a
      call.  [working_dir] is [None] when [self.repo] is [None] or has no
      working directory.  The three [run_*] fields are the outcomes of
      [subprocess.run] for [git ls-files], [git log] and [git status]:
      an exception (a timeout, a missing binary) or a completed process.
      The [as_*] fields say how the directory shows up in the scan of its
      parent by [_discover_child_git_repos]. *)
Record Obs := mkObs {
    working_dir : option string;
    wd_resolved : string;
    run_ls_files : result CompletedProcess;
    run_log : result CompletedProcess;
    run_status : result CompletedProcess;
    scandir : result (list DirEntry);
    walk_root : Tree;
    stat : string -> result stat_result;
    resolve : string -> string;
    as_name : string;
    as_is_dir : result bool;
    as_git_exists : result bool;
    discover_scandir : option exn
  }.

  (** A served directory: its own observations and the entries that the
      discovery scan lists below it, each with what a [GitService] rooted
      there would observe. *)
Inductive Ctx :=
  | mkCtx (obs : Obs) (children : list Ctx).

Definition ctx_obs (c : Ctx) : Obs := match c with mkCtx o _ => o end.
Definition ctx_children (c : Ctx) : list Ctx := match c with mkCtx _ cs => cs end.

  (** ** The process-wide cache and the store of records

      Records are mutable objects: the cache and the lists handed to callers
      hold references to them. *)
Definition loc := nat.

Definition cache_key : Type := string * Z * list string.

Record State := mkState {
    _recent_files_cache : gmap cache_key (Z * list loc);
    heap : list Entry;
    ticks : nat
  }.

Definition _RECENT_FILES_TTL : Z := 2000.

Definition initial_state : State := mkState ∅ [] 0.

  (** [clear_recent_files_cache]. *)
Definition clear_recent_files_cache (st : State) : State :=
    mkState ∅ (heap st) (ticks st).

  (** The records behind a list of references. *)
Definition deref (h : list Entry) (refs : list loc) : list Entry :=
    omap (fun l => h !! l) refs.

  (** A stateful call that may raise. *)
Definition M (A : Type) : Type := State -> result A * State.

Definition ret {A} (x : A) : M A := fun st => (inr x, st).

Definition bind {A B} (m : M A) (k : A -> M B) : M B :=
    fun st => match m st with
              | (inr x, st') => k x st'
              | (inl e, st') => (inl e, st')
              end.

Definition raise {A} (e : exn) : M A := fun st => (inl e, st).

Definition lift {A} (r : result A) : M A := fun st => (r, st).

  (* ------------------------------------------------------------------- *)
  (** ** git_service.py: the version-controlled root *)
  (* ------------------------------------------------------------------- *)

Section Compute.
    (** [datetime.fromtimestamp(mtime).isoformat()]. *)
Variable isoformat : Z -> string.

    (** The record built at every place that reports a file without
        history. *)
Definition untracked_entry (p : string) (st : stat_result) : Entry :=
      mkEntry p (isoformat (st_mtime st)) "" "" "" true.

    (** [tuple(e.lower() for e in extensions)], after the default. *)
Definition default_extensions (extensions : option (list string)) : list string :=
      match extensions with Some l => l | None => [".md"] end.

Definition ext_lower (extensions : list string) : list string :=
      map PyStr.lower extensions.

    (** [_matches_ext]. *)
Definition _matches_ext (exts : list string) (nm : string) : bool :=
      existsb (fun e => PyStr.endswith e (PyStr.lower nm)) exts.

    (** [should_skip]. *)
Definition should_skip (exclude : gset string) (p : string) : bool :=
      existsb (fun part => bool_decide (part ∈ exclude)) (PyStr.split "/" p).

    (** [any(p.startswith(".") for p in parts[:-1])]. *)
Definition hidden_parent (p : string) : bool :=
      existsb (PyStr.startswith ".") (removelast (PyStr.split "/" p)).

    (** [d.startswith(".") or d in exclude]: a directory that is not
        entered. *)
Definition pruned (exclude : gset string) (d : string) : bool :=
      PyStr.startswith "." d || bool_decide (d ∈ exclude).

    (** [os.path.relpath(full, root)] for a path below [root]. *)
Definition relpath (full root : string) : string :=
      match relative_to root full with
      | Some r => r
      | None => full
      end.

    (** [with contextlib.suppress(Exception)] around a computation whose
        variable keeps [default] when the block is left early. *)
Definition suppress {A} (default : A) (r : result A) : A :=
      match r with inr x => x | inl _ => default end.

    (** The output of a [git] invocation, or [None] where the source falls
        through to its default. *)
Definition stdout_if_ok (r : result CompletedProcess) : result (option string) :=
      match r with
      | inl e => inl e
      | inr proc => if (returncode proc =? 0)%Z then inr (Some (stdout proc)) else inr None
      end.

    (** [_build_tracked_set]. *)
Definition _build_tracked_set (repo_path : string) (o : Obs) : gset string :=
      match working_dir o with
      | None => ∅
      | Some wd =>
          suppress ∅
            match stdout_if_ok (run_ls_files o) with
            | inl e => inl e
            | inr None => inr ∅
            | inr (Some out) =>
                if String.eqb repo_path wd || String.eqb repo_path (wd_resolved o)
                then inr (list_to_set (PyStr.splitlines out))
                else match relative_to wd repo_path with
                     | None => inl ValueError
                     | Some r =>
                         let prefix := (r ++ "/")%string in
                         inr (list_to_set
                                (omap (fun line =>
                                         if PyStr.startswith prefix line
                                         then Some (PyStr.drop (String.length prefix) line)
                                         else None)
                                      (PyStr.splitlines out)))
                     end
            end
      end.

    (** [_git_log] and [_git_status_ita]: the text, or [""]. *)
Definition git_output (r : result CompletedProcess) : string :=
      suppress "" match stdout_if_ok r with
                  | inl e => inl e
                  | inr None => inr ""
                  | inr (Some out) => inr out
                  end.

    (** Step 2: the scan of the root for directories to walk and for
        top-level files outside the index.  The loop stops at the first
        exception; what was collected before stays. *)
Fixpoint scan_top (exclude : gset string) (exts : list string) (tracked : gset string)
             (entries : list DirEntry) (top_dirs : list DirEntry) (top_untracked : list Entry)
      : list DirEntry * list Entry * option exn :=
      match entries with
      | [] => (top_dirs, top_untracked, None)
      | entry :: rest =>
          match is_dir entry with
          | inl e => (top_dirs, top_untracked, Some e)
          | inr true =>
              if pruned exclude (name entry)
              then scan_top exclude exts tracked rest top_dirs top_untracked
              else scan_top exclude exts tracked rest (top_dirs ++ [entry]) top_untracked
          | inr false =>
              match is_file entry with
              | inl e => (top_dirs, top_untracked, Some e)
              | inr isf =>
                  if isf && _matches_ext exts (name entry) then
                    if bool_decide (name entry ∈ tracked)
                    then scan_top exclude exts tracked rest top_dirs top_untracked
                    else match entry_stat entry with
                         | inr st =>
                             scan_top exclude exts tracked rest top_dirs
                                      (top_untracked ++ [untracked_entry (name entry) st])
                         | inl OSError =>
                             scan_top exclude exts tracked rest top_dirs top_untracked
                         | inl e => (top_dirs, top_untracked, Some e)
                         end
                  else scan_top exclude exts tracked rest top_dirs top_untracked
              end
          end
      end.

    (** The [try: ... except OSError: pass] around the scan. *)
Definition top_level (exclude : gset string) (exts : list string) (tracked : gset string)
               (o : Obs) : result (list DirEntry * list Entry) :=
      match scandir o with
      | inl OSError => inr ([], [])
      | inl e => inl e
      | inr entries =>
          match scan_top exclude exts tracked entries [] [] with
          | (ds, us, None) => inr (ds, us)
          | (ds, us, Some OSError) => inr (ds, us)
          | (_, _, Some e) => inl e
          end
      end.

    (** [os.walk(dirpath)] with the pruning of [dirnames] that every walk
        of the module applies: hidden and excluded directories are not
        entered.  Yields [(dirpath, filenames)] top-down. *)
Fixpoint walk (exclude : gset string) (dirpath : string) (t : Tree)
      : list (string * list string) :=
      match t with
      | Node filenames dirs =>
          (dirpath, filenames) ::
          (fix walk_dirs (ds : list (string * Tree)) : list (string * list string) :=
             match ds with
             | [] => []
             | (d, sub) :: ds' =>
                 if pruned exclude d then walk_dirs ds'
                 else walk exclude (path_join dirpath d) sub ++ walk_dirs ds'
             end) dirs
      end.

    (** The body of [_walk_subdir] for the files of one directory. *)
Fixpoint walk_files (exts : list string) (tracked : gset string) (repo_root : string)
             (o : Obs) (dirpath : string) (fnames : list string) (found : list Entry)
      : list Entry * option exn :=
      match fnames with
      | [] => (found, None)
      | fname :: rest =>
          if negb (_matches_ext exts fname)
          then walk_files exts tracked repo_root o dirpath rest found
          else
            let full := path_join dirpath fname in
            let rel := relpath full repo_root in
            if bool_decide (rel ∈ tracked)
            then walk_files exts tracked repo_root o dirpath rest found
            else match stat o full with
                 | inr st =>
                     walk_files exts tracked repo_root o dirpath rest
                                (found ++ [untracked_entry rel st])
                 | inl OSError => walk_files exts tracked repo_root o dirpath rest found
                 | inl e => (found, Some e)
                 end
      end.

Fixpoint walk_loop (exts : list string) (tracked : gset string) (repo_root : string)
             (o : Obs) (steps : list (string * list string)) (found : list Entry)
      : list Entry * option exn :=
      match steps with
      | [] => (found, None)
      | (dirpath, fnames) :: rest =>
          match walk_files exts tracked repo_root o dirpath fnames found with
          | (found', None) => walk_loop exts tracked repo_root o rest found'
          | (found', Some e) => (found', Some e)
          end
      end.

    (** [_walk_subdir(dir_path)], one worker of the pool. *)
Definition _walk_subdir (exclude : gset string) (exts : list string) (tracked : gset string)
               (repo_root : string) (o : Obs) (d : DirEntry) : result (list Entry) :=
      match walk_loop exts tracked repo_root o
                      (walk exclude (path_join repo_root (name d)) (tree d)) [] with
      | (found, None) => inr found
      | (_, Some e) => inl e
      end.

    (** [walk_results]: the top-level finds, then what each worker
        returns; a worker that raised adds nothing. *)
Definition collect_walks (exclude : gset string) (exts : list string)
               (tracked : gset string) (repo_root : string) (o : Obs)
               (top_dirs : list DirEntry) (top_untracked : list Entry) : list Entry :=
      top_untracked
      ++ concat (map (fun d => suppress [] (_walk_subdir exclude exts tracked repo_root o d))
                     top_dirs).

    (** [_find_intent_to_add_files(status_output)]. *)
Definition _find_intent_to_add_files (o : Obs) (status_output : string) : gset string :=
      match working_dir o with
      | None => ∅
      | Some wd =>
          list_to_set
            (omap (fun line =>
                     if (String.length line <? 4)%nat then None
                     else if String.eqb (PyStr.take 2 line) " A"
                          then Some (resolve o (path_join wd (PyStr.strip (PyStr.drop 3 line))))
                          else None)
                  (PyStr.splitlines status_output))
      end.

    (** Step 4, first loop: the intent-to-add files. *)
Fixpoint ita_loop (exclude : gset string) (exts : list string) (repo_path : string)
             (o : Obs) (ita_files : list string) (results : list Entry) (seen_paths : gset string)
      : list Entry * gset string * option exn :=
      match ita_files with
      | [] => (results, seen_paths, None)
      | ita_resolved :: rest =>
          match relative_to repo_path ita_resolved with
          | None => ita_loop exclude exts repo_path o rest results seen_paths
          | Some rel_path =>
              if bool_decide (rel_path ∈ seen_paths)
                 || negb (_matches_ext exts rel_path)
                 || should_skip exclude rel_path
                 || hidden_parent rel_path
              then ita_loop exclude exts repo_path o rest results seen_paths
              else match stat o ita_resolved with
                   | inr st =>
                       ita_loop exclude exts repo_path o rest
                                (results ++ [untracked_entry rel_path st])
                                ({[ rel_path ]} ∪ seen_paths)
                   | inl OSError => ita_loop exclude exts repo_path o rest results seen_paths
                   | inl e => (results, seen_paths, Some e)
                   end
          end
      end.

    (** The header of a log entry: [(hexsha, author_name, ts, message)]. *)
Definition commit_info : Type := string * string * string * string.

Definition NUL : ascii := Ascii.zero.

    (** Step 4, second loop: the files named by [git log --name-only]. *)
Fixpoint log_loop (exclude : gset string) (exts : list string) (repo_path wd : string)
             (o : Obs) (lines : list string) (current_info : option commit_info)
             (results : list Entry) (seen_paths : gset string)
      : list Entry * gset string * option exn :=
      match lines with
      | [] => (results, seen_paths, None)
      | line :: rest =>
          if String.eqb line "" then
            log_loop exclude exts repo_path wd o rest current_info results seen_paths
          else if PyStr.contains_char NUL line then
            match PyStr.split_max NUL 3 line with
            | [p0; p1; p2; p3] =>
                log_loop exclude exts repo_path wd o rest (Some (p0, p1, p2, p3))
                         results seen_paths
            | _ => log_loop exclude exts repo_path wd o rest current_info results seen_paths
            end
          else
            match current_info with
            | None => log_loop exclude exts repo_path wd o rest current_info results seen_paths
            | Some (sha, author, ts, msg) =>
                let file_path := PyStr.strip line in
                if String.eqb file_path "" then
                  log_loop exclude exts repo_path wd o rest current_info results seen_paths
                else
                  match relative_to repo_path (path_join wd file_path) with
                  | None =>
                      log_loop exclude exts repo_path wd o rest current_info results seen_paths
                  | Some rel_path =>
                      if should_skip exclude rel_path
                         || negb (_matches_ext exts rel_path)
                         || bool_decide (rel_path ∈ seen_paths)
                      then log_loop exclude exts repo_path wd o rest current_info
                                    results seen_paths
                      else
                        match stat o (path_join repo_path rel_path) with
                        | inr st =>
                            if negb (st_isreg st)
                            then log_loop exclude exts repo_path wd o rest current_info
                                          results seen_paths
                            else log_loop exclude exts repo_path wd o rest current_info
                                   (results ++
                                      [mkEntry rel_path (isoformat (st_mtime st))
                                               (if String.eqb author "" then "Unknown" else author)
                                               msg sha false])
                                   ({[ rel_path ]} ∪ seen_paths)
                        | inl OSError =>
                            log_loop exclude exts repo_path wd o rest current_info
                                     results seen_paths
                        | inl e => (results, seen_paths, Some e)
                        end
                  end
            end
      end.

    (** Step 5: paths of the index that neither the walk nor the log
        reported. *)
Fixpoint staged_loop (exclude : gset string) (exts : list string) (repo_path : string)
             (o : Obs) (tracked : list string) (results : list Entry) (seen_paths : gset string)
      : list Entry * gset string * option exn :=
      match tracked with
      | [] => (results, seen_paths, None)
      | tracked_path :: rest =>
          if bool_decide (tracked_path ∈ seen_paths)
             || negb (_matches_ext exts tracked_path)
             || should_skip exclude tracked_path
             || hidden_parent tracked_path
          then staged_loop exclude exts repo_path o rest results seen_paths
          else match stat o (path_join repo_path tracked_path) with
               | inr st =>
                   if negb (st_isreg st)
                   then staged_loop exclude exts repo_path o rest results seen_paths
                   else staged_loop exclude exts repo_path o rest
                                    (results ++ [untracked_entry tracked_path st])
                                    ({[ tracked_path ]} ∪ seen_paths)
               | inl OSError => staged_loop exclude exts repo_path o rest results seen_paths
               | inl e => (results, seen_paths, Some e)
               end
      end.

    (** [results.sort(key=lambda r: r["date"], reverse=True)]. *)
Definition date_geb (a b : Entry) : bool := PyStr.leb (date b) (date a).

Definition sort_by_date (results : list Entry) : list Entry :=
      stable_sort date_geb results.

    (** Steps 1 to 5 of [get_recently_changed_files] for a root under
        version control: [results] as it stands before the final sort. *)
Definition merged_results (exclude : gset string) (repo_path wd : string) (o : Obs)
               (extensions : list string) : result (list Entry) :=
      let exts := ext_lower extensions in
      let tracked := _build_tracked_set repo_path o in
      match top_level exclude exts tracked o with
      | inl e => inl e
      | inr (top_dirs, top_untracked) =>
          let log_output := git_output (run_log o) in
          let status_output := git_output (run_status o) in
          let walk_results :=
            collect_walks exclude exts tracked repo_path o top_dirs top_untracked in
          let seen_paths : gset string := list_to_set (map path walk_results) in
          let ita_files := _find_intent_to_add_files o status_output in
          match ita_loop exclude exts repo_path o (elements ita_files)
                         walk_results seen_paths with
          | (_, _, Some e) => inl e
          | (results1, seen1, None) =>
              match log_loop exclude exts repo_path wd o (PyStr.splitlines log_output)
                             None results1 seen1 with
              | (_, _, Some e) => inl e
              | (results2, seen2, None) =>
                  match staged_loop exclude exts repo_path o (elements tracked)
                                    results2 seen2 with
                  | (_, _, Some e) => inl e
                  | (results3, _, None) => inr results3
                  end
              end
          end
      end.

    (** The value returned for a root under version control:
        [results.sort(...); trimmed = results[:limit]]. *)
Definition recent_versioned (exclude : gset string) (repo_path wd : string) (o : Obs)
               (limit : Z) (extensions : list string) : result (list Entry) :=
      match merged_results exclude repo_path wd o extensions with
      | inl e => inl e
      | inr results => inr (slice_to limit (sort_by_date results))
      end.

    (* ----------------------------------------------------------------- *)
    (** ** git_service.py: the plain directory *)
    (* ----------------------------------------------------------------- *)

    (** The body of a walk that reports every matching file: used by
        [_find_untracked_md_files] without a repository and by the scan of
        the non-git sub-directories of a container.  Here the relative path
        is computed inside the [try], and only [OSError] is handled. *)
Fixpoint plain_files (exts : list string) (repo_path : string) (o : Obs)
             (dirpath : string) (fnames : list string) (results : list Entry)
      : list Entry * option exn :=
      match fnames with
      | [] => (results, None)
      | fname :: rest =>
          if negb (_matches_ext exts fname)
          then plain_files exts repo_path o dirpath rest results
          else
            let full := path_join dirpath fname in
            match relative_to repo_path full with
            | None => (results, Some ValueError)
            | Some rel_path =>
                match stat o full with
                | inr st =>
                    plain_files exts repo_path o dirpath rest
                                (results ++ [untracked_entry rel_path st])
                | inl OSError => plain_files exts repo_path o dirpath rest results
                | inl e => (results, Some e)
                end
            end
      end.

Fixpoint plain_loop (exts : list string) (repo_path : string) (o : Obs)
             (steps : list (string * list string)) (results : list Entry)
      : list Entry * option exn :=
      match steps with
      | [] => (results, None)
      | (dirpath, fnames) :: rest =>
          match plain_files exts repo_path o dirpath fnames results with
          | (results', None) => plain_loop exts repo_path o rest results'
          | (results', Some e) => (results', Some e)
          end
      end.

    (** [_find_untracked_md_files()] when there is no repository: a walk
        of the whole root for [.md] files, sorted by date. *)
Definition _find_untracked_md_files (exclude : gset string) (repo_path : string) (o : Obs)
      : result (list Entry) :=
      match plain_loop [".md"] repo_path o (walk exclude repo_path (walk_root o)) [] with
      | (results, None) => inr (sort_by_date results)
      | (_, Some e) => inl e
      end.

    (** The value returned for a directory without any repository. *)
Definition recent_plain (exclude : gset string) (repo_path : string) (o : Obs)
               (limit : Z) : result (list Entry) :=
      match _find_untracked_md_files exclude repo_path o with
      | inl e => inl e
      | inr untracked_files =>
          let results := filter (fun f => should_skip exclude (path f) = false) untracked_files in
          inr (slice_to limit (sort_by_date results))
      end.

    (* ----------------------------------------------------------------- *)
    (** ** git_service.py: the container of child repositories *)
    (* ----------------------------------------------------------------- *)

    (** The loop of [_discover_child_git_repos] over the entries of the
        root; [X] is whatever travels with an entry. *)
Fixpoint discover_loop {X : Type} (exclude : gset string) (entries : list (Obs * X))
             (child_repos : list (Obs * X)) : list (Obs * X) * option exn :=
      match entries with
      | [] => (child_repos, None)
      | (eo, x) :: rest =>
          match as_is_dir eo with
          | inl e => (child_repos, Some e)
          | inr false => discover_loop exclude rest child_repos
          | inr true =>
              if pruned exclude (as_name eo) then discover_loop exclude rest child_repos
              else match as_git_exists eo with
                   | inl e => (child_repos, Some e)
                   | inr true => discover_loop exclude rest (child_repos ++ [(eo, x)])
                   | inr false => discover_loop exclude rest child_repos
                   end
          end
      end.

    (** [_discover_child_git_repos]. *)
Definition _discover_child_git_repos {X : Type} (exclude : gset string) (o : Obs)
               (entries : list (Obs * X)) : result (list (Obs * X)) :=
      match discover_scandir o with
      | Some OSError => inr []
      | Some e => inl e
      | None =>
          match discover_loop exclude entries [] with
          | (child_repos, None) => inr child_repos
          | (child_repos, Some OSError) => inr child_repos
          | (_, Some e) => inl e
          end
      end.

    (** The second half of [_get_recent_files_from_child_repos]: files of
        the root itself and of its sub-directories that are not child
        repositories. *)
Fixpoint container_scan (exclude : gset string) (exts : list string)
             (child_repo_names : gset string) (repo_path : string) (o : Obs)
             (entries : list DirEntry) (all_results : list Entry)
      : list Entry * option exn :=
      match entries with
      | [] => (all_results, None)
      | entry :: rest =>
          match is_file entry with
          | inl e => (all_results, Some e)
          | inr isf =>
              if isf && _matches_ext exts (name entry) then
                match entry_stat entry with
                | inr st =>
                    container_scan exclude exts child_repo_names repo_path o rest
                                   (all_results ++ [untracked_entry (name entry) st])
                | inl OSError =>
                    container_scan exclude exts child_repo_names repo_path o rest all_results
                | inl e => (all_results, Some e)
                end
              else
                match is_dir entry with
                | inl e => (all_results, Some e)
                | inr false =>
                    container_scan exclude exts child_repo_names repo_path o rest all_results
                | inr true =>
                    if pruned exclude (name entry)
                       || bool_decide (name entry ∈ child_repo_names)
                    then container_scan exclude exts child_repo_names repo_path o rest
                                        all_results
                    else
                      match plain_loop exts repo_path o
                                       (walk exclude (path_join repo_path (name entry))
                                             (tree entry))
                                       all_results with
                      | (all_results', None) =>
                          container_scan exclude exts child_repo_names repo_path o rest
                                         all_results'
                      | (all_results', Some OSError) => (all_results', Some OSError)
                      | (all_results', Some e) => (all_results', Some e)
                      end
              end
          end
      end.

    (** The scan with its [try: ... except OSError: pass]. *)
Definition container_files (exclude : gset string) (exts : list string)
               (child_repo_names : gset string) (repo_path : string) (o : Obs)
      : result (list Entry) :=
      match scandir o with
      | inl OSError => inr []
      | inl e => inl e
      | inr entries =>
          match container_scan exclude exts child_repo_names repo_path o entries [] with
          | (found, None) => inr found
          | (found, Some OSError) => inr found
          | (_, Some e) => inl e
          end
      end.

    (* ----------------------------------------------------------------- *)
    (** ** git_service.py: the cached entry point *)
    (* ----------------------------------------------------------------- *)

    (** [time.monotonic()]: the n-th reading of the clock. *)
Variable monotonic : nat -> Z.

Notation "x <- m ;; k" := (bind m (fun x => k))
      (at level 100, m at next level, right associativity).

Definition read_clock : M Z :=
      fun st => (inr (monotonic (ticks st)),
                 mkState (_recent_files_cache st) (heap st) (S (ticks st))).

Definition cache_get (key : cache_key) : M (option (Z * list loc)) :=
      fun st => (inr (_recent_files_cache st !! key), st).

Definition cache_put (key : cache_key) (v : Z * list loc) : M unit :=
      fun st => (inr tt, mkState (<[ key := v ]> (_recent_files_cache st)) (heap st) (ticks st)).

Definition read_heap : M (list Entry) := fun st => (inr (heap st), st).

    (** A new record object. *)
Definition alloc (e : Entry) : M loc :=
      fun st => (inr (length (heap st)),
                 mkState (_recent_files_cache st) (heap st ++ [e]) (ticks st)).

Fixpoint alloc_list (es : list Entry) : M (list loc) :=
      match es with
      | [] => ret []
      | e :: es' => l <- alloc e ;; ls <- alloc_list es' ;; ret (l :: ls)
      end.

    (** [entry["path"] = prefix + entry["path"]], in place. *)
Definition set_path (e : Entry) (p : string) : Entry :=
      mkEntry p (date e) (author_name e) (message e) (hexsha e) (untracked e).

Definition prefix_path (prefix : string) (l : loc) : M unit :=
      fun st =>
        match heap st !! l with
        | Some e =>
            (inr tt, mkState (_recent_files_cache st)
                             (<[ l := set_path e (prefix ++ path e) ]> (heap st)) (ticks st))
        | None => (inr tt, st)
        end.

Fixpoint prefix_paths (prefix : string) (ls : list loc) : M unit :=
      match ls with
      | [] => ret tt
      | l :: ls' => _ <- prefix_path prefix l ;; prefix_paths prefix ls'
      end.

    (** The first loop of [_get_recent_files_from_child_repos]: each child
        service is asked in turn and the records it returns are renamed. *)
Fixpoint collect_children (child_repos : list (Obs * M (list loc)))
             (all_results : list loc) : M (list loc) :=
      match child_repos with
      | [] => ret all_results
      | (co, child_call) :: rest =>
          child_results <- child_call ;;
          _ <- prefix_paths (as_name co ++ "/") child_results ;;
          collect_children rest (all_results ++ child_results)
      end.

Definition date_of (h : list Entry) (l : loc) : string :=
      match h !! l with Some e => date e | None => "" end.

    (** [all_results.sort(key=lambda r: r["date"], reverse=True)] on a
        list of references. *)
Definition sort_refs_by_date (h : list Entry) (refs : list loc) : list loc :=
      stable_sort (fun a b => PyStr.leb (date_of h b) (date_of h a)) refs.

    (** [_get_recent_files_from_child_repos]. *)
Definition _get_recent_files_from_child_repos (exclude : gset string) (repo_path : string)
               (o : Obs) (child_repos : list (Obs * M (list loc))) (limit : Z)
               (extensions : list string) : M (list loc) :=
      let exts := ext_lower extensions in
      let child_repo_names : gset string := list_to_set (map (fun c => as_name (fst c)) child_repos) in
      from_children <- collect_children child_repos [] ;;
      found <- lift (container_files exclude exts child_repo_names repo_path o) ;;
      fresh <- alloc_list found ;;
      h <- read_heap ;;
      ret (slice_to limit (sort_refs_by_date h (from_children ++ fresh))).

    (** The cache lookup at the head of the entry point: the stored list
        when it is younger than the TTL. *)
Definition cache_hit (cached : option (Z * list loc)) (now : Z) : option (list loc) :=
      match cached with
      | Some (ts, data) => if (now - ts <? _RECENT_FILES_TTL)%Z then Some data else None
      | None => None
      end.

    (** Storing and returning a freshly computed list. *)
Definition store (key : cache_key) (data : list loc) : M (list loc) :=
      t <- read_clock ;;
      _ <- cache_put key (t, data) ;;
      ret data.

    (** [GitService.get_recently_changed_files], for the service rooted at
        [repo_path] with the exclusions [exclude].  A child service is
        rooted at [repo_path / name] and inherits the exclusions. *)
Fixpoint get_recently_changed_files (exclude : gset string) (repo_path : string) (c : Ctx)
             (limit : Z) (extensions : option (list string)) {struct c} : M (list loc) :=
      match c with
      | mkCtx o children =>
          let extensions := default_extensions extensions in
          let key : cache_key := (repo_path, limit, extensions) in
          now <- read_clock ;;
          cached <- cache_get key ;;
          match cache_hit cached now with
          | Some data => ret data
          | None =>
              match working_dir o with
              | None =>
                  child_repos <-
                    lift (_discover_child_git_repos exclude o
                            (map (fun ch =>
                                    (ctx_obs ch,
                                     get_recently_changed_files exclude
                                       (path_join repo_path (as_name (ctx_obs ch)))
                                       ch limit (Some extensions)))
                                 children)) ;;
                  match child_repos with
                  | _ :: _ =>
                      merged <- _get_recent_files_from_child_repos exclude repo_path o
                                  child_repos limit extensions ;;
                      store key merged
                  | [] =>
                      trimmed <- lift (recent_plain exclude repo_path o limit) ;;
                      refs <- alloc_list trimmed ;;
                      store key refs
                  end
              | Some wd =>
                  trimmed <- lift (recent_versioned exclude repo_path wd o limit extensions) ;;
                  refs <- alloc_list trimmed ;;
                  store key refs
              end
          end
      end.
(** The states of the process: the initial one, and those left by a call
    of the entry point (for any service and arguments, whatever it
    observes) or by a flush of the cache. *)
Inductive reachable : State -> Prop :=
| reach_initial : reachable initial_state
| reach_call (st : State) (exclude : gset string) (repo_path : string) (c : Ctx)
             (limit : Z) (extensions : option (list string)) :
    reachable st ->
    reachable (snd (get_recently_changed_files exclude repo_path c limit extensions st))
| reach_clear (st : State) :
    reachable st -> reachable (clear_recent_files_cache st).

End Compute.

(** ** Predicates on results *)

(** The dates of a list of references, read in the store [h], never
    increase from one record to a later one. *)
Definition date_sorted (h : list Entry) (refs : list loc) : Prop :=
  StronglySorted (fun a b => PyStr.leb b a = true) (map (date_of h) refs).

Definition valid_refs (h : list Entry) (refs : list loc) : Prop :=
  Forall (fun l => (l < length h)%nat) refs.

(** What holds of a list stored or returned for the limit [limit]. *)
Definition entry_ok (h : list Entry) (limit : Z) (refs : list loc) : Prop :=
  valid_refs h refs
  /\ date_sorted h refs
  /\ ((0 <= limit)%Z -> (Z.of_nat (length refs) <= limit)%Z).

(** ** Failure model

    A filesystem primitive ([os.scandir], [DirEntry.is_dir], [is_file],
    [stat], [Path.exists]) fails with [OSError] and with nothing else; a
    [git] invocation may fail in any way. *)
Definition raises_only_OSError {A : Type} (r : result A) : Prop :=
  match r with
  | inl e => e = OSError
  | inr _ => True
  end.




(** ** What a record says about its file *)

(** [st] is what the call obtained from [stat] for the file at the
    relative path [p]: through a full path that [p] abbreviates, or
    through the entry of the root's listing. *)
Definition stat_of_file (o : Obs) (root p : string) (st : stat_result) : Prop :=
  (exists full, relpath full root = p /\ stat o full = inr st)
  \/ (exists entries d,
        scandir o = inr entries /\ In d entries /\ name d = p /\ entry_stat d = inr st).

(** The header in force after reading some lines of the log: the last
    line with a NUL that splits into four fields. *)
Fixpoint header_after (current_info : option commit_info) (lines : list string)
  : option commit_info :=
  match lines with
  | [] => current_info
  | line :: rest =>
      if String.eqb line "" then header_after current_info rest
      else if PyStr.contains_char NUL line then
        match PyStr.split_max NUL 3 line with
        | [p0; p1; p2; p3] => header_after (Some (p0, p1, p2, p3)) rest
        | _ => header_after current_info rest
        end
      else header_after current_info rest
  end.

(** The log names the path [p] under the header [info]. *)
Definition log_entry_for (root wd : string) (lines : list string) (p : string)
           (info : commit_info) : Prop :=
  exists pre fline post,
    lines = pre ++ fline :: post
    /\ header_after None pre = Some info
    /\ PyStr.contains_char NUL fline = false
    /\ relative_to root (path_join wd (PyStr.strip fline)) = Some p.

(** A record without history: empty author, message and revision id. *)
Definition untracked_record (isoformat : Z -> string) (o : Obs) (root : string) (e : Entry)
  : Prop :=
  exists st, stat_of_file o root (path e) st /\ e = untracked_entry isoformat (path e) st.

(** A record with history: its fields are those of the log entry that
    names its path. *)
Definition tracked_record (isoformat : Z -> string) (o : Obs) (root wd : string) (e : Entry)
  : Prop :=
  exists st sha author ts msg,
    stat_of_file o root (path e) st
    /\ log_entry_for root wd (PyStr.splitlines (git_output (run_log o))) (path e)
                     (sha, author, ts, msg)
    /\ e = mkEntry (path e) (isoformat (st_mtime st))
                   (if String.eqb author "" then "Unknown" else author) msg sha false.

(** A record classified untracked carries no author, message or
    revision id. *)
Definition fields_rule (e : Entry) : Prop :=
  untracked e = true -> author_name e = "" /\ message e = "" /\ hexsha e = "".

Definition heap_fields_ok (st : State) : Prop := Forall fields_rule (heap st).

(** ** Well-formed directory listings

    A file name holds no [/], and a directory lists a name once. *)
Definition no_slash (s : string) : Prop := PyStr.contains_char "/" s = false.

Inductive wf_tree : Tree -> Prop :=
| wf_node (filenames : list string) (dirs : list (string * Tree)) :
    NoDup filenames ->
    NoDup (map fst dirs) ->
    Forall no_slash filenames ->
    Forall (fun d => no_slash (fst d)) dirs ->
    Forall (fun d => wf_tree (snd d)) dirs ->
    wf_tree (Node filenames dirs).

Definition wf_entries (entries : list DirEntry) : Prop :=
  NoDup (map name entries)
  /\ Forall (fun d => no_slash (name d) /\ wf_tree (tree d)) entries.

Definition wf_obs (o : Obs) : Prop :=
  (forall entries, scandir o = inr entries -> wf_entries entries)
  /\ wf_tree (walk_root o).

(** The files that a walk of a tree reports, as paths relative to the
    root of the tree, in the order of the walk. *)
Fixpoint tree_paths (exclude : gset string) (t : Tree) : list string :=
  match t with
  | Node filenames dirs =>
      filenames ++
      (fix dir_paths (ds : list (string * Tree)) : list string :=
         match ds with
         | [] => []
         | (d, sub) :: ds' =>
             (if pruned exclude d then []
              else map (path_join d) (tree_paths exclude sub)) ++ dir_paths ds'
         end) dirs
  end.

Definition cache_ok (st : State) : Prop :=
  forall root limit exts ts refs,
    _recent_files_cache st !! (root, limit, exts) = Some (ts, refs) ->
    entry_ok (heap st) limit refs.

(** ** Calls that compute

    [dirpath] is [top] or lies below it. *)
Definition below (top dirpath : string) : Prop :=
  dirpath = top \/ exists x, dirpath = path_join top x.

(** The cache holds no list for [root] or for a directory below it, so
    that a call on [root] computes, and so does every call it makes. *)
Definition cold (root : string) (st : State) : Prop :=
  forall k limit exts,
    below root k -> _recent_files_cache st !! ((k, limit, exts) : cache_key) = None.

(** Served directories whose listings are well formed and whose
    sub-directories have distinct names without [/]. *)
Inductive wf_ctx : Ctx -> Prop :=
| wf_ctx_node (o : Obs) (children : list Ctx) :
    wf_obs o ->
    NoDup (map (fun ch => as_name (ctx_obs ch)) children) ->
    Forall (fun ch => no_slash (as_name (ctx_obs ch))) children ->
    Forall wf_ctx children ->
    wf_ctx (mkCtx o children).

(** [stat] gave the modification time [mtime] for the file at the
    relative path [p]: to the service of the root, or to the service of a
    child repository for the rest of the path. *)
Inductive mtime_of : string -> Ctx -> string -> Z -> Prop :=
| mtime_here (root : string) (o : Obs) (children : list Ctx) (p : string)
             (st : stat_result) :
    stat_of_file o root p st ->
    mtime_of root (mkCtx o children) p (st_mtime st)
| mtime_child (root : string) (o : Obs) (children : list Ctx) (ch : Ctx) (p : string)
              (mtime : Z) :
    In ch children ->
    mtime_of (path_join root (as_name (ctx_obs ch))) ch p mtime ->
    mtime_of root (mkCtx o children) (path_join (as_name (ctx_obs ch)) p) mtime.

(** The date of a record renders the modification time of its file. *)
Definition dated (isoformat : Z -> string) (root : string) (c : Ctx) (e : Entry) : Prop :=
  exists mtime, mtime_of root c (path e) mtime /\ date e = isoformat mtime.

End GitService.

(* ===================================================================== *)
(** ** Concrete directories used as examples *)
(* ===================================================================== *)

Module Scenarios.
Import GitService.

(** A rendering of modification times, and a clock that advances by a
    tenth of a second per reading. *)
Definition isoformat (mtime : Z) : string :=
  match mtime with
  | 1%Z => "2024-01-01T00:00:01"
  | 2%Z => "2024-01-01T00:00:02"
  | _ => "2024-01-01T00:00:00"
  end.

Definition monotonic (n : nat) : Z := (Z.of_nat n * 100)%Z.

Definition empty_tree : Tree := Node [] [].

Definition ok (out : string) : result CompletedProcess := inr (mkProc 0 out).

(** A repository at [/r/c] whose work tree holds two files outside the
    index, [a.md] and [b.md], and nothing else. *)
Definition child_obs : Obs :=
  mkObs (Some "/r/c") "/r/c" (ok "") (ok "") (ok "")
        (inr [mkDirEntry "a.md" (inr false) (inr true) (inr (mkStat true 1)) empty_tree;
              mkDirEntry "b.md" (inr false) (inr true) (inr (mkStat true 2)) empty_tree])
        empty_tree (fun _ => inl OSError) (fun p => p)
        "c" (inr true) (inr true) None.

Definition child : Ctx := mkCtx child_obs [].

(** The directory [/r] above it: no repository of its own, one child
    repository [c]. *)
Definition root_obs : Obs :=
  mkObs None "" (inl OtherError) (inl OtherError) (inl OtherError)
        (inr [mkDirEntry "c" (inr true) (inr false) (inr (mkStat false 0)) empty_tree])
        empty_tree (fun _ => inl OSError) (fun p => p)
        "r" (inr true) (inr false) None.

Definition root : Ctx := mkCtx root_obs [child].

(** A repository at [/w] in which [intent.md] was staged with
    [git add -N]: the index lists it, [git status] reports [" A"], the log
    is empty. *)
Definition line (text : string) : string := (text ++ String "010" EmptyString)%string.



(** Three levels: the directory [/r] holds [g]; [/r/g] has a [.git] entry
    that is no repository (the service finds none there), a file [f.md]
    and the directory [g]; [/r/g/g] is a repository whose work tree holds
    two files outside the index, [a.md] (the newest file of all) and
    [g/a.md] (the oldest). *)
Definition nested_repo_obs : Obs :=
  mkObs (Some "/r/g/g") "/r/g/g" (ok "") (ok "") (ok "")
        (inr [mkDirEntry "a.md" (inr false) (inr true) (inr (mkStat true 2)) empty_tree;
              mkDirEntry "g" (inr true) (inr false) (inr (mkStat false 0))
                         (Node ["a.md"] [])])
        empty_tree
        (fun p => if String.eqb p "/r/g/g/g/a.md" then inr (mkStat true 0) else inl OSError)
        (fun p => p)
        "g" (inr true) (inr true) None.

Definition nested_repo : Ctx := mkCtx nested_repo_obs [].

Definition broken_obs : Obs :=
  mkObs None "" (inl OtherError) (inl OtherError) (inl OtherError)
        (inr [mkDirEntry ".git" (inr true) (inr false) (inr (mkStat false 0)) empty_tree;
              mkDirEntry "f.md" (inr false) (inr true) (inr (mkStat true 1)) empty_tree;
              mkDirEntry "g" (inr true) (inr false) (inr (mkStat false 0)) empty_tree])
        empty_tree (fun _ => inl OSError) (fun p => p)
        "g" (inr true) (inr true) None.

Definition broken : Ctx := mkCtx broken_obs [nested_repo].

Definition outer_obs : Obs :=
  mkObs None "" (inl OtherError) (inl OtherError) (inl OtherError)
        (inr [mkDirEntry "g" (inr true) (inr false) (inr (mkStat false 0)) empty_tree])
        empty_tree (fun _ => inl OSError) (fun p => p)
        "r" (inr true) (inr false) None.

Definition outer : Ctx := mkCtx outer_obs [broken].

(** The paths of the records a call returns, read in the store it leaves. *)
Definition returned_paths (r : result (list loc) * State) : option (list string) :=
  match fst r with
  | inr refs => Some (map path (deref (heap (snd r)) refs))
  | inl _ => None
  end.

End Scenarios.

(* ===================================================================== *)
(** ** git_service.py: parsing a unified diff *)
(* ===================================================================== *)

Module Diff.

(** [schemas.models.DiffLine] and [DiffHunk]. *)
Record DiffLine := mkDiffLine {
  type : string;
  content : string;
  old_line_no : option Z;
  new_line_no : option Z
}.

Record DiffHunk := mkDiffHunk {
  header : string;
  lines : list DiffLine
}.

(** [\d] on ASCII text, and [int(...)] of a run of such digits. *)
Definition is_digit (c : ascii) : bool :=
  let n := nat_of_ascii c in (48 <=? n)%nat && (n <=? 57)%nat.

Fixpoint span_digits (s : string) : string * string :=
  match s with
  | EmptyString => (EmptyString, EmptyString)
  | String c s' =>
      if is_digit c then let '(ds, rest) := span_digits s' in (String c ds, rest)
      else (EmptyString, s)
  end.

Fixpoint int_of_digits (acc : Z) (ds : string) : Z :=
  match ds with
  | EmptyString => acc
  | String c ds' => int_of_digits (acc * 10 + Z.of_nat (nat_of_ascii c - 48)) ds'
  end.

(** [s] without the prefix [p], when it starts with it. *)
Fixpoint strip_prefix (p s : string) : option string :=
  match p, s with
  | EmptyString, _ => Some s
  | String a p', String b s' => if Ascii.eqb a b then strip_prefix p' s' else None
  | String _ _, EmptyString => None
  end.

(** [(\d+)]: the longest run of digits, which must not be empty.  What
    follows a number in the pattern is never a digit, so the greedy run is
    the only one that can match. *)
Definition read_number (s : string) : option (Z * string) :=
  match span_digits s with
  | (EmptyString, _) => None
  | (ds, rest) => Some (int_of_digits 0 ds, rest)
  end.

(** [(?:,\d+)?]: a comma and a number, when both are there. *)
Definition skip_count (s : string) : string :=
  match s with
  | String "," s' =>
      match read_number s' with
      | Some (_, rest) => rest
      | None => s
      end
  | _ => s
  end.

(** [re.match(r"@@ -(\d+)(?:,\d+)? \+(\d+)(?:,\d+)? @@", line)] with the two
    groups read by [int]. *)
Definition match_hunk_header (line : string) : option (Z * Z) :=
  match strip_prefix "@@ -" line with
  | None => None
  | Some s1 =>
      match read_number s1 with
      | None => None
      | Some (old_start, s2) =>
          match strip_prefix " +" (skip_count s2) with
          | None => None
          | Some s3 =>
              match read_number s3 with
              | None => None
              | Some (new_start, s4) =>
                  match strip_prefix " @@" (skip_count s4) with
                  | None => None
                  | Some _ => Some (old_start, new_start)
                  end
              end
          end
      end
  end.

(** The variables of the loop of [_parse_diff]. *)
Record ParseState := mkParseState {
  hunks : list DiffHunk;
  current_lines : list DiffLine;
  current_header : string;
  old_no : Z;
  new_no : Z
}.

Definition initial : ParseState := mkParseState [] [] "" 0 0.

(** [if current_lines: hunks.append(DiffHunk(...))]. *)
Definition close_hunk (st : ParseState) : list DiffHunk :=
  match current_lines st with
  | [] => hunks st
  | _ => hunks st ++ [mkDiffHunk (current_header st) (current_lines st)]
  end.

(** One iteration of [for line in raw_diff.split("\n")]. *)
Definition parse_line (st : ParseState) (line : string) : ParseState :=
  if PyStr.startswith "@@" line then
    let '(o, n) := match match_hunk_header line with
                   | Some (a, c) => (a, c)
                   | None => (old_no st, new_no st)
                   end in
    mkParseState (close_hunk st) [mkDiffLine "header" line None None] line o n
  else
    match current_lines st with
    | [] => st
    | _ =>
        if PyStr.startswith "+" line then
          mkParseState (hunks st)
                       (current_lines st
                        ++ [mkDiffLine "add" (PyStr.drop 1 line) None (Some (new_no st))])
                       (current_header st) (old_no st) (new_no st + 1)
        else if PyStr.startswith "-" line then
          mkParseState (hunks st)
                       (current_lines st
                        ++ [mkDiffLine "delete" (PyStr.drop 1 line) (Some (old_no st)) None])
                       (current_header st) (old_no st + 1) (new_no st)
        else if PyStr.startswith " " line || String.eqb line "" then
          mkParseState (hunks st)
                       (current_lines st
                        ++ [mkDiffLine "context"
                                       (if PyStr.startswith " " line then PyStr.drop 1 line
                                        else line)
                                       (Some (old_no st)) (Some (new_no st))])
                       (current_header st) (old_no st + 1) (new_no st + 1)
        else st
    end.

Definition LF : ascii := "010"%char.

(** [GitService._parse_diff]. *)
Definition _parse_diff (raw_diff : string) : list DiffHunk :=
  close_hunk (foldl parse_line initial (PyStr.split LF raw_diff)).

End Diff.

(* ===================================================================== *)
(** ** config.py *)
(* ===================================================================== *)

Module Config.
Import GitService.

(** [RepoConfig]; paths are the strings of the resolved [Path]s. *)
Record RepoConfig := mkRepoConfig {
  name : string;
  path : string;
  allowed_read_roots : list string
}.

(** [DaemonConfig], without the server address. *)
Record DaemonConfig := mkDaemonConfig {
  repos : list RepoConfig;
  exclude_dirs : gset string;
  show_hidden : bool
}.

Section Validate.
(** [Path.exists] and [Path.is_dir], which may raise. *)
Variable path_exists : string -> result bool.
Variable path_is_dir : string -> result bool.

(** The checks made of one path: [missing] and [not_dir] are the two
    messages. *)
Definition check_path (p : string) (missing not_dir : string) (errors : list string)
  : result (list string) :=
  match path_exists p with
  | inl e => inl e
  | inr false => inr (errors ++ [missing])
  | inr true =>
      match path_is_dir p with
      | inl e => inl e
      | inr false => inr (errors ++ [not_dir])
      | inr true => inr errors
      end
  end.

(** [for allowed in repo.allowed_read_roots]. *)
Fixpoint check_roots (repo_name : string) (allowed : list string) (errors : list string)
  : result (list string) :=
  match allowed with
  | [] => inr errors
  | a :: rest =>
      match check_path a
              ("Allowed read root does not exist for repo '" ++ repo_name ++ "': " ++ a)%string
              ("Allowed read root is not a directory for repo '" ++ repo_name ++ "': " ++ a)%string
              errors with
      | inl e => inl e
      | inr errors' => check_roots repo_name rest errors'
      end
  end.

(** [for repo in self.repos]. *)
Fixpoint validate_loop (rs : list RepoConfig) (names : gset string) (errors : list string)
  : result (list string) :=
  match rs with
  | [] => inr errors
  | repo :: rest =>
      let errors1 :=
        if bool_decide (name repo ∈ names)
        then errors ++ [("Duplicate repository name: " ++ name repo)%string]
        else errors in
      match check_path (path repo)
              ("Repository path does not exist: " ++ path repo)%string
              ("Repository path is not a directory: " ++ path repo)%string
              errors1 with
      | inl e => inl e
      | inr errors2 =>
          match check_roots (name repo) (allowed_read_roots repo) errors2 with
          | inl e => inl e
          | inr errors3 => validate_loop rest ({[ name repo ]} ∪ names) errors3
          end
      end
  end.

(** [DaemonConfig.validate]. *)
Definition validate (cfg : DaemonConfig) : result (list string) :=
  validate_loop (repos cfg) ∅
    (match repos cfg with [] => ["No repositories configured"] | _ => [] end).

End Validate.

(** [DaemonConfig.get_repo]. *)
Fixpoint find_repo (rs : list RepoConfig) (nm : string) : option RepoConfig :=
  match rs with
  | [] => None
  | repo :: rest => if String.eqb (name repo) nm then Some repo else find_repo rest nm
  end.

Definition get_repo (cfg : DaemonConfig) (nm : string) : option RepoConfig :=
  find_repo (repos cfg) nm.

End Config.

(* ===================================================================== *)
(** ** watcher.py: the watcher of several repositories *)
(* ===================================================================== *)

Module WatcherMulti.
Import Watcher.

(** [d[k] = v] on a [dict]: a key that is already there keeps its place. *)
Fixpoint dict_set (k v : string) (d : list (string * string)) : list (string * string) :=
  match d with
  | [] => [(k, v)]
  | (k', v') :: d' =>
      if String.eqb k' k then (k', v) :: d' else (k', v') :: dict_set k v d'
  end.

(** [pending.setdefault(name, set()).add(rel_path)]. *)
Fixpoint setdefault_add (name rel_path : string) (pending : list (string * gset string))
  : list (string * gset string) :=
  match pending with
  | [] => [(name, {[ rel_path ]})]
  | (n, paths) :: rest =>
      if String.eqb n name then (n, {[ rel_path ]} ∪ paths) :: rest
      else (n, paths) :: setdefault_add name rel_path rest
  end.

(** The loop [for repo_path_str, name in path_to_repo.items()] for one
    changed path: the repository name and relative path that enter
    [pending], if any.  The loop stops at the first root that the path is
    below. *)
Fixpoint route (path_to_repo : list (string * string)) (abs_path : string)
  : option (string * string) :=
  match path_to_repo with
  | [] => None
  | (repo_path_str, name) :: rest =>
      match relative_to repo_path_str abs_path with
      | None => route rest abs_path
      | Some rel_path => if _is_relevant rel_path then Some (name, rel_path) else None
      end
  end.

Section Multi.
Variable default_filter : Change -> string -> bool.
(** [Path.resolve]. *)
Variable resolve : string -> string.

(** [path_to_repo], filled in the order of [daemon_config.repos]. *)
Definition path_to_repo (repos : list Config.RepoConfig) : list (string * string) :=
  foldl (fun d repo => dict_set (resolve (Config.path repo)) (Config.name repo) d) [] repos.

(** The inner [for _change, abs_path in changes] loop. *)
Definition add_changes (p2r : list (string * string)) (changes : list (Change * string))
           (pend : list (string * gset string)) : list (string * gset string) :=
  foldl (fun acc ch =>
           match route p2r (snd ch) with
           | Some (name, rel_path) => setdefault_add name rel_path acc
           | None => acc
           end) pend changes.

(** The state of [watch_multi_repo] between two iterations of its loop. *)
Record WatchState := mkWatchState {
  pending : list (string * gset string);
  quiet_task : bool;
  batch_start : option Z
}.

Definition initial : WatchState := mkWatchState [] false None.

(** [flush()] of [watch_multi_repo]: one list of effects per repository. *)
Definition flush (s : WatchState) : WatchState * list (list Effect) :=
  let '(cleared, effects) := flush_multi (pending s) in
  (mkWatchState cleared (quiet_task s) None, effects).

(** One reaction of [watch_multi_repo]. *)
Definition step (p2r : list (string * string)) (s : WatchState) (e : Event)
  : WatchState * list (list Effect) :=
  match e with
  | Changes now raw =>
      let changes := filter (fun ch => git_aware_filter default_filter (fst ch) (snd ch) = true)
                            raw in
      match changes with
      | [] => (s, [])
      | _ =>
          let pend := add_changes p2r changes (pending s) in
          match pend with
          | [] => (mkWatchState pend (quiet_task s) (batch_start s), [])
          | _ =>
              let start := match batch_start s with Some b => b | None => now end in
              if (_MAX_WAIT_S <=? now - start)%Z
              then flush (mkWatchState pend false (Some start))
              else (mkWatchState pend true (Some start), [])
          end
      end
  | QuietTimer =>
      if quiet_task s then flush (mkWatchState (pending s) false (batch_start s))
      else (s, [])
  end.

Fixpoint run (p2r : list (string * string)) (s : WatchState) (es : list Event)
  : WatchState * list (list (list Effect)) :=
  match es with
  | [] => (s, [])
  | e :: es' =>
      let '(s1, out) := step p2r s e in
      let '(s2, outs) := run p2r s1 es' in
      (s2, out :: outs)
  end.

(** The states that [watch_multi_repo] can be in for a configuration. *)
Definition reachable (repos : list Config.RepoConfig) (s : WatchState) : Prop :=
  exists es, fst (run (path_to_repo repos) initial es) = s.

End Multi.

End WatcherMulti.

(* ===================================================================== *)
(** ** git_service.py: history, status and version queries *)
(* ===================================================================== *)

Module GitQueries.
Import GitService.

(** What [git] answers in the work tree of a service: each field is one
    invocation of [subprocess.run], [inl] when it raised. *)
Record Git := mkGit {
  (** [git log --max-count=<limit> --format=%H%x00%an%x00%ae%x00%ct%x00%s -- <path>] *)
  log_for : Z -> string -> result CompletedProcess;
  (** [git log --max-count=500 --format=... --name-only] *)
  log_name_only : result CompletedProcess;
  (** [git status --porcelain=v1 -uall] *)
  status_uall : result CompletedProcess;
  (** [git status --porcelain] *)
  status_porcelain : result CompletedProcess;
  (** [git rev-parse --short HEAD] *)
  rev_parse_head : result CompletedProcess
}.

(** A [GitService]: its [repo_path], the work tree of its repository when
    it has one ([self.repo] and [self.repo.working_dir] are set),
    [Path.resolve], [git], and the services of the sub-directories of
    [repo_path] that hold a [.git] entry, by name: what
    [GitService(self.repo_path / child_name)] builds when
    [(child_path / ".git").exists()].  A request goes down one level for
    each segment of its path, so a service is described as deep as the
    paths asked of it. *)
Inductive Service :=
| mkService (repo_path : string) (working_dir : option string) (resolve : string -> string)
            (git : Git) (children : list (string * Service)).

Definition repo_path (s : Service) : string :=
  match s with mkService p _ _ _ _ => p end.
Definition working_dir (s : Service) : option string :=
  match s with mkService _ w _ _ _ => w end.
Definition resolve (s : Service) : string -> string :=
  match s with mkService _ _ r _ _ => r end.
Definition git (s : Service) : Git :=
  match s with mkService _ _ _ g _ => g end.
Definition children (s : Service) : list (string * Service) :=
  match s with mkService _ _ _ _ c => c end.

(** The child service registered under a name. *)
Fixpoint child_named (nm : string) (cs : list (string * Service)) : option Service :=
  match cs with
  | [] => None
  | (n, c) :: rest => if String.eqb n nm then Some c else child_named nm rest
  end.

(** [_get_repo_relative_path]. *)
Definition _get_repo_relative_path (s : Service) (path : string) : string :=
  match working_dir s with
  | None => path
  | Some wd =>
      match relative_to wd (resolve s (path_join (repo_path s) path)) with
      | Some rel => rel
      | None => path
      end
  end.

(** [_resolve_child_repo]: the service of the child repository that owns
    [path], and the path relative to it. *)
Definition _resolve_child_repo (s : Service) (path : string) : option (Service * string) :=
  match path_parts path with
  | child_name :: ((_ :: _) as rest) =>
      match child_named child_name (children s) with
      | Some child => Some (child, PyStr.join "/" rest)
      | None => None
      end
  | _ => None
  end.

Section Commits.
(** [datetime], [int(...)] ([None] for its [ValueError]) and
    [datetime.fromtimestamp] ([None] when it raises). *)
Variable datetime : Type.
Variable parse_int : string -> option Z.
Variable fromtimestamp : Z -> option datetime.

(** [schemas.models.GitCommit]. *)
Record GitCommit := mkGitCommit {
  hexsha : string;
  author_name : string;
  author_email : string;
  date : datetime;
  message : string
}.

(** [x or default] on strings. *)
Definition or_default (x default : string) : string :=
  match x with EmptyString => default | _ => x end.

(** The commit of a line [hash NUL author NUL email NUL timestamp NUL
    subject]: [None] when the line has fewer than five fields, [Some None]
    when reading the timestamp raises. *)
Definition commit_of_line (line : string) : option (option GitCommit) :=
  match PyStr.split_max NUL 4 line with
  | [h; an; ae; timestamp_str; msg] =>
      Some match parse_int timestamp_str with
           | None => None
           | Some ts =>
               match fromtimestamp ts with
               | None => None
               | Some d => Some (mkGitCommit h (or_default an "Unknown") (or_default ae "") d msg)
               end
           end
  | _ => None
  end.

(** The loop of [get_history] over the lines of the log; [None] when an
    exception ends it. *)
Fixpoint history_loop (lines : list string) (commits : list GitCommit)
  : option (list GitCommit) :=
  match lines with
  | [] => Some commits
  | line :: rest =>
      if String.eqb line "" then history_loop rest commits
      else match commit_of_line line with
           | None => history_loop rest commits
           | Some None => None
           | Some (Some c) => history_loop rest (commits ++ [c])
           end
  end.

(** The part of [get_history] that runs in the work tree of the service. *)
Definition history_here (s : Service) (path : string) (limit : Z) : list GitCommit :=
  match log_for (git s) limit (_get_repo_relative_path s path) with
  | inl _ => []
  | inr proc =>
      if (returncode proc =? 0)%Z then
        match history_loop (PyStr.splitlines (PyStr.strip (stdout proc))) [] with
        | Some commits => commits
        | None => []
        end
      else []
  end.

(** [get_history]: a service without a repository hands the request to the
    child repository that owns the path. *)
Fixpoint get_history (s : Service) (path : string) (limit : Z) {struct s}
  : list GitCommit :=
  match s with
  | mkService rp wd rs g cs =>
      match wd with
      | None =>
          match path_parts path with
          | child_name :: ((_ :: _) as rest) =>
              (fix find (l : list (string * Service)) : list GitCommit :=
                 match l with
                 | [] => []
                 | (n, child) :: l' =>
                     if String.eqb n child_name
                     then get_history child (PyStr.join "/" rest) limit
                     else find l'
                 end) cs
          | _ => []
          end
      | Some _ => history_here (mkService rp wd rs g cs) path limit
      end
  end.

(** One iteration of the loop of [get_last_commits_batch] is written out
    in [batch_loop]: [repo_paths] maps a path relative to the work tree to
    the path that was asked for, [current_commit] is the commit of the last
    commit line, and the loop ends early when [remaining] becomes empty or
    when reading a timestamp raises. *)
Fixpoint batch_loop (repo_paths : gmap string string) (lines : list string)
         (current_commit : option GitCommit) (result : gmap string GitCommit)
         (remaining : gset string) : gmap string GitCommit :=
  match lines with
  | [] => result
  | line :: rest =>
      if String.eqb line "" then batch_loop repo_paths rest current_commit result remaining
      else if PyStr.contains_char NUL line then
        match commit_of_line line with
        | None => batch_loop repo_paths rest current_commit result remaining
        | Some None => result
        | Some (Some c) => batch_loop repo_paths rest (Some c) result remaining
        end
      else
        match current_commit with
        | None => batch_loop repo_paths rest current_commit result remaining
        | Some c =>
            match repo_paths !! PyStr.strip line with
            | None => batch_loop repo_paths rest current_commit result remaining
            | Some orig_path =>
                if bool_decide (orig_path ∈ remaining) then
                  let result' := <[ orig_path := c ]> result in
                  let remaining' := remaining ∖ {[ orig_path ]} in
                  if decide (remaining' = ∅) then result'
                  else batch_loop repo_paths rest current_commit result' remaining'
                else batch_loop repo_paths rest current_commit result remaining
            end
        end
  end.

(** [get_last_commit]. *)
Definition get_last_commit (s : Service) (path : string) : option GitCommit :=
  match get_history s path 1 with
  | c :: _ => Some c
  | [] => None
  end.

(** [{self._get_repo_relative_path(p): p for p in paths}]. *)
Definition repo_paths_of (s : Service) (paths : list string) : gmap string string :=
  foldl (fun m p => <[ _get_repo_relative_path s p := p ]> m) ∅ paths.

(** [get_last_commits_batch]. *)
Definition get_last_commits_batch (s : Service) (paths : list string)
  : gmap string GitCommit :=
  match paths with
  | [] => ∅
  | _ =>
      match working_dir s with
      | None =>
          foldl (fun result p =>
                   match _resolve_child_repo s p with
                   | Some (child, rel) =>
                       match get_last_commit child rel with
                       | Some commit => <[ p := commit ]> result
                       | None => result
                       end
                   | None => result
                   end) ∅ paths
      | Some _ =>
          match log_name_only (git s) with
          | inl _ => ∅
          | inr proc =>
              if (returncode proc =? 0)%Z
              then batch_loop (repo_paths_of s paths) (PyStr.splitlines (stdout proc))
                              None ∅ (list_to_set paths)
              else ∅
          end
      end
  end.

End Commits.

(** The first occurrence of [sep] in [s]: the text before it and the text
    after it ([sep in s], [s.split(sep, 1)]). *)
Fixpoint split_once (sep s : string) : option (string * string) :=
  match Diff.strip_prefix sep s with
  | Some rest => Some (EmptyString, rest)
  | None =>
      match s with
      | EmptyString => None
      | String c s' =>
          match split_once sep s' with
          | Some (before, rest) => Some (String c before, rest)
          | None => None
          end
      end
  end.

(** The status string of a two-letter porcelain code. *)
Definition status_of (xy : string) : string :=
  if String.eqb xy "??" then "untracked"
  else if PyStr.contains_char "D" xy then "deleted"
  else if PyStr.contains_char "A" xy then "added"
  else "modified".

(** What one line of [git status --porcelain=v1] adds to the result: the
    path relative to [repo_path] and its status. *)
Definition status_entry (s : Service) (wd line : string) : option (string * string) :=
  if (String.length line <? 4)%nat then None
  else
    let xy := PyStr.take 2 line in
    let file_path := PyStr.strip (PyStr.drop 3 line) in
    let file_path := match split_once " -> " file_path with
                     | Some (_, new) => new
                     | None => file_path
                     end in
    match relative_to (repo_path s) (path_join wd file_path) with
    | None => None
    | Some rel_path => Some (rel_path, status_of xy)
    end.

(** [get_working_dir_status]. *)
Definition get_working_dir_status (s : Service) : gmap string string :=
  match working_dir s with
  | None => ∅
  | Some wd =>
      match status_uall (git s) with
      | inl _ => ∅
      | inr proc =>
          if (returncode proc =? 0)%Z
          then foldl (fun result line =>
                        match status_entry s wd line with
                        | Some (rel_path, st) => <[ rel_path := st ]> result
                        | None => result
                        end) ∅ (PyStr.splitlines (stdout proc))
          else ∅
      end
  end.



End GitQueries.
(* ===================================================================== *)
(** ** routers/api.py: the endpoints of the feed and of the version *)
(* ===================================================================== *)

Module Api.
Import GitService.

(** [fastapi.HTTPException]. *)
Record HTTPException := mkHTTPException {
  status_code : Z;
  detail : string
}.

(** [settings.Settings], as far as these endpoints read it. *)
Record Settings := mkSettings {
  target_repo : string;
  multi_repo : bool;
  exclude_dirs : gset string
}.


Section Endpoints.
Variable isoformat : Z -> string.
Variable monotonic : nat -> Z.
(** The module globals [settings] and [daemon_config]. *)
Variable settings : Settings.
Variable daemon_config : option Config.DaemonConfig.
(** [Path.resolve], what a service rooted at a resolved path observes when
    it computes the feed, and the [GitService] built for a path as the
    queries of history, status and version see it. *)
Variable resolve : string -> string.
Variable observed : string -> Ctx.
Variable service : string -> GitQueries.Service.

(** [get_git_service]: the arguments of the [GitService] it builds. *)
Definition get_git_service (repo : option string) : HTTPException + (string * gset string) :=
  match daemon_config with
  | Some cfg =>
      match repo with
      | None | Some EmptyString =>
          inl (mkHTTPException 400 "Repository name is required in multi-repo mode")
      | Some repo =>
          match Config.get_repo cfg repo with
          | None => inl (mkHTTPException 404 ("Repository not found: " ++ repo))
          | Some repo_config => inr (Config.path repo_config, exclude_dirs settings)
          end
      end
  | None => inr (target_repo settings, exclude_dirs settings)
  end.

(** [_require_single_repo_mode]. *)
Definition _require_single_repo_mode : HTTPException + unit :=
  if multi_repo settings
  then inl (mkHTTPException 404
              "Legacy endpoints are disabled in multi-repo mode. Use /api/r/{repo}/... instead.")
  else inr tt.

(** [git.get_recently_changed_files(limit=limit)] on the service built
    from the arguments [git]. *)
Definition recent_of (git : string * gset string) (limit : Z) : M (list loc) :=
  get_recently_changed_files isoformat monotonic (snd git) (resolve (fst git))
    (observed (resolve (fst git))) limit None.

(** [get_recent_files_multi]: [/r/{repo}/git/recent]. *)
Definition get_recent_files_multi (repo : string) (limit : Z)
  : HTTPException + M (list loc) :=
  match get_git_service (Some repo) with
  | inl e => inl e
  | inr git => inr (recent_of git limit)
  end.

(** [get_recent_files]: the legacy [/git/recent]. *)
Definition get_recent_files (limit : Z) : HTTPException + M (list loc) :=
  match _require_single_repo_mode with
  | inl e => inl e
  | inr _ =>
      let limit := Z.min (Z.max limit 1) 1000 in
      match get_git_service None with
      | inl e => inl e
      | inr git => inr (recent_of git limit)
      end
  end.




End Endpoints.

End Api.

(* ===================================================================== *)
(** ** fs_service.py: the list of all files *)
(* ===================================================================== *)

Module FsService.
Import GitService.

(** The test of the comprehension that prunes [dirnames]:
    [d not in self.exclude_dirs and (self.show_hidden or not d.startswith("."))]. *)
Definition entered (exclude_dirs : gset string) (show_hidden : bool) (d : string) : bool :=
  negb (bool_decide (d ∈ exclude_dirs))
  && (show_hidden || negb (PyStr.startswith "." d)).

(** [os.walk(self.root_path)] with that pruning: [(dirpath, filenames)],
    top-down. *)
Fixpoint walk (exclude_dirs : gset string) (show_hidden : bool) (dirpath : string) (t : Tree)
  : list (string * list string) :=
  match t with
  | Node filenames dirs =>
      (dirpath, filenames) ::
      (fix walk_dirs (ds : list (string * Tree)) : list (string * list string) :=
         match ds with
         | [] => []
         | (d, sub) :: ds' =>
             if entered exclude_dirs show_hidden d
             then walk exclude_dirs show_hidden (path_join dirpath d) sub ++ walk_dirs ds'
             else walk_dirs ds'
         end) dirs
  end.

(** [extensions and not any(fname.lower().endswith(ext) for ext in extensions)]:
    the file is passed over. *)
Definition passed_over (extensions : list string) (fname : string) : bool :=
  match extensions with
  | [] => false
  | _ => negb (existsb (fun ext => PyStr.endswith ext (PyStr.lower fname)) extensions)
  end.

(** [FileSystemService.list_all_files]; [tree] is what [os.walk] finds
    below [root_path]. *)
Definition list_all_files (exclude_dirs : gset string) (show_hidden : bool)
           (root_path : string) (tree : Tree) (extensions : option (list string))
  : list string :=
  let extensions := match extensions with Some l => l | None => [".md"] end in
  let results :=
    concat (map (fun step =>
                   map (fun fname => relpath (path_join (fst step) fname) root_path)
                       (List.filter (fun fname => negb (passed_over extensions fname))
                                    (snd step)))
                (walk exclude_dirs show_hidden root_path tree)) in
  sorted_str results.

End FsService.

(* ===================================================================== *)
(** * Properties *)
(* ===================================================================== *)

(** ** Facts about the string primitives *)

#[local] Arguments String.append !s1 s2 : simpl nomatch.

Section StringFacts.

Lemma string_app_assoc (a b c : string) : ((a ++ b) ++ c = a ++ (b ++ c))%string.
  Proof. induction a as [|x a IH]; simpl; [reflexivity | now rewrite IH]. Qed.

Lemma split_nonempty (sep : ascii) (s : string) : PyStr.split sep s <> [].
  Proof.
    destruct s as [|c s]; simpl; [discriminate|].
    destruct (Ascii.eqb c sep); [discriminate|].
    destruct (PyStr.split sep s); discriminate.
  Qed.

  (** Splitting a text that was glued with the separator. *)
Lemma split_app (sep : ascii) (a b : string) :
    PyStr.split sep (a ++ String sep b)%string = PyStr.split sep a ++ PyStr.split sep b.
  Proof.
    induction a as [|c a IH]; simpl.
    - rewrite Ascii.eqb_refl. reflexivity.
    - destruct (Ascii.eqb c sep).
      + rewrite IH. reflexivity.
      + rewrite IH. destruct (PyStr.split sep a) eqn:E.
        * exfalso. eapply split_nonempty; eassumption.
        * reflexivity.
  Qed.

Lemma join_split (sep : ascii) (s : string) :
    PyStr.join (String sep EmptyString) (PyStr.split sep s) = s.
  Proof.
    induction s as [|c s IH]; simpl; [reflexivity|].
    destruct (Ascii.eqb c sep) eqn:E.
    - apply Ascii.eqb_eq in E. subst c.
      destruct (PyStr.split sep s) eqn:Es.
      + exfalso. eapply split_nonempty; eassumption.
      + change (PyStr.join (String sep "") ("" :: s0 :: l))
          with (String sep (PyStr.join (String sep "") (s0 :: l))).
        now rewrite IH.
    - destruct (PyStr.split sep s) as [|p ps] eqn:Es.
      + exfalso. eapply split_nonempty; eassumption.
      + destruct ps as [|q ps]; simpl in *; now rewrite <- IH.
  Qed.

Lemma strip_parts_app (pre rest : list string) :
    strip_parts pre (pre ++ rest) = Some rest.
  Proof.
    induction pre as [|p pre IH]; simpl; [reflexivity|].
    now rewrite String.eqb_refl.
  Qed.

  (** A path below [root] is found again by [relative_to]. *)
Lemma relative_to_join (root rel : string) :
    relative_to root (path_join root rel) = Some rel.
  Proof.
    unfold relative_to, path_join.
    change (root ++ "/" ++ rel)%string with (root ++ String "/" rel)%string.
    rewrite split_app, strip_parts_app.
    destruct (PyStr.split "/" rel) eqn:E.
    - exfalso. eapply split_nonempty; eassumption.
    - rewrite <- E. f_equal. apply (join_split "/").
  Qed.

Lemma replace_char_app (a b : ascii) (s t : string) :
    PyStr.replace_char a b (s ++ t)%string
    = (PyStr.replace_char a b s ++ PyStr.replace_char a b t)%string.
  Proof. induction s as [|c s IH]; simpl; [reflexivity | now rewrite IH]. Qed.

Lemma path_parts_join (root rel : string) :
    path_parts (path_join root rel) = path_parts root ++ path_parts rel.
  Proof.
    unfold path_parts, path_join.
    rewrite replace_char_app.
    change (PyStr.replace_char "\" "/" ("/" ++ rel)%string)
      with (String "/" (PyStr.replace_char "\" "/" rel)).
    apply split_app.
  Qed.

End StringFacts.

(** ** The change watcher *)

Section WatcherFacts.
Import Watcher.

Lemma git_idx_from_app_none (i : nat) (l1 l2 : list string) :
    git_idx_from i l1 = None ->
    git_idx_from i (l1 ++ l2) = git_idx_from (i + length l1) l2.
  Proof.
    revert i. induction l1 as [|p l1 IH]; intros i H; simpl in *.
    - now rewrite Nat.add_0_r.
    - destruct (String.eqb p ".git"); [discriminate|].
      rewrite IH by assumption. f_equal. lia.
  Qed.

Lemma git_idx_from_shift (i : nat) (l : list string) :
    git_idx_from i l = option_map (fun k => i + k)%nat (git_idx_from 0 l).
  Proof.
    revert i. induction l as [|p l IH]; intros i; simpl; [reflexivity|].
    destruct (String.eqb p ".git"); simpl.
    - now rewrite Nat.add_0_r.
    - rewrite (IH (S i)), (IH 1%nat).
      destruct (git_idx_from 0 l); simpl; [f_equal; lia | reflexivity].
  Qed.

Lemma git_idx_from_bound (i : nat) (l : list string) (k : nat) :
    git_idx_from i l = Some k -> (i <= k < i + length l)%nat.
  Proof.
    revert i. induction l as [|p l IH]; intros i H; simpl in *; [discriminate|].
    destruct (String.eqb p ".git").
    - injection H as <-. lia.
    - apply IH in H. lia.
  Qed.

  (** The first [.git] segment sits where [git_idx] says. *)
Lemma git_idx_from_lookup (i : nat) (l : list string) (k : nat) :
    git_idx_from i l = Some k -> l !! (k - i)%nat = Some ".git".
  Proof.
    revert i. induction l as [|p l IH]; intros i H; simpl in *; [discriminate|].
    destruct (String.eqb p ".git") eqn:E.
    - injection H as <-. apply String.eqb_eq in E. subst p.
      now rewrite Nat.sub_diag.
    - pose proof (git_idx_from_bound _ _ _ H) as Hb.
      apply IH in H. replace (k - i)%nat with (S (k - S i)) by lia. exact H.
  Qed.

Lemma git_idx_head (l : list string) :
    git_idx (".git" :: l) = Some 0%nat.
  Proof. reflexivity. Qed.

Lemma last_part_app (l1 l2 : list string) :
    l2 <> [] -> last_part (l1 ++ l2) = last_part l2.
  Proof.
    intros H. unfold last_part. induction l1 as [|x l1 IH]; [reflexivity|].
    simpl. destruct (l1 ++ l2) eqn:E; [|exact IH].
    destruct l1; simpl in E; [contradiction | discriminate].
  Qed.

Lemma path_parts_nonempty (p : string) : path_parts p <> [].
  Proof. apply split_nonempty. Qed.

  (** No state marker carries a watched extension. *)
Lemma marker_not_watched (m : string) :
    PyStr.mem m _GIT_STATE_FILES = true ->
    PyStr.endswith ".md" (PyStr.lower m) = false.
  Proof.
    unfold PyStr.mem, _GIT_STATE_FILES. simpl.
    repeat match goal with
           | |- (String.eqb m ?x || _ = true) -> _ =>
               destruct (String.eqb_spec m x) as [->|_]; [intros _; reflexivity | simpl]
           end.
    discriminate.
  Qed.

End WatcherFacts.

Section WatcherExtension.
Import Watcher.

Lemma path_parts_cons (c : ascii) (s : string) :
    path_parts (String c s) =
    if Ascii.eqb (if Ascii.eqb c "\" then "/"%char else c) "/"
    then "" :: path_parts s
    else match path_parts s with
         | [] => [String (if Ascii.eqb c "\" then "/"%char else c) ""]
         | p :: ps => String (if Ascii.eqb c "\" then "/"%char else c) p :: ps
         end.
  Proof. reflexivity. Qed.

Lemma lower_is_md (s : string) :
    PyStr.lower s = ".md" -> s = ".md" \/ s = ".Md" \/ s = ".mD" \/ s = ".MD".
  Proof.
    destruct s as [|c1 [|c2 [|c3 [|c4 s]]]]; simpl; try discriminate.
    intros H. injection H as H1 H2 H3.
    destruct c1 as [[] [] [] [] [] [] [] []]; vm_compute in H1; try discriminate H1.
    destruct c2 as [[] [] [] [] [] [] [] []]; vm_compute in H2; try discriminate H2;
      destruct c3 as [[] [] [] [] [] [] [] []]; vm_compute in H3; try discriminate H3;
      auto.
  Qed.

Lemma lower_cons (c : ascii) (s : string) :
    PyStr.lower (String c s) = String (PyStr.lower_char c) (PyStr.lower s).
  Proof. reflexivity. Qed.

Lemma endswith_cons (e : string) (c : ascii) (s : string) :
    PyStr.endswith e (String c s) = String.eqb e (String c s) || PyStr.endswith e s.
  Proof. reflexivity. Qed.

  (** A watched extension at the end of a path is the extension of its
      last segment. *)
Lemma endswith_md_last (s : string) :
    PyStr.endswith ".md" (PyStr.lower s) = true ->
    PyStr.endswith ".md" (PyStr.lower (last_part (path_parts s))) = true.
  Proof.
    induction s as [|c s IH]; [discriminate|].
    change (PyStr.lower (String c s)) with (String (PyStr.lower_char c) (PyStr.lower s)).
    rewrite endswith_cons. intros H. apply orb_true_iff in H as [H|H].
    - apply String.eqb_eq in H. symmetry in H.
      change (String (PyStr.lower_char c) (PyStr.lower s)) with (PyStr.lower (String c s)) in H.
      apply lower_is_md in H as [-> | [-> | [-> | ->]]]; reflexivity.
    - specialize (IH H). rewrite path_parts_cons.
      destruct (Ascii.eqb (if Ascii.eqb c "\" then "/"%char else c) "/").
      + change ("" :: path_parts s) with ([""] ++ path_parts s).
        rewrite last_part_app by apply path_parts_nonempty. exact IH.
      + destruct (path_parts s) as [|p ps] eqn:E.
        * exfalso. eapply path_parts_nonempty; eassumption.
        * destruct ps as [|q ps].
          -- unfold last_part in *. cbn [List.last] in *.
             rewrite lower_cons, endswith_cons, IH. apply orb_true_r.
          -- exact IH.
  Qed.

Lemma relevant_marker_path (rel : string) :
    PyStr.mem (last_part (path_parts rel)) _GIT_STATE_FILES = true ->
    _is_relevant rel = true ->
    exists rest, path_parts rel = ".git" :: rest /\ rest <> [].
  Proof.
    intros Hm Hr. unfold _is_relevant in Hr.
    destruct (existsb _ _WATCHED_EXTENSIONS) eqn:Hext.
    - exfalso. unfold _WATCHED_EXTENSIONS in Hext. simpl in Hext.
      rewrite orb_false_r in Hext. apply endswith_md_last in Hext.
      rewrite (marker_not_watched _ Hm) in Hext. discriminate.
    - destruct (path_parts rel) as [|p0 rest] eqn:E.
      + exfalso. eapply path_parts_nonempty; eassumption.
      + apply andb_true_iff in Hr as [Hr _]. apply andb_true_iff in Hr as [Hl Hp].
        apply String.eqb_eq in Hp. subst p0. exists rest. split; [reflexivity|].
        destruct rest; [discriminate Hl | discriminate].
  Qed.

End WatcherExtension.

Section WatcherFiltering.
Import Watcher.
Variable default_filter : Change -> string -> bool.

Lemma git_idx_join (root rel : string) :
    git_idx (path_parts root) = None ->
    git_idx (path_parts (path_join root rel))
    = option_map (fun k => length (path_parts root) + k)%nat (git_idx (path_parts rel)).
  Proof.
    intros H. rewrite path_parts_join. unfold git_idx in *.
    rewrite git_idx_from_app_none by assumption. simpl. apply git_idx_from_shift.
  Qed.

Lemma git_idx_none_head (p : string) (l : list string) :
    git_idx (p :: l) = None -> p <> ".git".
  Proof.
    unfold git_idx. simpl. destruct (String.eqb_spec p ".git"); [discriminate | auto].
  Qed.

Lemma state_change_head (p : string) :
    _is_git_state_change p = true -> exists rest, path_parts p = ".git" :: rest.
  Proof.
    unfold _is_git_state_change. destruct (path_parts p) as [|p0 rest].
    - simpl. discriminate.
    - intros H. apply andb_true_iff in H as [H _]. apply andb_true_iff in H as [_ H].
      apply String.eqb_eq in H. subst. eauto.
  Qed.

Lemma relevant_of_marker (m rel : string) :
    path_parts rel = [".git"; m] -> PyStr.mem m _GIT_STATE_FILES = true ->
    _is_relevant rel = true.
  Proof.
    intros E Hm. unfold _is_relevant. destruct (existsb _ _WATCHED_EXTENSIONS); [reflexivity|].
    rewrite E. unfold last_part. simpl List.last. simpl length. rewrite Hm. reflexivity.
  Qed.

Lemma filter_inside_git (root rel : string) (change : Change) (i : nat) :
    git_idx (path_parts root) = None ->
    git_idx (path_parts rel) = Some i ->
    git_aware_filter default_filter change (path_join root rel)
    = (length (path_parts rel) =? i + 2)%nat
      && PyStr.mem (last_part (path_parts rel)) _GIT_STATE_FILES.
  Proof.
    intros Hroot Hrel. unfold git_aware_filter.
    rewrite git_idx_join, Hrel by assumption. simpl.
    rewrite path_parts_join, last_part_app by apply path_parts_nonempty.
    rewrite length_app. f_equal.
    destruct (Nat.eqb_spec (length (path_parts rel)) (i + 2));
      destruct (Nat.eqb_spec (length (path_parts root) + length (path_parts rel))
                             (length (path_parts root) + i + 2)); try reflexivity; lia.
  Qed.

Lemma filter_outside_git (root rel : string) (change : Change) :
    git_idx (path_parts root) = None ->
    git_idx (path_parts rel) = None ->
    git_aware_filter default_filter change (path_join root rel)
    = default_filter change (path_join root rel).
  Proof.
    intros Hroot Hrel. unfold git_aware_filter.
    now rewrite git_idx_join, Hrel by assumption.
  Qed.

End WatcherFiltering.

(** C8 (as stated, refuted).  The claim reads: a changed path is accepted
    by the event filtering if and only if its extension is watched or it
    lies exactly one segment below a [.git] directory with a state-marker
    file name.  The path [child/.git/index] below the watched root [/repo]
    satisfies the right-hand side, passes the watch filter, and is still
    rejected, because the relevance check wants [.git] as the first
    segment. *)
Lemma C8_counterexample :
  ~ (Watcher.event_accepted (fun _ _ => true) "/repo" Watcher.modified "/repo/child/.git/index"
       = true
     <-> Watcher.spec_accepts "child/.git/index" = true).
Proof.
  intros [_ H]. specialize (H eq_refl). vm_compute in H. discriminate H.
Qed.

(** C8 (amended).  For a watched root with no [.git] segment of its own
    and every path [rel] below it, the event filtering accepts the change
    if and only if either no segment of [rel] is [.git], the default filter
    of the library lets the path through and the extension is watched, or
    [rel] is exactly [.git/<marker>] for a state-marker file name.  In
    particular every other path with a [.git] segment is rejected. *)
Theorem C8_event_filtering
  (default_filter : Watcher.Change -> string -> bool)
  (root rel : string) (change : Watcher.Change) :
  Watcher.git_idx (path_parts root) = None ->
  Watcher.event_accepted default_filter root change (path_join root rel) = true
  <-> (Watcher.git_idx (path_parts rel) = None
       /\ default_filter change (path_join root rel) = true
       /\ Watcher.has_watched_extension rel = true)
      \/ (exists m, path_parts rel = [".git"; m]
                    /\ PyStr.mem m Watcher._GIT_STATE_FILES = true).
Proof.
  intros Hroot. unfold Watcher.event_accepted. rewrite relative_to_join.
  destruct (Watcher.git_idx (path_parts rel)) as [i|] eqn:Hrel.
  - rewrite (filter_inside_git default_filter root rel change i Hroot Hrel).
    split.
    + intros H. apply andb_true_iff in H as [H Hr].
      apply andb_true_iff in H as [Hlen Hm]. apply Nat.eqb_eq in Hlen.
      destruct (relevant_marker_path rel Hm Hr) as (rest & E & Hne).
      right. rewrite E in Hrel, Hlen, Hm. rewrite git_idx_head in Hrel.
      injection Hrel as <-. simpl in Hlen.
      destruct rest as [|m [|x rest]]; simpl in Hlen; try lia; try contradiction.
      exists m. split; [exact E | exact Hm].
    + intros [(Hn & _) | (m & E & Hm)]; [discriminate|].
      rewrite E in Hrel. rewrite git_idx_head in Hrel. injection Hrel as <-.
      rewrite (relevant_of_marker m rel E Hm), E. unfold last_part.
      change (List.last [".git"; m] "") with m. rewrite Hm. reflexivity.
  - rewrite (filter_outside_git default_filter root rel change Hroot Hrel).
    split.
    + intros H. apply andb_true_iff in H as [Hd Hr]. left.
      split; [reflexivity|]. split; [exact Hd|].
      unfold Watcher._is_relevant in Hr. unfold Watcher.has_watched_extension.
      destruct (existsb _ Watcher._WATCHED_EXTENSIONS); [reflexivity|].
      destruct (path_parts rel) as [|p0 rest] eqn:E.
      * exfalso. eapply path_parts_nonempty; eassumption.
      * apply andb_true_iff in Hr as [Hr _]. apply andb_true_iff in Hr as [_ Hp].
        apply String.eqb_eq in Hp. subst p0. discriminate Hrel.
    + intros [(_ & Hd & Hext) | (m & E & _)].
      * rewrite Hd. unfold Watcher._is_relevant.
        unfold Watcher.has_watched_extension in Hext. rewrite Hext. reflexivity.
      * rewrite E in Hrel. discriminate Hrel.
Qed.

Lemma C8_event_filtering_witness :
  Watcher.git_idx (path_parts "/repo") = None
  /\ Watcher.event_accepted (fun _ _ => false) "/repo" Watcher.modified
       (path_join "/repo" ".git/HEAD") = true.
Proof.
  split; [reflexivity|].
  apply (C8_event_filtering (fun _ _ => false) "/repo" ".git/HEAD" Watcher.modified);
    [reflexivity|].
  right. exists "HEAD". split; reflexivity.
Defined.

Section NestedControlDir.
Import Watcher.
Variable default_filter : Change -> string -> bool.

Lemma git_idx_app_none (pre l : list string) :
    git_idx pre = None ->
    git_idx (pre ++ l) = option_map (fun k => length pre + k)%nat (git_idx l).
  Proof.
    intros H. unfold git_idx in *. rewrite git_idx_from_app_none by assumption.
    simpl. apply git_idx_from_shift.
  Qed.

Lemma nested_not_relevant (rel : string) (pre : list string) (m : string) :
    path_parts rel = pre ++ [".git"; m] -> pre <> [] -> git_idx pre = None ->
    PyStr.mem m _GIT_STATE_FILES = true ->
    _is_relevant rel = false /\ _is_git_state_change rel = false.
  Proof.
    intros E Hne Hpre Hm.
    assert (Hlast : last_part (path_parts rel) = m).
    { rewrite E, last_part_app by discriminate. reflexivity. }
    assert (Hhead : match path_parts rel with
                    | p0 :: _ => String.eqb p0 ".git"
                    | [] => false
                    end = false).
    { rewrite E. destruct pre as [|p0 pre]; [contradiction|]. simpl.
      apply String.eqb_neq. eapply git_idx_none_head; eassumption. }
    split.
    - unfold _is_relevant.
      destruct (existsb _ _WATCHED_EXTENSIONS) eqn:Hext.
      + exfalso. unfold _WATCHED_EXTENSIONS in Hext. simpl in Hext.
        rewrite orb_false_r in Hext. apply endswith_md_last in Hext.
        rewrite Hlast, (marker_not_watched _ Hm) in Hext. discriminate.
      + rewrite Hhead. now rewrite andb_false_r.
    - unfold _is_git_state_change. rewrite Hhead. now rewrite andb_false_r.
  Qed.

Lemma coalesce_clear (P : gset string) (repo_name : option string) :
    In ClearRecentFilesCache (_coalesce_and_broadcast P repo_name) ->
    exists p, p ∈ P /\ _is_git_state_change p = true.
  Proof.
    unfold _coalesce_and_broadcast. destruct (decide (P = ∅)); [intros []|].
    destruct (existsb _is_git_state_change (elements P)) eqn:Hex.
    - intros _. apply existsb_exists in Hex as (p & Hin & Hp).
      exists p. split; [|exact Hp]. apply elem_of_elements, list_elem_of_In, Hin.
    - simpl. intros [H|[]]. discriminate H.
  Qed.

End NestedControlDir.

(** C10.  A state-marker file of a control directory that is nested below
    the watched root (its path, relative to the root, is
    [<pre>/.git/<marker>] with a non-empty [pre] free of [.git] segments)
    passes the low-level filter, is not classified as a version-control
    state change and is not relevant: it never enters the pending set, and
    a reaction to it clears the cache only when a path that was already
    pending is a state change.  In general the state-change check holds
    only for a path whose first segment is [.git]. *)
Theorem C10_nested_control_dir
  (default_filter : Watcher.Change -> string -> bool)
  (root rel : string) (change : Watcher.Change) (pre : list string) (m : string) :
  Watcher.git_idx (path_parts root) = None ->
  path_parts rel = pre ++ [".git"; m] ->
  pre <> [] ->
  Watcher.git_idx pre = None ->
  PyStr.mem m Watcher._GIT_STATE_FILES = true ->
  Watcher.git_aware_filter default_filter change (path_join root rel) = true
  /\ Watcher._is_git_state_change rel = false
  /\ Watcher._is_relevant rel = false
  /\ (forall pend, Watcher.add_changes root [(change, path_join root rel)] pend = pend)
  /\ (forall s now,
        let out := Watcher.step default_filter root s
                     (Watcher.Changes now [(change, path_join root rel)]) in
        Watcher.pending (fst out) ⊆ Watcher.pending s
        /\ (In Watcher.ClearRecentFilesCache (snd out) ->
            exists p, p ∈ Watcher.pending s /\ Watcher._is_git_state_change p = true))
  /\ (forall p, Watcher._is_git_state_change p = true ->
                exists rest, path_parts p = ".git" :: rest).
Proof.
  intros Hroot E Hne Hpre Hm.
  destruct (nested_not_relevant rel pre m E Hne Hpre Hm) as [Hrel Hch].
  assert (Hidx : Watcher.git_idx (path_parts rel) = Some (length pre)).
  { rewrite E, git_idx_app_none by assumption. rewrite git_idx_head. simpl.
    f_equal. lia. }
  assert (Hfilter :
            Watcher.git_aware_filter default_filter change (path_join root rel) = true).
  { rewrite (filter_inside_git default_filter root rel change _ Hroot Hidx).
    rewrite E, last_part_app by discriminate. rewrite length_app.
    change (last_part [".git"; m]) with m.
    rewrite Hm, andb_true_r. apply Nat.eqb_eq. simpl. lia. }
  assert (Hadd : forall pend,
             Watcher.add_changes root [(change, path_join root rel)] pend = pend).
  { intros pend. unfold Watcher.add_changes. simpl.
    rewrite relative_to_join, Hrel. reflexivity. }
  repeat split; try assumption.
  - simpl. unfold filter; simpl. rewrite Hfilter.
    destruct (decide (true = true)) as [_|Hc]; [|contradiction].
    rewrite Hadd. destruct (decide (Watcher.pending s = ∅)); simpl; [set_solver|].
    destruct (Watcher._MAX_WAIT_S <=? _)%Z; simpl; set_solver.
  - simpl. unfold filter; simpl. rewrite Hfilter.
    destruct (decide (true = true)) as [_|Hc]; [|contradiction].
    rewrite Hadd. destruct (decide (Watcher.pending s = ∅)); simpl; [intros []|].
    destruct (Watcher._MAX_WAIT_S <=? _)%Z; simpl; [|intros []].
    apply coalesce_clear.
  - intros p. apply state_change_head.
Qed.

Lemma C10_nested_control_dir_witness :
  Watcher.git_aware_filter (fun _ _ => false) Watcher.modified
    (path_join "/projects" "child/.git/index") = true
  /\ Watcher._is_git_state_change "child/.git/index" = false
  /\ Watcher._is_relevant "child/.git/index" = false.
Proof.
  destruct (C10_nested_control_dir (fun _ _ => false) "/projects" "child/.git/index"
              Watcher.modified ["child"] "index")
    as (H1 & H2 & H3 & _); try reflexivity; [discriminate|].
  exact (conj H1 (conj H2 H3)).
Defined.

(** ** The notification broadcaster *)

Section BroadcastFacts.
Import SocketManager.
Variable send_json : WebSocket -> Message -> bool.

Lemma deliver_spec (message : Message) (conns : list WebSocket)
        (att : list (WebSocket * Message)) (dd : list WebSocket) (snt : nat) :
    deliver send_json message conns (att, dd, snt)
    = (att ++ map (fun c => (c, message)) conns,
       dd ++ List.filter (fun c => negb (send_json c message)) conns,
       snt + length (List.filter (fun c => send_json c message) conns))%nat.
  Proof.
    revert att dd snt. induction conns as [|c conns IH]; intros att dd snt; simpl.
    - now rewrite !app_nil_r, Nat.add_0_r.
    - destruct (send_json c message); simpl; rewrite IH, <- !app_assoc; simpl;
        repeat f_equal; lia.
  Qed.

Lemma remove_suppressed_head (x : WebSocket) (l : list WebSocket) :
    remove_suppressed x (x :: l) = l.
  Proof. unfold remove_suppressed. simpl. now rewrite Nat.eqb_refl. Qed.

Lemma remove_suppressed_other (x y : WebSocket) (l : list WebSocket) :
    x <> y -> remove_suppressed x (y :: l) = y :: remove_suppressed x l.
  Proof.
    intros H. unfold remove_suppressed. simpl.
    destruct (Nat.eqb_spec x y); [contradiction|].
    destruct (list_remove x l); reflexivity.
  Qed.

Lemma remove_all_keeps_head (y : WebSocket) (l dd : list WebSocket) :
    ~ In y dd ->
    foldl (fun l conn => remove_suppressed conn l) (y :: l) dd
    = y :: foldl (fun l conn => remove_suppressed conn l) l dd.
  Proof.
    revert l. induction dd as [|d dd IH]; intros l H; simpl; [reflexivity|].
    rewrite remove_suppressed_other by (intros ->; apply H; now left).
    apply IH. intros Hin. apply H. now right.
  Qed.

  (** Removing every failed connection once leaves the successful ones. *)
Lemma remove_dead (message : Message) (conns : list WebSocket) :
    foldl (fun l conn => remove_suppressed conn l) conns
          (List.filter (fun c => negb (send_json c message)) conns)
    = List.filter (fun c => send_json c message) conns.
  Proof.
    induction conns as [|c conns IH]; simpl; [reflexivity|].
    destruct (send_json c message) eqn:E; simpl.
    - rewrite remove_all_keeps_head, IH; [reflexivity|].
      intros Hin. apply filter_In in Hin as [_ Hf]. rewrite E in Hf. discriminate.
    - rewrite remove_suppressed_head. exact IH.
  Qed.

End BroadcastFacts.

(** C9.  [broadcast] attempts one delivery of the message to every
    registered observer, in order, whatever the outcome of the earlier
    attempts; the observers removed are exactly those whose delivery
    failed, and every observer whose delivery succeeded stays registered,
    in the same order. *)
Theorem C9_broadcast_isolation
  (send_json : SocketManager.WebSocket -> Message -> bool)
  (active_connections : list SocketManager.WebSocket) (message : Message) :
  let r := SocketManager.broadcast send_json active_connections message in
  SocketManager.attempted r = map (fun c => (c, message)) active_connections
  /\ SocketManager.dead r
     = List.filter (fun c => negb (send_json c message)) active_connections
  /\ SocketManager.remaining r
     = List.filter (fun c => send_json c message) active_connections
  /\ (forall c, In c (SocketManager.remaining r)
                <-> In c active_connections /\ send_json c message = true).
Proof.
  intros r. subst r. unfold SocketManager.broadcast.
  destruct active_connections as [|c0 cs] eqn:E.
  - simpl. repeat split; try tauto.
  - rewrite <- E. rewrite deliver_spec. simpl SocketManager.attempted.
    simpl SocketManager.dead. simpl SocketManager.remaining.
    rewrite remove_dead.
    split; [reflexivity|]. split; [reflexivity|]. split; [reflexivity|].
    intros c. rewrite filter_In. tauto.
Qed.

(** ** Sorting *)

Section SortFacts.
Context {A : Type} (le : A -> A -> bool).

Lemma insert_sorted_perm (x : A) (l : list A) :
    Permutation (insert_sorted le x l) (x :: l).
  Proof.
    induction l as [|y l IH]; simpl; [reflexivity|].
    destruct (le x y); [reflexivity|].
    rewrite IH. apply perm_swap.
  Qed.

Lemma stable_sort_perm (l : list A) : Permutation (stable_sort le l) l.
  Proof.
    induction l as [|x l IH]; simpl; [reflexivity|].
    unfold stable_sort in *. simpl. rewrite insert_sorted_perm, IH. reflexivity.
  Qed.


Hypothesis le_total : forall a b, le a b = true \/ le b a = true.
Hypothesis le_trans : forall a b c, le a b = true -> le b c = true -> le a c = true.

Lemma insert_sorted_sorted (x : A) (l : list A) :
    StronglySorted (fun a b => le a b = true) l ->
    StronglySorted (fun a b => le a b = true) (insert_sorted le x l).
  Proof.
    induction l as [|y l IH]; intros Hs; simpl.
    - constructor; [constructor | constructor].
    - inversion Hs as [|? ? Hs' Hall]; subst.
      destruct (le x y) eqn:E.
      + constructor; [exact Hs|]. constructor; [exact E|].
        eapply Forall_impl; [|exact Hall]. intros a Ha. simpl in Ha. eapply le_trans; eassumption.
      + constructor; [apply IH; exact Hs'|].
        assert (Hyx : le y x = true) by (destruct (le_total x y); congruence).
        rewrite Forall_forall. intros a Hin.
        apply (Permutation_in _ (insert_sorted_perm x l)) in Hin as [<-|Hin]; [exact Hyx|].
        rewrite Forall_forall in Hall. apply Hall, Hin.
  Qed.

  (** The result of the sort is ordered: every element stands before the
      elements it may precede. *)
Lemma stable_sort_sorted (l : list A) :
    StronglySorted (fun a b => le a b = true) (stable_sort le l).
  Proof.
    induction l as [|x l IH]; [constructor|].
    unfold stable_sort in *. simpl. apply insert_sorted_sorted, IH.
  Qed.

End SortFacts.

Lemma pystr_leb_total (a b : string) : PyStr.leb a b = true \/ PyStr.leb b a = true.
Proof. apply String.leb_total. Qed.

Lemma pystr_leb_trans (a b c : string) :
  PyStr.leb a b = true -> PyStr.leb b c = true -> PyStr.leb a c = true.
Proof.
  unfold PyStr.leb. intros H1 H2.
  apply Is_true_true. apply Is_true_true in H1, H2.
  exact (@transitivity _ String.le _ a b c H1 H2).
Qed.

Lemma sorted_str_spec (xs : list string) :
  StronglySorted (fun a b => PyStr.leb a b = true) (sorted_str xs)
  /\ Permutation (sorted_str xs) xs.
Proof.
  split.
  - apply stable_sort_sorted; [apply pystr_leb_total | apply pystr_leb_trans].
  - apply stable_sort_perm.
Qed.

(** ** The debounce state machine *)

Section WatcherMachine.
Import Watcher.
Variable default_filter : Change -> string -> bool.
Variable target : string.

Lemma coalesce_notifies (P : gset string) (repo_name : option string) :
    P <> ∅ ->
    notifies_batch P
      (match repo_name with Some (String c n) => Some (String c n) | _ => None end)
      (_coalesce_and_broadcast P repo_name).
  Proof.
    intros HP. unfold _coalesce_and_broadcast.
    destruct (decide (P = ∅)) as [|_]; [contradiction|].
    destruct (sorted_str_spec (elements P)) as [Hsorted Hperm].
    set (repo := match repo_name with Some (String c n) => Some (String c n) | _ => None end).
    set (msg := mkMessage "files_changed" (sorted_str (elements P)) repo).
    assert (Hmsg : match repo_name with
                   | Some (String c n) =>
                       mkMessage "files_changed" (sorted_str (elements P)) (Some (String c n))
                   | _ => mkMessage "files_changed" (sorted_str (elements P)) None
                   end = msg).
    { subst msg repo. destruct repo_name as [[|c n]|]; reflexivity. }
    rewrite Hmsg. exists msg.
    assert (Hclear : existsb _is_git_state_change (elements P) = true
                     <-> exists p, p ∈ P /\ _is_git_state_change p = true).
    { rewrite existsb_exists. split; intros (p & Hin & Hp); exists p; split; try exact Hp.
      - apply elem_of_elements, list_elem_of_In, Hin.
      - apply list_elem_of_In, elem_of_elements, Hin. }
    split.
    { destruct (existsb _is_git_state_change (elements P)); [right | left]; reflexivity. }
    split.
    { rewrite <- Hclear. destruct (existsb _is_git_state_change (elements P)); simpl.
      - split; auto.
      - split; [intros [H|[]]; discriminate H | discriminate]. }
    split; [reflexivity|]. split; [reflexivity|]. split; [exact Hsorted|].
    split.
    - simpl. eapply Permutation_NoDup; [symmetry; exact Hperm|].
      apply NoDup_ListNoDup, NoDup_elements.
    - intros p. simpl. split; intros H.
      + apply elem_of_elements, list_elem_of_In. eapply Permutation_in; eassumption.
      + apply elem_of_elements in H. apply list_elem_of_In in H.
        eapply Permutation_in; [symmetry; exact Hperm | exact H].
  Qed.

Lemma add_changes_mono (changes : list (Change * string)) (pend : gset string) :
    pend ⊆ add_changes target changes pend.
  Proof.
    unfold add_changes. revert pend.
    induction changes as [|ch changes IH]; intros pend; simpl; [reflexivity|].
    etransitivity; [|apply IH].
    destruct (relative_to target (snd ch)); [|reflexivity].
    destruct (_is_relevant s); set_solver.
  Qed.





End WatcherMachine.



(** ** The recently-changed feed: reasoning about stateful calls *)

Section Stores.
Import GitService.

(** Rose-tree induction on served directories. *)
Lemma Ctx_forall_ind (P : Ctx -> Prop) :
  (forall o cs, Forall P cs -> P (mkCtx o cs)) -> forall c, P c.
Proof.
  intros H. fix IH 1. intros [o cs]. apply H.
  induction cs as [|c cs IHcs]; constructor; [apply IH | exact IHcs].
Qed.

(** The store only grows, and a record keeps its date. *)
Definition extends (h h' : list Entry) : Prop :=
  (length h <= length h')%nat
  /\ forall l, (l < length h)%nat -> date_of h' l = date_of h l.

Lemma extends_refl (h : list Entry) : extends h h.
Proof. split; auto. Qed.

Lemma extends_trans (h1 h2 h3 : list Entry) :
  extends h1 h2 -> extends h2 h3 -> extends h1 h3.
Proof.
  intros [L1 D1] [L2 D2]. split; [lia|].
  intros l Hl. rewrite D2 by lia. apply D1, Hl.
Qed.

Lemma extends_app (h es : list Entry) : extends h (h ++ es).
Proof.
  split; [rewrite length_app; lia|].
  intros l Hl. unfold date_of. now rewrite lookup_app_l by exact Hl.
Qed.

Lemma extends_set_path (h : list Entry) (l : loc) (e : Entry) (p : string) :
  h !! l = Some e -> extends h (<[ l := set_path e p ]> h).
Proof.
  intros He. split; [now rewrite length_insert|].
  intros l' Hl'. unfold date_of.
  destruct (decide (l = l')) as [<-|Hne].
  - rewrite list_lookup_insert_eq by (eapply lookup_lt_Some; eassumption).
    now rewrite He.
  - now rewrite list_lookup_insert_ne by exact Hne.
Qed.

Lemma valid_refs_extends (h h' : list Entry) (refs : list loc) :
  extends h h' -> valid_refs h refs -> valid_refs h' refs.
Proof.
  intros [L _]. unfold valid_refs. apply Forall_impl. intros l Hl. lia.
Qed.

Lemma dates_extends (h h' : list Entry) (refs : list loc) :
  extends h h' -> valid_refs h refs -> map (date_of h') refs = map (date_of h) refs.
Proof.
  intros [_ D] Hv. induction Hv as [|l refs Hl _ IH]; simpl; [reflexivity|].
  now rewrite D, IH.
Qed.

Lemma entry_ok_extends (h h' : list Entry) (limit : Z) (refs : list loc) :
  extends h h' -> entry_ok h limit refs -> entry_ok h' limit refs.
Proof.
  intros Hext (Hv & Hs & Hl). split; [eapply valid_refs_extends; eassumption|].
  split; [|exact Hl]. unfold date_sorted in *.
  now rewrite (dates_extends h h' refs Hext Hv).
Qed.

End Stores.

Section SliceFacts.
Context {A : Type}.

Lemma slice_to_prefix (n : Z) (xs : list A) : exists k, slice_to n xs = take k xs.
Proof. unfold slice_to. destruct (0 <=? n)%Z; eauto. Qed.

Lemma slice_to_length (n : Z) (xs : list A) :
  (0 <= n)%Z -> (Z.of_nat (length (slice_to n xs)) <= n)%Z.
Proof.
  intros Hn. unfold slice_to. destruct (Z.leb_spec 0 n); [|lia].
  rewrite length_take. lia.
Qed.


Lemma take_strongly_sorted (R : A -> A -> Prop) (k : nat) (xs : list A) :
  StronglySorted R xs -> StronglySorted R (take k xs).
Proof.
  revert k. induction xs as [|x xs IH]; intros k Hs; destruct k; simpl; try constructor.
  - inversion Hs; subst. apply IH. assumption.
  - inversion Hs as [|? ? _ Hall]; subst. now apply Forall_take.
Qed.

Lemma slice_to_strongly_sorted (R : A -> A -> Prop) (n : Z) (xs : list A) :
  StronglySorted R xs -> StronglySorted R (slice_to n xs).
Proof.
  intros Hs. destruct (slice_to_prefix n xs) as [k ->]. now apply take_strongly_sorted.
Qed.


Lemma slice_to_Forall (P : A -> Prop) (n : Z) (xs : list A) :
  Forall P xs -> Forall P (slice_to n xs).
Proof. destruct (slice_to_prefix n xs) as [k ->]. apply Forall_take. Qed.

Lemma slice_to_NoDup {B : Type} (f : A -> B) (n : Z) (xs : list A) :
  NoDup (map f xs) -> NoDup (map f (slice_to n xs)).
Proof.
  destruct (slice_to_prefix n xs) as [k ->]. intros H.
  change (NoDup (f <$> take k xs)). rewrite fmap_take.
  eapply sublist_NoDup; [exact H | apply sublist_take].
Qed.

End SliceFacts.

Lemma strongly_sorted_map {A B : Type} (R : B -> B -> Prop) (f : A -> B) (xs : list A) :
  StronglySorted (fun a b => R (f a) (f b)) xs -> StronglySorted R (map f xs).
Proof.
  induction 1 as [|x xs _ IH Hall]; simpl; constructor; [exact IH|].
  change (Forall (R (f x)) (f <$> xs)). apply Forall_fmap. exact Hall.
Qed.

Section Primitives.
Import GitService.
Variable isoformat : Z -> string.
Variable monotonic : nat -> Z.

Lemma alloc_list_eq (es : list Entry) (st : State) :
  alloc_list es st
  = (inr (seq (length (heap st)) (length es)),
     mkState (_recent_files_cache st) (heap st ++ es) (ticks st)).
Proof.
  revert st. induction es as [|e es IH]; intros st; simpl.
  - unfold ret. rewrite app_nil_r. now destruct st.
  - unfold bind, alloc. rewrite IH. simpl. rewrite length_app. simpl.
    rewrite Nat.add_1_r, <- app_assoc. reflexivity.
Qed.

Lemma prefix_paths_spec (prefix : string) (ls : list loc) (st : State) :
  exists h', prefix_paths prefix ls st
             = (inr tt, mkState (_recent_files_cache st) h' (ticks st))
             /\ extends (heap st) h' /\ length h' = length (heap st).
Proof.
  revert st. induction ls as [|l ls IH]; intros st; simpl.
  - exists (heap st). unfold ret. split; [now destruct st|].
    split; [apply extends_refl | reflexivity].
  - unfold bind, prefix_path. destruct (heap st !! l) as [e|] eqn:He.
    + destruct (IH (mkState (_recent_files_cache st)
                            (<[ l := set_path e (prefix ++ path e) ]> (heap st))
                            (ticks st))) as (h' & Heq & Hext & Hlen).
      exists h'. split; [exact Heq|]. simpl in *. split.
      * eapply extends_trans; [|exact Hext]. now apply extends_set_path.
      * now rewrite Hlen, length_insert.
    + apply IH.
Qed.

Lemma cache_ok_extends (st st' : State) :
  _recent_files_cache st' = _recent_files_cache st ->
  extends (heap st) (heap st') -> cache_ok st -> cache_ok st'.
Proof.
  intros Hc Hext Hok root limit exts ts refs Hl. rewrite Hc in Hl.
  eapply entry_ok_extends; [exact Hext|]. eapply Hok; exact Hl.
Qed.

Lemma store_spec (key : cache_key) (data : list loc) (st : State) :
  store monotonic key data st
  = (inr data,
     mkState (<[ key := (monotonic (ticks st), data) ]> (_recent_files_cache st))
             (heap st) (S (ticks st))).
Proof. reflexivity. Qed.

Lemma cache_ok_store (root : string) (limit : Z) (exts : list string) (t : Z)
      (data : list loc) (c : gmap cache_key (Z * list loc)) (h : list Entry) (n m : nat) :
  cache_ok (mkState c h n) -> entry_ok h limit data ->
  cache_ok (mkState (<[ (root, limit, exts) := (t, data) ]> c) h m).
Proof.
  intros Hok Hd root' limit' exts' ts refs Hl. simpl in *.
  destruct (decide ((root, limit, exts) = (root', limit', exts'))) as [Heq|Hne].
  - rewrite Heq, lookup_insert_eq in Hl. injection Heq as -> -> ->.
    injection Hl as <- <-. exact Hd.
  - rewrite lookup_insert_ne in Hl by exact Hne. eapply (Hok root' limit' exts'). exact Hl.
Qed.

(** The unfolding of the entry point at a node. *)
Lemma get_recently_changed_files_eq (exclude : gset string) (repo_path : string)
      (o : Obs) (children : list Ctx) (limit : Z) (extensions : option (list string)) :
  get_recently_changed_files isoformat monotonic exclude repo_path (mkCtx o children)
                             limit extensions
  = let extensions := default_extensions extensions in
    let key : cache_key := (repo_path, limit, extensions) in
    bind (read_clock monotonic) (fun now =>
    bind (cache_get key) (fun cached =>
    match cache_hit cached now with
    | Some data => ret data
    | None =>
        match working_dir o with
        | None =>
            bind (lift (_discover_child_git_repos exclude o
                          (map (fun ch =>
                                  (ctx_obs ch,
                                   get_recently_changed_files isoformat monotonic exclude
                                     (path_join repo_path (as_name (ctx_obs ch)))
                                     ch limit (Some extensions)))
                               children)))
                 (fun child_repos =>
                    match child_repos with
                    | _ :: _ =>
                        bind (_get_recent_files_from_child_repos isoformat exclude repo_path o
                                child_repos limit extensions)
                             (fun merged => store monotonic key merged)
                    | [] =>
                        bind (lift (recent_plain isoformat exclude repo_path o limit))
                             (fun trimmed =>
                                bind (alloc_list trimmed) (fun refs => store monotonic key refs))
                    end)
        | Some wd =>
            bind (lift (recent_versioned isoformat exclude repo_path wd o limit extensions))
                 (fun trimmed =>
                    bind (alloc_list trimmed) (fun refs => store monotonic key refs))
        end
    end)).
Proof. reflexivity. Qed.

(** The same, applied to a state: the clock is read, the cache is looked
    up, and the rest runs only on a miss. *)
Lemma get_recently_changed_files_run (exclude : gset string) (repo_path : string)
      (o : Obs) (children : list Ctx) (limit : Z) (extensions : option (list string))
      (st : State) :
  get_recently_changed_files isoformat monotonic exclude repo_path (mkCtx o children)
                             limit extensions st
  = let exts := default_extensions extensions in
    let key : cache_key := (repo_path, limit, exts) in
    let st0 := mkState (_recent_files_cache st) (heap st) (S (ticks st)) in
    match cache_hit (_recent_files_cache st !! key) (monotonic (ticks st)) with
    | Some data => (inr data, st0)
    | None =>
        match working_dir o with
        | None =>
            match _discover_child_git_repos exclude o
                    (map (fun ch =>
                            (ctx_obs ch,
                             get_recently_changed_files isoformat monotonic exclude
                               (path_join repo_path (as_name (ctx_obs ch)))
                               ch limit (Some exts)))
                         children) with
            | inl e => (inl e, st0)
            | inr [] =>
                bind (lift (recent_plain isoformat exclude repo_path o limit))
                     (fun trimmed =>
                        bind (alloc_list trimmed) (fun refs => store monotonic key refs)) st0
            | inr child_repos =>
                bind (_get_recent_files_from_child_repos isoformat exclude repo_path o
                        child_repos limit exts)
                     (fun merged => store monotonic key merged) st0
            end
        | Some wd =>
            bind (lift (recent_versioned isoformat exclude repo_path wd o limit exts))
                 (fun trimmed =>
                    bind (alloc_list trimmed) (fun refs => store monotonic key refs)) st0
        end
    end.
Proof.
  rewrite get_recently_changed_files_eq. cbv zeta.
  unfold bind at 1. unfold read_clock at 1. unfold bind at 1. unfold cache_get at 1.
  cbv beta iota. simpl _recent_files_cache.
  destruct (cache_hit _ _); [reflexivity|].
  destruct (working_dir o); [reflexivity|].
  unfold bind at 1. unfold lift at 1.
  destruct (_discover_child_git_repos _ _ _) as [e|[|cr crs]]; reflexivity.
Qed.

End Primitives.

Section SortedFeed.
Import GitService.
Variable isoformat : Z -> string.
Variable monotonic : nat -> Z.

Lemma date_geb_total (a b : Entry) : date_geb a b = true \/ date_geb b a = true.
Proof. unfold date_geb. apply pystr_leb_total. Qed.

Lemma date_geb_trans (a b c : Entry) :
  date_geb a b = true -> date_geb b c = true -> date_geb a c = true.
Proof. unfold date_geb. intros H1 H2. eapply pystr_leb_trans; eassumption. Qed.

Lemma sort_by_date_sorted (results : list Entry) :
  StronglySorted (fun a b => PyStr.leb (date b) (date a) = true) (sort_by_date results).
Proof. apply (stable_sort_sorted date_geb date_geb_total date_geb_trans). Qed.

Lemma dates_of_fresh (h es : list Entry) :
  map (date_of (h ++ es)) (seq (length h) (length es)) = map date es.
Proof.
  revert h. induction es as [|e es IH]; intros h; simpl; [reflexivity|].
  f_equal.
  - unfold date_of. rewrite lookup_app_r by lia. now rewrite Nat.sub_diag.
  - specialize (IH (h ++ [e])). rewrite length_app in IH. simpl in IH.
    rewrite Nat.add_1_r, <- app_assoc in IH. exact IH.
Qed.

Lemma fresh_refs_valid (h es : list Entry) :
  valid_refs (h ++ es) (seq (length h) (length es)).
Proof.
  unfold valid_refs. rewrite Forall_forall. intros l Hl.
  apply in_seq in Hl. rewrite length_app. lia.
Qed.

(** Records that were sorted and trimmed before they entered the store
    form a well-ordered list of references. *)
Lemma entry_ok_fresh (h : list Entry) (limit : Z) (results : list Entry) :
  let trimmed := slice_to limit (sort_by_date results) in
  entry_ok (h ++ trimmed) limit (seq (length h) (length trimmed)).
Proof.
  intros trimmed. split; [apply fresh_refs_valid|]. split.
  - unfold date_sorted. rewrite dates_of_fresh. apply strongly_sorted_map.
    apply slice_to_strongly_sorted, sort_by_date_sorted.
  - intros Hl. rewrite length_seq. now apply slice_to_length.
Qed.

Lemma recent_versioned_inv (exclude : gset string) (repo_path wd : string) (o : Obs)
      (limit : Z) (extensions : list string) (trimmed : list Entry) :
  recent_versioned isoformat exclude repo_path wd o limit extensions = inr trimmed ->
  exists results,
    merged_results isoformat exclude repo_path wd o extensions = inr results
    /\ trimmed = slice_to limit (sort_by_date results).
Proof.
  unfold recent_versioned. destruct (merged_results _ _ _ _ _ _) as [e|results]; [discriminate|].
  intros H. injection H as <-. eauto.
Qed.

Lemma recent_plain_inv (exclude : gset string) (repo_path : string) (o : Obs)
      (limit : Z) (trimmed : list Entry) :
  recent_plain isoformat exclude repo_path o limit = inr trimmed ->
  exists untracked_files,
    _find_untracked_md_files isoformat exclude repo_path o = inr untracked_files
    /\ trimmed = slice_to limit
                   (sort_by_date
                      (filter (fun f => should_skip exclude (path f) = false) untracked_files)).
Proof.
  unfold recent_plain. destruct (_find_untracked_md_files _ _ _ _) as [e|u]; [discriminate|].
  intros H. injection H as <-. eauto.
Qed.

Lemma sort_refs_sorted (h : list Entry) (refs : list loc) :
  date_sorted h (sort_refs_by_date h refs).
Proof.
  unfold date_sorted, sort_refs_by_date. apply strongly_sorted_map.
  apply (stable_sort_sorted (fun a b => PyStr.leb (date_of h b) (date_of h a))).
  - intros a b. apply pystr_leb_total.
  - intros a b c H1 H2. eapply pystr_leb_trans; eassumption.
Qed.

Lemma sort_refs_valid (h : list Entry) (refs : list loc) :
  valid_refs h refs -> valid_refs h (sort_refs_by_date h refs).
Proof.
  unfold valid_refs, sort_refs_by_date. intros H.
  eapply Permutation_Forall; [|exact H]. symmetry. apply stable_sort_perm.
Qed.

Lemma entry_ok_merged (h : list Entry) (limit : Z) (refs : list loc) :
  valid_refs h refs -> entry_ok h limit (slice_to limit (sort_refs_by_date h refs)).
Proof.
  intros Hv. split; [apply slice_to_Forall, sort_refs_valid, Hv|]. split.
  - unfold date_sorted. destruct (slice_to_prefix limit (sort_refs_by_date h refs)) as [k ->].
    change (map (date_of h) (take k (sort_refs_by_date h refs)))
      with (date_of h <$> take k (sort_refs_by_date h refs)).
    rewrite fmap_take. apply take_strongly_sorted. apply sort_refs_sorted.
  - apply slice_to_length.
Qed.

End SortedFeed.

Section SoundCalls.
Import GitService.
Variable isoformat : Z -> string.
Variable monotonic : nat -> Z.

(** A call is sound for [limit] when it keeps the cache well-formed, lets
    the store only grow, and returns a well-ordered list. *)
Definition sound (limit : Z) (m : M (list loc)) : Prop :=
  forall st, cache_ok st ->
    cache_ok (snd (m st))
    /\ extends (heap st) (heap (snd (m st)))
    /\ forall refs, fst (m st) = inr refs -> entry_ok (heap (snd (m st))) limit refs.

Lemma discover_loop_elem {X : Type} (exclude : gset string) (entries acc : list (Obs * X)) :
  forall x, x ∈ fst (discover_loop exclude entries acc) -> x ∈ acc \/ x ∈ entries.
Proof.
  revert acc. induction entries as [|[eo y] entries IH]; intros acc x; simpl; [auto|].
  destruct (as_is_dir eo) as [e|[|]]; simpl; [auto | | ].
  - destruct (pruned exclude (as_name eo)).
    + intros H. apply IH in H as [H|H]; [auto | right; now apply list_elem_of_further].
    + destruct (as_git_exists eo) as [e|[|]]; simpl; [auto | | ].
      * intros H. apply IH in H as [H|H]; [|right; now apply list_elem_of_further].
        apply elem_of_app in H as [H|H]; [auto|].
        apply list_elem_of_singleton in H. subst. right. apply list_elem_of_here.
      * intros H. apply IH in H as [H|H]; [auto | right; now apply list_elem_of_further].
  - intros H. apply IH in H as [H|H]; [auto | right; now apply list_elem_of_further].
Qed.

Lemma discover_elem {X : Type} (exclude : gset string) (o : Obs)
      (entries child_repos : list (Obs * X)) :
  _discover_child_git_repos exclude o entries = inr child_repos ->
  forall x, x ∈ child_repos -> x ∈ entries.
Proof.
  unfold _discover_child_git_repos. intros H x Hx.
  destruct (discover_scandir o) as [[| |]|].
  - injection H as <-. inversion Hx.
  - discriminate.
  - discriminate.
  - pose proof (discover_loop_elem exclude entries [] x) as Hl.
    destruct (discover_loop exclude entries []) as [crs [[| |]|]]; simpl in *;
      try discriminate; injection H as <-;
      (destruct (Hl Hx) as [Hn|Hin]; [inversion Hn | exact Hin]).
Qed.

Lemma collect_children_sound (limit : Z) (child_repos : list (Obs * M (list loc))) :
  Forall (fun c => sound limit (snd c)) child_repos ->
  forall all_results st,
    cache_ok st -> valid_refs (heap st) all_results ->
    let r := collect_children child_repos all_results st in
    cache_ok (snd r)
    /\ extends (heap st) (heap (snd r))
    /\ forall refs, fst r = inr refs -> valid_refs (heap (snd r)) refs.
Proof.
  induction 1 as [|[co call] rest Hcall _ IH]; intros all_results st Hok Hv; simpl.
  - split; [exact Hok|]. split; [apply extends_refl|].
    intros refs H. injection H as <-. exact Hv.
  - unfold bind. destruct (Hcall st Hok) as (Hok1 & Hext1 & Hres1). simpl in *.
    destruct (call st) as [[e|child_results] st1]; simpl in *.
    { split; [exact Hok1|]. split; [exact Hext1|]. intros refs H. discriminate. }
    destruct (Hres1 child_results eq_refl) as (Hv1 & _).
    destruct (prefix_paths_spec (as_name co ++ "/") child_results st1)
      as (h2 & Heq & Hext2 & Hlen2).
    rewrite Heq.
    set (st2 := mkState (_recent_files_cache st1) h2 (ticks st1)).
    assert (Hok2 : cache_ok st2) by (eapply (cache_ok_extends st1 st2); eauto).
    assert (Hv2 : valid_refs (heap st2) (all_results ++ child_results)).
    { apply Forall_app. split.
      - eapply valid_refs_extends; [|exact Hv]. eapply extends_trans; eassumption.
      - eapply valid_refs_extends; [exact Hext2 | exact Hv1]. }
    destruct (IH (all_results ++ child_results) st2 Hok2 Hv2) as (Hok3 & Hext3 & Hres3).
    split; [exact Hok3|]. split; [|exact Hres3].
    eapply extends_trans; [exact Hext1|]. eapply extends_trans; [exact Hext2 | exact Hext3].
Qed.

Lemma container_sound (exclude : gset string) (repo_path : string) (o : Obs)
      (child_repos : list (Obs * M (list loc))) (limit : Z) (extensions : list string) :
  Forall (fun c => sound limit (snd c)) child_repos ->
  sound limit (_get_recent_files_from_child_repos isoformat exclude repo_path o
                 child_repos limit extensions).
Proof.
  intros Hall st Hok. unfold _get_recent_files_from_child_repos, bind.
  destruct (collect_children_sound limit child_repos Hall [] st Hok (Forall_nil _))
    as (Hok1 & Hext1 & Hres1).
  destruct (collect_children child_repos [] st) as [[e|from_children] st1]; simpl in *.
  { split; [exact Hok1|]. split; [exact Hext1|]. intros refs H. discriminate. }
  specialize (Hres1 from_children eq_refl). unfold lift.
  destruct (container_files _ _ _ _ _ _) as [e|found]; simpl.
  { split; [exact Hok1|]. split; [exact Hext1|]. intros refs H. discriminate. }
  rewrite alloc_list_eq. simpl. unfold read_heap, ret. simpl.
  assert (Hext2 : extends (heap st1) (heap st1 ++ found)) by apply extends_app.
  split.
  { eapply (cache_ok_extends st1); [reflexivity | exact Hext2 | exact Hok1]. }
  split; [eapply extends_trans; eassumption|].
  intros refs H. injection H as <-. apply entry_ok_merged.
  apply Forall_app. split.
  - eapply valid_refs_extends; eassumption.
  - apply fresh_refs_valid.
Qed.

End SoundCalls.

Section SortedFeedMain.
Import GitService.
Variable isoformat : Z -> string.
Variable monotonic : nat -> Z.

Lemma cache_hit_lookup (cached : option (Z * list loc)) (now : Z) (data : list loc) :
  cache_hit cached now = Some data -> exists ts, cached = Some (ts, data).
Proof.
  unfold cache_hit. destruct cached as [[ts d]|]; [|discriminate].
  destruct (now - ts <? _RECENT_FILES_TTL)%Z; [|discriminate].
  intros H. injection H as <-. eauto.
Qed.

Lemma leaf_sound (key_root : string) (limit : Z) (exts : list string)
      (r : result (list Entry)) (st : State) :
  (forall trimmed, r = inr trimmed ->
     exists results, trimmed = slice_to limit (sort_by_date results)) ->
  cache_ok st ->
  let m := bind (lift r) (fun trimmed =>
           bind (alloc_list trimmed) (fun refs =>
           store monotonic (key_root, limit, exts) refs)) in
  cache_ok (snd (m st))
  /\ extends (heap st) (heap (snd (m st)))
  /\ forall refs, fst (m st) = inr refs -> entry_ok (heap (snd (m st))) limit refs.
Proof.
  intros Hr Hok m. subst m. unfold bind, lift. destruct r as [e|trimmed]; simpl.
  { split; [exact Hok|]. split; [apply extends_refl|]. intros refs H. discriminate. }
  destruct (Hr trimmed eq_refl) as (results & ->).
  rewrite alloc_list_eq. simpl.
  pose proof (entry_ok_fresh (heap st) limit results) as Hfresh. simpl in Hfresh.
  split.
  - apply (cache_ok_store _ _ _ _ _ _ _ (ticks st)); [|exact Hfresh].
    eapply (cache_ok_extends st); [reflexivity | apply extends_app | exact Hok].
  - split; [apply extends_app|]. intros refs H. injection H as <-. exact Hfresh.
Qed.

(** Every call of the entry point is sound, at every depth. *)
Lemma get_recently_changed_files_sound (c : Ctx) :
  forall exclude repo_path limit extensions,
    sound limit (get_recently_changed_files isoformat monotonic exclude repo_path c
                   limit extensions).
Proof.
  induction c as [o children IH] using Ctx_forall_ind.
  intros exclude repo_path limit extensions st Hok.
  rewrite get_recently_changed_files_run. cbv zeta.
  set (exts := default_extensions extensions).
  set (key := (repo_path, limit, exts)).
  set (st0 := mkState (_recent_files_cache st) (heap st) (S (ticks st))).
  assert (Hok0 : cache_ok st0)
    by (eapply (cache_ok_extends st st0); [reflexivity | apply extends_refl | exact Hok]).
  destruct (cache_hit _ _) as [data|] eqn:Hhit.
  - simpl. split; [exact Hok0|]. split; [apply extends_refl|].
    intros refs H. injection H as <-.
    apply cache_hit_lookup in Hhit as [ts Hl]. eapply (Hok0 repo_path limit exts). exact Hl.
  - destruct (working_dir o) as [wd|].
    + apply (leaf_sound repo_path limit exts _ st0); [|exact Hok0].
      intros trimmed H. apply recent_versioned_inv in H as (results & _ & ->). eauto.
    + destruct (_discover_child_git_repos exclude o _) as [e|child_repos] eqn:Hd.
      { simpl. split; [exact Hok0|]. split; [apply extends_refl|]. intros refs H. discriminate. }
      assert (Hall : Forall (fun c => sound limit (snd c)) child_repos).
      { rewrite Forall_forall. intros x Hx. apply list_elem_of_In in Hx.
        eapply discover_elem in Hx; [|exact Hd].
        apply list_elem_of_In, in_map_iff in Hx as (ch & <- & Hch). simpl.
        rewrite Forall_forall in IH. apply IH, Hch. }
      destruct child_repos as [|cr crs].
      * apply (leaf_sound repo_path limit exts _ st0); [|exact Hok0].
        intros trimmed H. apply recent_plain_inv in H as (u & _ & ->). eauto.
      * unfold bind.
        destruct (container_sound isoformat exclude repo_path o (cr :: crs) limit exts Hall
                                  st0 Hok0) as (Hok1 & Hext1 & Hres1).
        destruct (_get_recent_files_from_child_repos _ _ _ _ _ _ _ st0) as [[e|merged] st1];
          simpl in *.
        { split; [exact Hok1|]. split; [exact Hext1|]. intros refs H. discriminate. }
        specialize (Hres1 merged eq_refl). destruct st1 as [c1 h1 n1]. simpl in *.
        split; [apply (cache_ok_store _ _ _ _ _ _ _ n1); assumption|].
        split; [exact Hext1|].
        intros refs H. injection H as <-. exact Hres1.
Qed.

Lemma reachable_cache_ok (st : State) : reachable isoformat monotonic st -> cache_ok st.
Proof.
  induction 1 as [|st exclude repo_path c limit extensions _ IH|st _ IH].
  - intros root limit exts ts refs H. simpl in H. rewrite lookup_empty in H. discriminate.
  - apply (get_recently_changed_files_sound c exclude repo_path limit extensions st IH).
  - intros root limit exts ts refs H. simpl in H. rewrite lookup_empty in H. discriminate.
Qed.

End SortedFeedMain.

Lemma date_of_lookup (h : list GitService.Entry) (l : GitService.loc)
      (e : GitService.Entry) :
  h !! l = Some e -> GitService.date_of h l = GitService.date e.
Proof. unfold GitService.date_of. now intros ->. Qed.

Lemma strongly_sorted_lookup {A : Type} (R : A -> A -> Prop) (l : list A)
      (i j : nat) (a b : A) :
  StronglySorted R l -> (i < j)%nat -> l !! i = Some a -> l !! j = Some b -> R a b.
Proof.
  intros Hs. revert i j. induction Hs as [|x l _ IH Hall]; intros i j Hij Hi Hj.
  - rewrite lookup_nil in Hi. discriminate.
  - destruct j as [|j]; [lia|]. destruct i as [|i]; simpl in *.
    + injection Hi as <-. rewrite Forall_forall in Hall. apply Hall.
      apply list_elem_of_In. eapply list_elem_of_lookup_2. exact Hj.
    + apply (IH i j); [lia | assumption | assumption].
Qed.

(** C1 (as stated, refuted).  The claim bounds the length of every result
    by [limit].  With [limit = -1] the slice [results[:limit]] drops the
    last record only: for the repository with the two files [a.md] and
    [b.md] the call returns one record, which is more than [-1]. *)
Lemma C1_counterexample :
  exists refs st',
    GitService.get_recently_changed_files Scenarios.isoformat Scenarios.monotonic
      ∅ "/r/c" Scenarios.child (-1) None GitService.initial_state = (inr refs, st')
    /\ length refs = 1%nat
    /\ ~ (Z.of_nat (length refs) <= -1)%Z.
Proof.
  eexists. eexists. split; [vm_compute; reflexivity|]. split; [reflexivity|].
  simpl. lia.
Qed.

(** C1 (amended).  In every state of the process, a call of
    [get_recently_changed_files] that returns yields records whose dates
    never increase: for every pair of returned records [a] before [b], the
    date of [a] is greater than or equal to the date of [b]; and when
    [limit] is not negative, the returned sequence has at most [limit]
    records. *)
Theorem C1_sorted_and_bounded
  (isoformat : Z -> string) (monotonic : nat -> Z)
  (exclude : gset string) (repo_path : string) (c : GitService.Ctx)
  (limit : Z) (extensions : option (list string))
  (st st' : GitService.State) (refs : list GitService.loc) :
  GitService.reachable isoformat monotonic st ->
  GitService.get_recently_changed_files isoformat monotonic exclude repo_path c
    limit extensions st = (inr refs, st') ->
  ((0 <= limit)%Z -> (Z.of_nat (length refs) <= limit)%Z)
  /\ (forall i j la lb,
        (i < j)%nat -> refs !! i = Some la -> refs !! j = Some lb ->
        exists a b,
          GitService.heap st' !! la = Some a
          /\ GitService.heap st' !! lb = Some b
          /\ PyStr.leb (GitService.date b) (GitService.date a) = true).
Proof.
  intros Hreach Hrun.
  pose proof (reachable_cache_ok isoformat monotonic st Hreach) as Hok.
  destruct (get_recently_changed_files_sound isoformat monotonic c exclude repo_path
              limit extensions st Hok) as (_ & _ & Hres).
  rewrite Hrun in Hres. simpl in Hres.
  destruct (Hres refs eq_refl) as (Hv & Hs & Hl).
  split; [exact Hl|].
  intros i j la lb Hij Hi Hj.
  unfold GitService.valid_refs in Hv. rewrite Forall_forall in Hv.
  assert (Hla : (la < length (GitService.heap st'))%nat)
    by (apply Hv, list_elem_of_In; eapply list_elem_of_lookup_2; exact Hi).
  assert (Hlb : (lb < length (GitService.heap st'))%nat)
    by (apply Hv, list_elem_of_In; eapply list_elem_of_lookup_2; exact Hj).
  apply lookup_lt_is_Some in Hla as [a Ha]. apply lookup_lt_is_Some in Hlb as [b Hb].
  exists a, b. split; [exact Ha|]. split; [exact Hb|].
  unfold GitService.date_sorted in Hs.
  pose proof (strongly_sorted_lookup _ _ i j
                (GitService.date_of (GitService.heap st') la)
                (GitService.date_of (GitService.heap st') lb) Hs Hij) as H.
  rewrite (date_of_lookup _ _ _ Ha), (date_of_lookup _ _ _ Hb) in H. apply H.
  - change (map ?f ?l) with (f <$> l). rewrite list_lookup_fmap, Hi. simpl.
    now rewrite (date_of_lookup _ _ _ Ha).
  - change (map ?f ?l) with (f <$> l). rewrite list_lookup_fmap, Hj. simpl.
    now rewrite (date_of_lookup _ _ _ Hb).
Qed.

Lemma C1_sorted_and_bounded_witness :
  GitService.reachable Scenarios.isoformat Scenarios.monotonic GitService.initial_state
  /\ exists refs st',
       GitService.get_recently_changed_files Scenarios.isoformat Scenarios.monotonic
         ∅ "/r/c" Scenarios.child 30 None GitService.initial_state = (inr refs, st')
       /\ ((0 <= 30)%Z -> (Z.of_nat (length refs) <= 30)%Z).
Proof.
  split; [constructor|].
  eexists. eexists. split; [vm_compute; reflexivity|].
  eapply (C1_sorted_and_bounded Scenarios.isoformat Scenarios.monotonic
            ∅ "/r/c" Scenarios.child 30 None GitService.initial_state).
  - constructor.
  - vm_compute. reflexivity.
Defined.

(** ** The cache *)

Section CacheFacts.
Import GitService.
Variable isoformat : Z -> string.
Variable monotonic : nat -> Z.

(** A hit within the TTL hands out the stored list itself: nothing is
    computed, the cache and the store are left as they are. *)
Lemma cache_hit_returns_stored (exclude : gset string) (repo_path : string) (c : Ctx)
      (limit : Z) (extensions : option (list string)) (st : State)
      (ts : Z) (data : list loc) :
  _recent_files_cache st !! ((repo_path, limit, default_extensions extensions) : cache_key)
    = Some (ts, data) ->
  (monotonic (ticks st) - ts < _RECENT_FILES_TTL)%Z ->
  get_recently_changed_files isoformat monotonic exclude repo_path c limit extensions st
  = (inr data, mkState (_recent_files_cache st) (heap st) (S (ticks st))).
Proof.
  intros Hl Ht. destruct c as [o children].
  rewrite get_recently_changed_files_run. cbv zeta. rewrite Hl. unfold cache_hit.
  destruct (Z.ltb_spec (monotonic (ticks st) - ts) _RECENT_FILES_TTL); [reflexivity | lia].
Qed.

End CacheFacts.

(** C6 (the code departs from the claim).  The repository [/r/c] is asked
    directly, then the directory [/r] above it, then [/r/c] again, all
    within the TTL and without a flush.  The third call is served from the
    cache: it returns the very list of the first call and computes nothing.
    But the call on [/r] has renamed, in place, the records of that list,
    so the two calls on [/r/c] do not report the same paths. *)
Theorem C6_cached_records_renamed :
  let call := GitService.get_recently_changed_files
                Scenarios.isoformat Scenarios.monotonic ∅ in
  let r1 := call "/r/c" Scenarios.child 30%Z None GitService.initial_state in
  let r2 := call "/r" Scenarios.root 30%Z None (snd r1) in
  let r3 := call "/r/c" Scenarios.child 30%Z None (snd r2) in
  Scenarios.returned_paths r1 = Some ["b.md"; "a.md"]
  /\ GitService._recent_files_cache (snd r2) !! ("/r/c", 30%Z, [".md"])
     = Some (100%Z, [0%nat; 1%nat])
  /\ (Scenarios.monotonic (GitService.ticks (snd r2)) - 100
      < GitService._RECENT_FILES_TTL)%Z
  /\ fst r3 = fst r1
  /\ GitService.heap (snd r3) = GitService.heap (snd r2)
  /\ Scenarios.returned_paths r3 = Some ["c/b.md"; "c/a.md"].
Proof.
  vm_compute. repeat split; reflexivity.
Qed.

(** ** Calls never raise *)

Section NoRaise.
Import GitService.
Variable isoformat : Z -> string.

Lemma only_OSError_inv {A : Type} (r : result A) (e : exn) :
  raises_only_OSError r -> r = inl e -> e = OSError.
Proof. intros H ->. exact H. Qed.






End NoRaise.

Section NoRaiseWalks.
Import GitService.
Variable isoformat : Z -> string.



(** Where a walk goes: every directory it reaches is [below] its top. *)
Lemma path_join_assoc (a b c : string) :
  path_join (path_join a b) c = path_join a (path_join b c).
Proof.
  unfold path_join. rewrite !string_app_assoc. reflexivity.
Qed.

Lemma below_join (top dirpath d : string) :
  below top dirpath -> below top (path_join dirpath d).
Proof.
  intros [->|[x ->]]; right; [eauto|]. exists (path_join x d). apply path_join_assoc.
Qed.

Lemma below_trans (a b c : string) : below a b -> below b c -> below a c.
Proof.
  intros Hab [->|[x ->]]; [exact Hab|]. now apply below_join.
Qed.

Lemma Tree_forall_ind (P : Tree -> Prop) :
  (forall fs ds, Forall (fun d => P (snd d)) ds -> P (Node fs ds)) -> forall t, P t.
Proof.
  intros H. fix IH 1. intros [fs ds]. apply H.
  induction ds as [|[d sub] ds IHds]; constructor; [apply IH | exact IHds].
Qed.

(** The walk of a node, with the loop over its sub-directories written as
    a concatenation. *)
Lemma walk_eq (exclude : gset string) (dirpath : string) (fs : list string)
      (ds : list (string * Tree)) :
  walk exclude dirpath (Node fs ds)
  = (dirpath, fs)
    :: concat (map (fun d => if pruned exclude (fst d) then []
                             else walk exclude (path_join dirpath (fst d)) (snd d)) ds).
Proof.
  simpl. f_equal. induction ds as [|[d sub] ds IH]; simpl; [reflexivity|].
  destruct (pruned exclude d); simpl; now rewrite IH.
Qed.

Lemma walk_below (exclude : gset string) (t : Tree) :
  forall dirpath, Forall (fun step => below dirpath (fst step)) (walk exclude dirpath t).
Proof.
  induction t as [fs ds IH] using Tree_forall_ind. intros dirpath.
  rewrite walk_eq. constructor; [now left|].
  induction IH as [|[d sub] ds Hd _ IHds]; simpl; [constructor|].
  apply Forall_app. split; [|exact IHds].
  destruct (pruned exclude d); [constructor|]. simpl in *.
  eapply Forall_impl; [|apply Hd]. intros step Hs. simpl in Hs.
  eapply below_trans; [|exact Hs]. right. eauto.
Qed.





End NoRaiseWalks.

Section NoRaiseContainer.
Import GitService.
Variable isoformat : Z -> string.
Variable monotonic : nat -> Z.








End NoRaiseContainer.

Section NoRaiseMain.
Import GitService.
Variable isoformat : Z -> string.
Variable monotonic : nat -> Z.



End NoRaiseMain.




(** ** Paths found by a walk are pairwise distinct *)

Section TreePaths.
Import GitService.

Lemma contains_char_app (c : ascii) (a b : string) :
  PyStr.contains_char c (a ++ b)%string
  = PyStr.contains_char c a || PyStr.contains_char c b.
Proof.
  induction a as [|x a IH]; simpl; [reflexivity|].
  rewrite IH. now rewrite orb_assoc.
Qed.

Lemma path_join_has_slash (a b : string) : ~ no_slash (path_join a b).
Proof.
  unfold no_slash, path_join. rewrite contains_char_app. simpl.
  rewrite orb_true_r. discriminate.
Qed.

Lemma path_join_inj_r (a x y : string) : path_join a x = path_join a y -> x = y.
Proof.
  unfold path_join. intros H. apply (inj (String.append a)) in H.
  now injection H.
Qed.

(** Two joined paths with slash-free heads agree on their heads. *)
Lemma path_join_head (a b x y : string) :
  no_slash a -> no_slash b -> path_join a x = path_join b y -> a = b.
Proof.
  unfold no_slash, path_join. revert b.
  induction a as [|c a IH]; intros [|d b] Ha Hb H; simpl in *.
  - reflexivity.
  - injection H as <- _. rewrite Ascii.eqb_refl in Hb. discriminate.
  - injection H as -> _. rewrite Ascii.eqb_refl in Ha. discriminate.
  - injection H as <- H. f_equal.
    apply orb_false_iff in Ha as [_ Ha]. apply orb_false_iff in Hb as [_ Hb].
    now apply IH.
Qed.

Lemma tree_paths_eq (exclude : gset string) (fs : list string) (ds : list (string * Tree)) :
  tree_paths exclude (Node fs ds)
  = fs ++ concat (map (fun d => if pruned exclude (fst d) then []
                                else map (path_join (fst d)) (tree_paths exclude (snd d)))
                      ds).
Proof.
  simpl. f_equal. induction ds as [|[d sub] ds IH]; simpl; [reflexivity|].
  now rewrite IH.
Qed.

Lemma NoDup_map_path_join (a : string) (xs : list string) :
  NoDup xs -> NoDup (map (path_join a) xs).
Proof.
  intros H. change (NoDup (path_join a <$> xs)).
  apply NoDup_fmap_2; [|exact H]. intros x y. apply path_join_inj_r.
Qed.

Lemma tree_paths_NoDup (exclude : gset string) (t : Tree) :
  wf_tree t -> NoDup (tree_paths exclude t).
Proof.
  induction t as [fs ds IH] using Tree_forall_ind. intros Hwf.
  inversion Hwf as [fs' ds' Hfs Hds Hnf Hnd Hsub]; subst.
  rewrite tree_paths_eq. apply list.NoDup_app. split; [exact Hfs|]. split.
  - intros x Hx Hin. apply list_elem_of_In, in_concat in Hin as (blk & Hblk & Hxb).
    apply in_map_iff in Hblk as ([d sub] & <- & _). simpl in Hxb.
    destruct (pruned exclude d); [contradiction|].
    apply in_map_iff in Hxb as (y & <- & _).
    rewrite Forall_forall in Hnf. apply (path_join_has_slash d y).
    apply Hnf. now apply list_elem_of_In.
  - clear Hfs Hnf Hwf.
    induction ds as [|[d sub] ds IHds]; simpl; [constructor|].
    inversion IH as [|? ? Hd IH']; subst. inversion Hsub as [|? ? Hwd Hsub']; subst.
    inversion Hnd as [|? ? Hnd1 Hnd']; subst. simpl in *.
    apply list.NoDup_cons in Hds as [Hnotin Hds'].
    apply list.NoDup_app. split; [|split; [|now apply IHds]].
    + destruct (pruned exclude d); [constructor|]. apply NoDup_map_path_join. auto.
    + intros x Hx Hin. destruct (pruned exclude d); [now apply elem_of_nil in Hx|].
      apply list_elem_of_In, in_map_iff in Hx as (y & <- & _).
      apply list_elem_of_In, in_concat in Hin as (blk & Hblk & Hxb).
      apply in_map_iff in Hblk as ([d2 sub2] & <- & Hd2). simpl in Hxb.
      destruct (pruned exclude d2); [contradiction|].
      apply in_map_iff in Hxb as (z & Hz & _).
      rewrite Forall_forall in Hnd'.
      assert (d2 = d) by (eapply path_join_head; [apply (Hnd' _ Hd2) | exact Hnd1 | exact Hz]).
      subst d2. apply Hnotin. apply list_elem_of_In, in_map_iff.
      exists (d, sub2). split; [reflexivity | exact Hd2].
Qed.

End TreePaths.

Section WalkResults.
Import GitService.
Variable isoformat : Z -> string.

(** The full paths of the files that a sequence of walk steps visits. *)
Definition walk_fulls (steps : list (string * list string)) : list string :=
  concat (map (fun step => map (path_join (fst step)) (snd step)) steps).

Lemma walk_fulls_app (s1 s2 : list (string * list string)) :
  walk_fulls (s1 ++ s2) = walk_fulls s1 ++ walk_fulls s2.
Proof. unfold walk_fulls. now rewrite map_app, concat_app. Qed.

Lemma walk_fulls_tree (exclude : gset string) (t : Tree) :
  forall dirpath,
    walk_fulls (walk exclude dirpath t) = map (path_join dirpath) (tree_paths exclude t).
Proof.
  induction t as [fs ds IH] using Tree_forall_ind. intros dirpath.
  rewrite walk_eq, tree_paths_eq, map_app.
  change (walk_fulls ((dirpath, fs) :: ?l)) with (map (path_join dirpath) fs ++ walk_fulls l).
  f_equal.
  induction IH as [|[d sub] ds Hd _ IHds]; simpl; [reflexivity|].
  rewrite walk_fulls_app, map_app, IHds. f_equal.
  destruct (pruned exclude d); [reflexivity|]. simpl in Hd. rewrite Hd.
  rewrite map_map. apply map_ext. intros x. apply path_join_assoc.
Qed.

(** An entry reported for a file found where it was looked for. *)
Definition found_at (o : Obs) (root : string) (e : Entry) : Prop :=
  exists full st,
    stat o full = inr st /\ e = untracked_entry isoformat (relpath full root) st.

Lemma walk_files_spec (exts : list string) (tracked : gset string) (root : string)
      (o : Obs) (dirpath : string) (fnames : list string) :
  forall found,
    exists added,
      fst (walk_files isoformat exts tracked root o dirpath fnames found) = found ++ added
      /\ map path added `sublist_of`
           map (fun f => relpath (path_join dirpath f) root) fnames
      /\ Forall (found_at o root) added
      /\ Forall (fun e => path e ∉ tracked) added.
Proof.
  induction fnames as [|f rest IH]; intros found; simpl.
  - exists []. rewrite app_nil_r. repeat split; constructor.
  - destruct (negb (_matches_ext exts f)).
    { destruct (IH found) as (added & H1 & H2 & H3 & H4). exists added.
      repeat split; try assumption. now apply sublist_cons. }
    destruct (bool_decide (relpath (path_join dirpath f) root ∈ tracked)) eqn:Etr.
    { destruct (IH found) as (added & H1 & H2 & H3 & H4). exists added.
      repeat split; try assumption. now apply sublist_cons. }
    destruct (stat o (path_join dirpath f)) as [[| |]|st] eqn:Est; simpl.
    + destruct (IH found) as (added & H1 & H2 & H3 & H4). exists added.
      repeat split; try assumption. now apply sublist_cons.
    + exists []. rewrite app_nil_r. repeat split; try constructor. apply sublist_nil_l.
    + exists []. rewrite app_nil_r. repeat split; try constructor. apply sublist_nil_l.
    + destruct (IH (found ++ [untracked_entry isoformat
                                (relpath (path_join dirpath f) root) st]))
        as (added & H1 & H2 & H3 & H4).
      exists (untracked_entry isoformat (relpath (path_join dirpath f) root) st :: added).
      rewrite H1, <- app_assoc. repeat split.
      * simpl. now apply sublist_skip.
      * constructor; [|exact H3]. exists (path_join dirpath f), st. auto.
      * constructor; [|exact H4]. simpl. now apply bool_decide_eq_false in Etr.
Qed.

Lemma walk_loop_spec (exts : list string) (tracked : gset string) (root : string)
      (o : Obs) (steps : list (string * list string)) :
  forall found,
    exists added,
      fst (walk_loop isoformat exts tracked root o steps found) = found ++ added
      /\ map path added `sublist_of` map (fun full => relpath full root) (walk_fulls steps)
      /\ Forall (found_at o root) added
      /\ Forall (fun e => path e ∉ tracked) added.
Proof.
  induction steps as [|[dirpath fnames] steps IH]; intros found; simpl.
  - exists []. rewrite app_nil_r. repeat split; constructor.
  - destruct (walk_files_spec exts tracked root o dirpath fnames found)
      as (a1 & H1 & H2 & H3 & H4).
    destruct (walk_files isoformat exts tracked root o dirpath fnames found) as [f1 x1].
    simpl in H1. subst f1.
    change (walk_fulls ((dirpath, fnames) :: steps))
      with (map (path_join dirpath) fnames ++ walk_fulls steps).
    rewrite map_app, map_map.
    destruct x1 as [e|].
    + exists a1. simpl. repeat split; try assumption.
      now apply sublist_inserts_r.
    + destruct (IH (found ++ a1)) as (a2 & G1 & G2 & G3 & G4).
      exists (a1 ++ a2). rewrite G1, <- app_assoc. repeat split.
      * rewrite map_app. now apply sublist_app.
      * now apply Forall_app.
      * now apply Forall_app.
Qed.

End WalkResults.

Section TopLevel.
Import GitService.
Variable isoformat : Z -> string.

Lemma relpath_join (root x : string) : relpath (path_join root x) root = x.
Proof. unfold relpath. now rewrite relative_to_join. Qed.

(** An entry reported for a file listed in the root itself. *)
Definition listed_at (entries : list DirEntry) (e : Entry) : Prop :=
  exists d st,
    In d entries /\ entry_stat d = inr st /\ e = untracked_entry isoformat (name d) st.

Lemma listed_at_cons (d : DirEntry) (entries : list DirEntry) (e : Entry) :
  listed_at entries e -> listed_at (d :: entries) e.
Proof. intros (d' & st & Hin & H). exists d', st. split; [now right | exact H]. Qed.

Lemma scan_top_spec (exclude : gset string) (exts : list string) (tracked : gset string)
      (entries : list DirEntry) :
  forall top_dirs top_untracked,
    exists ds us,
      fst (scan_top isoformat exclude exts tracked entries top_dirs top_untracked)
      = (top_dirs ++ ds, top_untracked ++ us)
      /\ ds `sublist_of` entries
      /\ map path us `sublist_of` map name entries
      /\ Forall (listed_at entries) us
      /\ Forall (fun e => path e ∉ tracked) us.
Proof.
  induction entries as [|d entries IH]; intros top_dirs top_untracked; simpl.
  - exists [], []. rewrite !app_nil_r. repeat split; constructor.
  - assert (Hskip : forall tds tus,
               exists ds us,
                 fst (scan_top isoformat exclude exts tracked entries tds tus)
                 = (tds ++ ds, tus ++ us)
                 /\ ds `sublist_of` d :: entries
                 /\ map path us `sublist_of` name d :: map name entries
                 /\ Forall (listed_at (d :: entries)) us
                 /\ Forall (fun e => path e ∉ tracked) us).
    { intros tds tus. destruct (IH tds tus) as (ds & us & H1 & H2 & H3 & H4 & H5).
      exists ds, us. repeat split; try assumption; try (now apply sublist_cons).
      eapply Forall_impl; [|exact H4]. intros e. apply listed_at_cons. }
    assert (Hstop : exists ds us,
               (top_dirs, top_untracked) = (top_dirs ++ ds, top_untracked ++ us)
               /\ ds `sublist_of` d :: entries
               /\ map path us `sublist_of` name d :: map name entries
               /\ Forall (listed_at (d :: entries)) us
               /\ Forall (fun e => path e ∉ tracked) us).
    { exists [], []. rewrite !app_nil_r. repeat split; try constructor; apply sublist_nil_l. }
    destruct (is_dir d) as [e1|[|]]; simpl; [exact Hstop | | ].
    + destruct (pruned exclude (name d)); [apply Hskip|].
      destruct (IH (top_dirs ++ [d]) top_untracked) as (ds & us & H1 & H2 & H3 & H4 & H5).
      exists (d :: ds), us. rewrite H1, <- app_assoc.
      repeat split; try assumption.
      * now apply sublist_skip.
      * now apply sublist_cons.
      * eapply Forall_impl; [|exact H4]. intros e. apply listed_at_cons.
    + destruct (is_file d) as [e2|isf]; simpl; [exact Hstop|].
      destruct (isf && _matches_ext exts (name d)); [|apply Hskip].
      destruct (bool_decide (name d ∈ tracked)) eqn:Etr; [apply Hskip|].
      destruct (entry_stat d) as [[| |]|st] eqn:Est; simpl;
        [apply Hskip | exact Hstop | exact Hstop |].
      destruct (IH top_dirs (top_untracked ++ [untracked_entry isoformat (name d) st]))
        as (ds & us & H1 & H2 & H3 & H4 & H5).
      exists ds, (untracked_entry isoformat (name d) st :: us). rewrite H1, <- app_assoc.
      repeat split.
      * now apply sublist_cons.
      * simpl. now apply sublist_skip.
      * constructor.
        -- exists d, st. split; [now left | auto].
        -- eapply Forall_impl; [|exact H4]. intros e. apply listed_at_cons.
      * constructor; [|exact H5]. simpl. now apply bool_decide_eq_false in Etr.
Qed.

End TopLevel.

Section Candidates.
Import GitService.
Variable isoformat : Z -> string.

Lemma sublist_concat_map {A B : Type} (f g : A -> list B) (l1 l2 : list A) :
  l1 `sublist_of` l2 ->
  (forall x, In x l1 -> f x `sublist_of` g x) ->
  concat (map f l1) `sublist_of` concat (map g l2).
Proof.
  induction 1 as [|x l1 l2 _ IH|x l1 l2 _ IH]; intros Hfg; simpl.
  - constructor.
  - apply sublist_app; [apply Hfg; now left|]. apply IH. intros y Hy. apply Hfg. now right.
  - apply sublist_inserts_l. now apply IH.
Qed.

(** The root of a repository seen as one tree: its files and its
    sub-directories. *)
Definition root_tree (entries : list DirEntry) : Tree :=
  Node (map name entries) (map (fun d => (name d, tree d)) entries).

Lemma root_tree_wf (entries : list DirEntry) : wf_entries entries -> wf_tree (root_tree entries).
Proof.
  intros [Hnd Hall]. unfold root_tree. constructor.
  - exact Hnd.
  - now rewrite map_map.
  - rewrite Forall_forall in *. intros x Hx. apply in_map_iff in Hx as (d & <- & Hd).
    now apply Hall.
  - rewrite Forall_forall in *. intros x Hx. apply in_map_iff in Hx as (d & <- & Hd).
    now apply Hall.
  - rewrite Forall_forall in *. intros x Hx. apply in_map_iff in Hx as (d & <- & Hd).
    now apply Hall.
Qed.

Lemma root_tree_paths (exclude : gset string) (entries : list DirEntry) :
  tree_paths exclude (root_tree entries)
  = map name entries
    ++ concat (map (fun d => if pruned exclude (name d) then []
                             else map (path_join (name d)) (tree_paths exclude (tree d)))
                   entries).
Proof. unfold root_tree. rewrite tree_paths_eq, map_map. reflexivity. Qed.

Lemma scan_top_unpruned (exclude : gset string) (exts : list string) (tracked : gset string)
      (entries : list DirEntry) :
  forall top_dirs top_untracked,
    Forall (fun d => pruned exclude (name d) = false) top_dirs ->
    Forall (fun d => pruned exclude (name d) = false)
           (fst (fst (scan_top isoformat exclude exts tracked entries top_dirs
                               top_untracked))).
Proof.
  induction entries as [|d entries IH]; intros top_dirs top_untracked Hacc; simpl.
  - exact Hacc.
  - destruct (is_dir d) as [e1|[|]]; simpl; [exact Hacc | | ].
    + destruct (pruned exclude (name d)) eqn:Ep; [now apply IH|].
      apply IH. apply Forall_app. split; [exact Hacc|]. now constructor.
    + destruct (is_file d) as [e2|isf]; simpl; [exact Hacc|].
      destruct (isf && _matches_ext exts (name d)); [|now apply IH].
      destruct (bool_decide (name d ∈ tracked)); [now apply IH|].
      destruct (entry_stat d) as [[| |]|st]; simpl; try exact Hacc; now apply IH.
Qed.

(** What one worker returns. *)
Lemma walk_subdir_spec (exclude : gset string) (exts : list string) (tracked : gset string)
      (root : string) (o : Obs) (d : DirEntry) :
  let found := suppress [] (_walk_subdir isoformat exclude exts tracked root o d) in
  map path found `sublist_of` map (path_join (name d)) (tree_paths exclude (tree d))
  /\ Forall (found_at isoformat o root) found
  /\ Forall (fun e => path e ∉ tracked) found.
Proof.
  unfold _walk_subdir.
  destruct (walk_loop_spec isoformat exts tracked root o
              (walk exclude (path_join root (name d)) (tree d)) [])
    as (added & H1 & H2 & H3 & H4).
  destruct (walk_loop isoformat exts tracked root o _ []) as [found [e|]]; simpl in *.
  - repeat split; try constructor. apply sublist_nil_l.
  - subst found. repeat split; try assumption.
    assert (E : map (fun full => relpath full root)
                    (map (path_join (path_join root (name d)))
                         (tree_paths exclude (tree d)))
                = map (path_join (name d)) (tree_paths exclude (tree d))).
    { rewrite map_map. apply map_ext. intros x. now rewrite path_join_assoc, relpath_join. }
    rewrite walk_fulls_tree, E in H2. exact H2.
Qed.

End Candidates.

Section MergeLoops.
Import GitService.
Variable isoformat : Z -> string.

(** A loop of the merge adds records for paths not seen before, one per
    path, and remembers their paths. *)
Definition extended_by (results : list Entry) (seen : gset string) (added : list Entry)
           (results' : list Entry) (seen' : gset string) : Prop :=
  results' = results ++ added
  /\ seen' = list_to_set (map path added) ∪ seen
  /\ NoDup (map path added)
  /\ Forall (fun e => path e ∉ seen) added.

Lemma extended_by_nil (results : list Entry) (seen : gset string) :
  extended_by results seen [] results seen.
Proof.
  split; [now rewrite app_nil_r|]. split; [set_solver|]. split; constructor.
Qed.

Lemma extended_by_cons (results : list Entry) (seen : gset string) (e : Entry)
      (added results' : list Entry) (seen' : gset string) :
  path e ∉ seen ->
  extended_by (results ++ [e]) ({[ path e ]} ∪ seen) added results' seen' ->
  extended_by results seen (e :: added) results' seen'.
Proof.
  intros Hne (H1 & H2 & H3 & H4). split; [now rewrite H1, <- app_assoc|].
  split; [rewrite H2; simpl; set_solver|]. split.
  - simpl. apply list.NoDup_cons. split; [|exact H3].
    intros Hin. apply list_elem_of_In, in_map_iff in Hin as (e' & He' & Hin').
    rewrite Forall_forall in H4. apply (H4 e' Hin'). rewrite He'. set_solver.
  - constructor; [exact Hne|]. eapply Forall_impl; [|exact H4].
    intros e' He'. simpl in He'. set_solver.
Qed.

Lemma ita_loop_spec (exclude : gset string) (exts : list string) (repo_path : string)
      (o : Obs) (ita_files : list string) :
  forall results seen,
    exists added,
      extended_by results seen added
        (fst (fst (ita_loop isoformat exclude exts repo_path o ita_files results seen)))
        (snd (fst (ita_loop isoformat exclude exts repo_path o ita_files results seen)))
      /\ Forall (untracked_record isoformat o repo_path) added.
Proof.
  induction ita_files as [|f rest IH]; intros results seen; simpl.
  - exists []. split; [apply extended_by_nil | constructor].
  - destruct (relative_to repo_path f) as [rel|] eqn:Erel; [|apply IH].
    destruct (bool_decide (rel ∈ seen)) eqn:Eseen; simpl; [apply IH|].
    destruct (negb (_matches_ext exts rel) || should_skip exclude rel || hidden_parent rel);
      [apply IH|].
    destruct (stat o f) as [[| |]|st] eqn:Est; simpl.
    + apply IH.
    + exists []. split; [apply extended_by_nil | constructor].
    + exists []. split; [apply extended_by_nil | constructor].
    + destruct (IH (results ++ [untracked_entry isoformat rel st]) ({[ rel ]} ∪ seen))
        as (added & Hext & Hall).
      exists (untracked_entry isoformat rel st :: added). split.
      * apply extended_by_cons; [|exact Hext]. simpl. now apply bool_decide_eq_false in Eseen.
      * constructor; [|exact Hall]. exists st. split; [|reflexivity].
        left. exists f. split; [|exact Est]. simpl. unfold relpath. now rewrite Erel.
Qed.

Lemma staged_loop_spec (exclude : gset string) (exts : list string) (repo_path : string)
      (o : Obs) (tracked : list string) :
  forall results seen,
    exists added,
      extended_by results seen added
        (fst (fst (staged_loop isoformat exclude exts repo_path o tracked results seen)))
        (snd (fst (staged_loop isoformat exclude exts repo_path o tracked results seen)))
      /\ Forall (untracked_record isoformat o repo_path) added.
Proof.
  induction tracked as [|t rest IH]; intros results seen; simpl.
  - exists []. split; [apply extended_by_nil | constructor].
  - destruct (bool_decide (t ∈ seen)) eqn:Eseen; simpl; [apply IH|].
    destruct (negb (_matches_ext exts t) || should_skip exclude t || hidden_parent t);
      [apply IH|].
    destruct (stat o (path_join repo_path t)) as [[| |]|st] eqn:Est; simpl.
    + apply IH.
    + exists []. split; [apply extended_by_nil | constructor].
    + exists []. split; [apply extended_by_nil | constructor].
    + destruct (negb (st_isreg st)); [apply IH|].
      destruct (IH (results ++ [untracked_entry isoformat t st]) ({[ t ]} ∪ seen))
        as (added & Hext & Hall).
      exists (untracked_entry isoformat t st :: added). split.
      * apply extended_by_cons; [|exact Hext]. simpl. now apply bool_decide_eq_false in Eseen.
      * constructor; [|exact Hall]. exists st. split; [|reflexivity].
        left. exists (path_join repo_path t). split; [|exact Est]. simpl.
        apply relpath_join.
Qed.

End MergeLoops.

Section LogLoop.
Import GitService.
Variable isoformat : Z -> string.

Lemma header_after_app (ci : option commit_info) (l1 l2 : list string) :
  header_after ci (l1 ++ l2) = header_after (header_after ci l1) l2.
Proof.
  revert ci. induction l1 as [|line l1 IH]; intros ci; simpl; [reflexivity|].
  destruct (String.eqb line ""); [apply IH|].
  destruct (PyStr.contains_char NUL line); [|apply IH].
  destruct (PyStr.split_max NUL 3 line) as [|p0 [|p1 [|p2 [|p3 [|p4 ps]]]]]; apply IH.
Qed.

(** A record made from a line of the log. *)
Definition logged_record (o : Obs) (root wd : string) (all_lines : list string) (e : Entry)
  : Prop :=
  exists st sha author ts msg,
    stat_of_file o root (path e) st
    /\ log_entry_for root wd all_lines (path e) (sha, author, ts, msg)
    /\ e = mkEntry (path e) (isoformat (st_mtime st))
                   (if String.eqb author "" then "Unknown" else author) msg sha false.

Lemma log_loop_spec (exclude : gset string) (exts : list string) (repo_path wd : string)
      (o : Obs) (all_lines : list string) (lines : list string) :
  forall pre current_info results seen,
    all_lines = pre ++ lines ->
    header_after None pre = current_info ->
    exists added,
      extended_by results seen added
        (fst (fst (log_loop isoformat exclude exts repo_path wd o lines current_info
                            results seen)))
        (snd (fst (log_loop isoformat exclude exts repo_path wd o lines current_info
                            results seen)))
      /\ Forall (logged_record o repo_path wd all_lines) added.
Proof.
  induction lines as [|line rest IH]; intros pre current_info results seen Hall Hci; simpl.
  - exists []. split; [apply extended_by_nil | constructor].
  - assert (Hnext : all_lines = (pre ++ [line]) ++ rest) by now rewrite <- app_assoc.
    assert (Hstep : forall ci', header_after current_info [line] = ci' ->
                                header_after None (pre ++ [line]) = ci').
    { intros ci' H. now rewrite header_after_app, Hci. }
    destruct (String.eqb line "") eqn:Eempty.
    { apply (IH (pre ++ [line])); [exact Hnext|]. apply Hstep. simpl. now rewrite Eempty. }
    destruct (PyStr.contains_char NUL line) eqn:Enul.
    { destruct (PyStr.split_max NUL 3 line) as [|p0 [|p1 [|p2 [|p3 [|p4 ps]]]]] eqn:Esplit;
        (apply (IH (pre ++ [line])); [exact Hnext|]; apply Hstep; simpl;
         now rewrite Eempty, Enul, Esplit). }
    assert (Hsame : header_after None (pre ++ [line]) = current_info).
    { apply Hstep. simpl. now rewrite Eempty, Enul. }
    destruct current_info as [[[[sha author] ts] msg]|]; [|now apply (IH (pre ++ [line]))].
    destruct (String.eqb (PyStr.strip line) ""); [now apply (IH (pre ++ [line]))|].
    destruct (relative_to repo_path (path_join wd (PyStr.strip line))) as [rel|] eqn:Erel;
      [|now apply (IH (pre ++ [line]))].
    destruct (should_skip exclude rel || negb (_matches_ext exts rel)) eqn:Eskip; simpl;
      [now apply (IH (pre ++ [line]))|].
    destruct (bool_decide (rel ∈ seen)) eqn:Eseen; simpl; [now apply (IH (pre ++ [line]))|].
    destruct (stat o (path_join repo_path rel)) as [[| |]|st] eqn:Est; simpl.
    + now apply (IH (pre ++ [line])).
    + exists []. split; [apply extended_by_nil | constructor].
    + exists []. split; [apply extended_by_nil | constructor].
    + destruct (negb (st_isreg st)); [now apply (IH (pre ++ [line]))|].
      set (e := mkEntry rel (isoformat (st_mtime st))
                        (if String.eqb author "" then "Unknown" else author) msg sha false).
      destruct (IH (pre ++ [line]) (Some (sha, author, ts, msg)) (results ++ [e])
                   ({[ rel ]} ∪ seen) Hnext Hsame) as (added & Hext & Hadd).
      exists (e :: added). split.
      * apply extended_by_cons; [|exact Hext]. simpl. now apply bool_decide_eq_false in Eseen.
      * constructor; [|exact Hadd]. exists st, sha, author, ts, msg. simpl.
        split; [left; exists (path_join repo_path rel); split;
                [apply relpath_join | exact Est]|].
        split; [|reflexivity].
        exists pre, line, rest. repeat split; assumption.
Qed.

End LogLoop.

Section WalkResultsSpec.
Import GitService.
Variable isoformat : Z -> string.

Lemma extended_by_seen (results : list Entry) (seen : gset string) (added results' : list Entry)
      (seen' : gset string) :
  seen = list_to_set (map path results) ->
  extended_by results seen added results' seen' ->
  seen' = list_to_set (map path results').
Proof.
  intros Hseen (H1 & H2 & _). subst results' seen' seen.
  rewrite map_app, list_to_set_app_L. set_solver.
Qed.

Lemma extended_by_NoDup (results : list Entry) (seen : gset string) (added results' : list Entry)
      (seen' : gset string) :
  NoDup (map path results) ->
  seen = list_to_set (map path results) ->
  extended_by results seen added results' seen' ->
  NoDup (map path results').
Proof.
  intros Hnd Hseen (H1 & H2 & H3 & H4). subst results' seen'. rewrite map_app.
  apply list.NoDup_app. split; [exact Hnd|]. split; [|exact H3].
  intros x Hx Hin. apply list_elem_of_In, in_map_iff in Hin as (e & <- & He).
  rewrite Forall_forall in H4. apply (H4 e He). subst seen.
  now apply elem_of_list_to_set.
Qed.

(** Records added later carry paths that no earlier record has. *)
Lemma extended_by_fresh (results : list Entry) (seen : gset string) (added results' : list Entry)
      (seen' : gset string) :
  seen = list_to_set (map path results) ->
  extended_by results seen added results' seen' ->
  Forall (fun e => forall e1, In e1 results -> path e <> path e1) added.
Proof.
  intros Hseen (_ & _ & _ & H4). eapply Forall_impl; [|exact H4].
  intros e He e1 Hin Heq. apply He. subst seen. apply elem_of_list_to_set.
  rewrite Heq. apply list_elem_of_In, in_map. exact Hin.
Qed.

Lemma listed_untracked (o : Obs) (root : string) (entries : list DirEntry) (e : Entry) :
  scandir o = inr entries -> listed_at isoformat entries e ->
  untracked_record isoformat o root e.
Proof.
  intros Hs (d & st & Hin & Hst & ->). exists st. split; [|reflexivity].
  right. exists entries, d. auto.
Qed.

Lemma found_untracked (o : Obs) (root : string) (e : Entry) :
  found_at isoformat o root e -> untracked_record isoformat o root e.
Proof.
  intros (full & st & Hst & ->). exists st. split; [|reflexivity].
  left. exists full. auto.
Qed.

Lemma concat_map_map {A B C : Type} (f : B -> C) (g : A -> list B) (l : list A) :
  map f (concat (map g l)) = concat (map (fun x => map f (g x)) l).
Proof.
  induction l as [|x l IH]; simpl; [reflexivity|]. now rewrite map_app, IH.
Qed.

(** What the scan of the work tree finds: records of files outside the
    index, one per path. *)
Lemma walk_results_spec (exclude : gset string) (exts : list string) (tracked : gset string)
      (root : string) (o : Obs) (top_dirs : list DirEntry) (top_untracked : list Entry) :
  top_level isoformat exclude exts tracked o = inr (top_dirs, top_untracked) ->
  let walk_results :=
    collect_walks isoformat exclude exts tracked root o top_dirs top_untracked in
  (wf_obs o -> NoDup (map path walk_results))
  /\ Forall (untracked_record isoformat o root) walk_results
  /\ Forall (fun e => path e ∉ tracked) walk_results.
Proof.
  intros Htop. unfold top_level in Htop.
  destruct (scandir o) as [[| |]|entries] eqn:Escan; try discriminate.
  { injection Htop as <- <-. simpl. repeat split; constructor. }
  destruct (scan_top_spec isoformat exclude exts tracked entries [] [])
    as (ds & us & H1 & H2 & H3 & H4 & H5).
  pose proof (scan_top_unpruned isoformat exclude exts tracked entries [] []
                (Forall_nil _)) as Hunpruned.
  destruct (scan_top isoformat exclude exts tracked entries [] []) as [[tds tus] x].
  simpl in H1, Hunpruned. injection H1 as -> ->.
  assert (top_dirs = ds /\ top_untracked = us) as [-> ->].
  { destruct x as [[| |]|]; try discriminate; injection Htop as <- <-; auto. }
  clear Htop. unfold collect_walks. cbv zeta. split; [|split].
  - intros [Hwf _]. specialize (Hwf entries Escan).
    rewrite map_app, concat_map_map.
    eapply sublist_NoDup; [apply (tree_paths_NoDup exclude (root_tree entries));
                           now apply root_tree_wf|].
    rewrite root_tree_paths. apply sublist_app; [exact H3|].
    apply sublist_concat_map; [exact H2|].
    intros d Hd. rewrite Forall_forall in Hunpruned. rewrite (Hunpruned d Hd).
    apply walk_subdir_spec.
  - apply Forall_app. split.
    + eapply Forall_impl; [|exact H4]. intros e. now apply listed_untracked.
    + rewrite Forall_forall. intros e He. apply in_concat in He as (blk & Hblk & He).
      apply in_map_iff in Hblk as (d & <- & Hd).
      destruct (walk_subdir_spec isoformat exclude exts tracked root o d) as (_ & Hf & _).
      rewrite Forall_forall in Hf. apply found_untracked. now apply Hf.
  - apply Forall_app. split; [exact H5|].
    rewrite Forall_forall. intros e He. apply in_concat in He as (blk & Hblk & He).
    apply in_map_iff in Hblk as (d & <- & Hd).
    destruct (walk_subdir_spec isoformat exclude exts tracked root o d) as (_ & _ & Hf).
    rewrite Forall_forall in Hf. now apply Hf.
Qed.

End WalkResultsSpec.

Section MergedSpec.
Import GitService.
Variable isoformat : Z -> string.

Lemma extended_by_seen_mono (results : list Entry) (seen : gset string)
      (added results' : list Entry) (seen' : gset string) :
  extended_by results seen added results' seen' -> seen ⊆ seen'.
Proof. intros (_ & -> & _). set_solver. Qed.

(** Every intent-to-add file that passes the filters and can be read has
    its path among the seen ones after the first loop. *)
Lemma ita_loop_covers (exclude : gset string) (exts : list string) (repo_path : string)
      (o : Obs) (ita_files : list string) :
  forall results seen f rel st,
    snd (ita_loop isoformat exclude exts repo_path o ita_files results seen) = None ->
    In f ita_files ->
    relative_to repo_path f = Some rel ->
    _matches_ext exts rel = true ->
    should_skip exclude rel = false ->
    hidden_parent rel = false ->
    stat o f = inr st ->
    rel ∈ snd (fst (ita_loop isoformat exclude exts repo_path o ita_files results seen)).
Proof.
  induction ita_files as [|f0 rest IH]; intros results seen f rel st Hnone Hin Hrel Hm Hs Hh Hst;
    [contradiction|].
  assert (Hmono : forall r s, rel ∈ s ->
            rel ∈ snd (fst (ita_loop isoformat exclude exts repo_path o rest r s))).
  { intros r s Hrs. destruct (ita_loop_spec isoformat exclude exts repo_path o rest r s)
      as (added & Hext & _).
    apply extended_by_seen_mono in Hext. set_solver. }
  simpl in *. destruct Hin as [->|Hin].
  - rewrite Hrel in *. rewrite Hm, Hs, Hh in *. simpl in *.
    destruct (bool_decide (rel ∈ seen)) eqn:Eseen; simpl in *.
    + apply Hmono. now apply bool_decide_eq_true in Eseen.
    + rewrite Hst in *. apply Hmono. set_solver.
  - destruct (relative_to repo_path f0) as [rel0|]; [|now apply (IH _ _ f rel st)].
    destruct (_ || _); [now apply (IH _ _ f rel st)|].
    destruct (stat o f0) as [[| |]|st0]; try discriminate; now apply (IH _ _ f rel st).
Qed.

(** The merge of Steps 1 to 5.  The result lists every path once; the
    records found by the scan and by the intent-to-add loop come first
    and have no history; the records after them are taken from the log
    or from the index, for paths that no earlier record has. *)
Lemma merged_results_spec (exclude : gset string) (repo_path wd : string) (o : Obs)
      (extensions : list string) (results : list Entry) :
  merged_results isoformat exclude repo_path wd o extensions = inr results ->
  (wf_obs o -> NoDup (map path results))
  /\ Forall (fun e => untracked_record isoformat o repo_path e
                      \/ tracked_record isoformat o repo_path wd e) results
  /\ exists first rest,
       results = first ++ rest
       /\ Forall (untracked_record isoformat o repo_path) first
       /\ Forall (fun e => forall e1, In e1 first -> path e <> path e1) rest
       /\ forall f rel st,
            f ∈ _find_intent_to_add_files o (git_output (run_status o)) ->
            relative_to repo_path f = Some rel ->
            _matches_ext (ext_lower extensions) rel = true ->
            should_skip exclude rel = false ->
            hidden_parent rel = false ->
            stat o f = inr st ->
            exists e, In e first /\ path e = rel.
Proof.
  intros Hm. unfold merged_results in Hm.
  destruct (top_level isoformat exclude (ext_lower extensions)
                      (_build_tracked_set repo_path o) o)
    as [e0|[top_dirs top_untracked]] eqn:Etop; [discriminate|].
  cbv zeta in Hm.
  destruct (walk_results_spec isoformat exclude (ext_lower extensions)
              (_build_tracked_set repo_path o) repo_path o top_dirs top_untracked Etop)
    as (Hnd0 & Hu0 & _).
  set (wr := collect_walks isoformat exclude (ext_lower extensions)
               (_build_tracked_set repo_path o) repo_path o top_dirs top_untracked) in *.
  set (itas := elements (_find_intent_to_add_files o (git_output (run_status o)))) in *.
  destruct (ita_loop_spec isoformat exclude (ext_lower extensions) repo_path o itas wr
              (list_to_set (map path wr))) as (a1 & Hext1 & Hu1).
  pose proof (ita_loop_covers exclude (ext_lower extensions) repo_path o itas wr
                (list_to_set (map path wr))) as Hcov.
  destruct (ita_loop isoformat exclude (ext_lower extensions) repo_path o itas wr
                     (list_to_set (map path wr))) as [[r1 s1] [x1|]]; [discriminate|].
  simpl in Hext1, Hcov.
  pose proof (extended_by_seen wr _ a1 r1 s1 eq_refl Hext1) as Hs1.
  destruct (log_loop_spec isoformat exclude (ext_lower extensions) repo_path wd o
              (PyStr.splitlines (git_output (run_log o)))
              (PyStr.splitlines (git_output (run_log o))) [] None r1 s1 eq_refl eq_refl)
    as (a2 & Hext2 & Hl2).
  destruct (log_loop isoformat exclude (ext_lower extensions) repo_path wd o _ None r1 s1)
    as [[r2 s2] [x2|]]; [discriminate|].
  simpl in Hext2.
  pose proof (extended_by_seen r1 s1 a2 r2 s2 Hs1 Hext2) as Hs2.
  destruct (staged_loop_spec isoformat exclude (ext_lower extensions) repo_path o
              (elements (_build_tracked_set repo_path o)) r2 s2) as (a3 & Hext3 & Hu3).
  destruct (staged_loop isoformat exclude (ext_lower extensions) repo_path o _ r2 s2)
    as [[r3 s3] [x3|]]; [discriminate|].
  simpl in Hext3. injection Hm as <-.
  pose proof (extended_by_fresh r1 s1 a2 r2 s2 Hs1 Hext2) as Hf2.
  pose proof (extended_by_fresh r2 s2 a3 r3 s3 Hs2 Hext3) as Hf3.
  assert (HND : wf_obs o -> NoDup (map path r3)).
  { intros Hwf.
    pose proof (extended_by_NoDup wr _ a1 r1 s1 (Hnd0 Hwf) eq_refl Hext1) as Hnd1.
    pose proof (extended_by_NoDup r1 s1 a2 r2 s2 Hnd1 Hs1 Hext2) as Hnd2.
    exact (extended_by_NoDup r2 s2 a3 r3 s3 Hnd2 Hs2 Hext3). }
  destruct Hext1 as (E1 & _). destruct Hext2 as (E2 & _). destruct Hext3 as (E3 & _).
  split; [exact HND|]. split.
  - subst r3 r2 r1.
    apply Forall_app; split; [apply Forall_app; split; [apply Forall_app; split|]|].
    + eapply Forall_impl; [|exact Hu0]. auto.
    + eapply Forall_impl; [|exact Hu1]. auto.
    + eapply Forall_impl; [|exact Hl2]. intros e He. right. exact He.
    + eapply Forall_impl; [|exact Hu3]. auto.
  - exists r1, (a2 ++ a3). split; [subst r3 r2; now rewrite app_assoc|].
    split; [subst r1; apply Forall_app; split; assumption|]. split.
    + apply Forall_app. split; [exact Hf2|].
      eapply Forall_impl; [|exact Hf3]. intros e He e1 Hin. apply He.
      subst r2. apply in_or_app. now left.
    + intros f rel st Hf Hrel Hmt Hsk Hh Hst.
      assert (Hin : In f itas)
        by (subst itas; apply list_elem_of_In, elem_of_elements, Hf).
      specialize (Hcov f rel st eq_refl Hin Hrel Hmt Hsk Hh Hst).
      rewrite Hs1 in Hcov. apply elem_of_list_to_set, list_elem_of_In, in_map_iff in Hcov
        as (e & He & Hine). eauto.
Qed.

End MergedSpec.

Section VersionedRun.
Import GitService.
Variable isoformat : Z -> string.
Variable monotonic : nat -> Z.

Lemma deref_fresh (h es : list Entry) : deref (h ++ es) (seq (length h) (length es)) = es.
Proof.
  unfold deref. revert h. induction es as [|e es IH]; intros h; simpl; [reflexivity|].
  rewrite lookup_app_r by lia. rewrite Nat.sub_diag. simpl. f_equal.
  specialize (IH (h ++ [e])). rewrite length_app in IH. simpl in IH.
  rewrite Nat.add_1_r, <- app_assoc in IH. exact IH.
Qed.

(** On a miss, a root under version control returns the records of
    [recent_versioned], freshly stored. *)
Lemma versioned_run (exclude : gset string) (repo_path wd : string) (o : Obs)
      (children : list Ctx) (limit : Z) (extensions : option (list string))
      (st st' : State) (refs : list loc) :
  working_dir o = Some wd ->
  cache_hit (_recent_files_cache st
               !! ((repo_path, limit, default_extensions extensions) : cache_key))
            (monotonic (ticks st)) = None ->
  get_recently_changed_files isoformat monotonic exclude repo_path (mkCtx o children)
    limit extensions st = (inr refs, st') ->
  recent_versioned isoformat exclude repo_path wd o limit (default_extensions extensions)
  = inr (deref (heap st') refs).
Proof.
  intros Hwd Hmiss Hrun. rewrite get_recently_changed_files_run in Hrun. cbv zeta in Hrun.
  rewrite Hmiss, Hwd in Hrun. unfold bind, lift in Hrun.
  destruct (recent_versioned _ _ _ _ _ _ _) as [e|trimmed]; [discriminate|].
  rewrite alloc_list_eq in Hrun. simpl in Hrun. injection Hrun as <- <-. simpl.
  now rewrite deref_fresh.
Qed.




End VersionedRun.




(** ** Scans without a repository *)

Section PlainScans.
Import GitService.
Variable isoformat : Z -> string.

Lemma plain_files_spec (exts : list string) (root : string) (o : Obs) (dirpath : string)
      (fnames : list string) :
  forall results,
    exists added,
      fst (plain_files isoformat exts root o dirpath fnames results) = results ++ added
      /\ map path added `sublist_of`
           map (fun f => relpath (path_join dirpath f) root) fnames
      /\ Forall (found_at isoformat o root) added.
Proof.
  induction fnames as [|f rest IH]; intros results; simpl.
  - exists []. rewrite app_nil_r. repeat split; constructor.
  - assert (Hstop : exists added : list Entry,
               results = results ++ added
               /\ map path added `sublist_of`
                    relpath (path_join dirpath f) root
                    :: map (fun f => relpath (path_join dirpath f) root) rest
               /\ Forall (found_at isoformat o root) added).
    { exists []. rewrite app_nil_r. repeat split; try constructor. apply sublist_nil_l. }
    destruct (negb (_matches_ext exts f)).
    { destruct (IH results) as (added & H1 & H2 & H3). exists added.
      repeat split; try assumption. now apply sublist_cons. }
    destruct (relative_to root (path_join dirpath f)) as [rel|] eqn:Erel; [|exact Hstop].
    destruct (stat o (path_join dirpath f)) as [[| |]|st] eqn:Est; simpl;
      [|exact Hstop|exact Hstop|].
    + destruct (IH results) as (added & H1 & H2 & H3). exists added.
      repeat split; try assumption. now apply sublist_cons.
    + assert (Hrel : relpath (path_join dirpath f) root = rel)
        by (unfold relpath; now rewrite Erel).
      destruct (IH (results ++ [untracked_entry isoformat rel st])) as (added & H1 & H2 & H3).
      exists (untracked_entry isoformat rel st :: added).
      rewrite H1, <- app_assoc. repeat split.
      * simpl. rewrite Hrel. now apply sublist_skip.
      * constructor; [|exact H3]. exists (path_join dirpath f), st. rewrite Hrel. auto.
Qed.

Lemma plain_loop_spec (exts : list string) (root : string) (o : Obs)
      (steps : list (string * list string)) :
  forall results,
    exists added,
      fst (plain_loop isoformat exts root o steps results) = results ++ added
      /\ map path added `sublist_of` map (fun full => relpath full root) (walk_fulls steps)
      /\ Forall (found_at isoformat o root) added.
Proof.
  induction steps as [|[dirpath fnames] steps IH]; intros results; simpl.
  - exists []. rewrite app_nil_r. repeat split; constructor.
  - destruct (plain_files_spec exts root o dirpath fnames results) as (a1 & H1 & H2 & H3).
    destruct (plain_files isoformat exts root o dirpath fnames results) as [f1 x1].
    simpl in H1. subst f1.
    change (walk_fulls ((dirpath, fnames) :: steps))
      with (map (path_join dirpath) fnames ++ walk_fulls steps).
    rewrite map_app, map_map.
    destruct x1 as [e|].
    + exists a1. simpl. repeat split; try assumption. now apply sublist_inserts_r.
    + destruct (IH (results ++ a1)) as (a2 & G1 & G2 & G3).
      exists (a1 ++ a2). rewrite G1, <- app_assoc. repeat split.
      * rewrite map_app. now apply sublist_app.
      * now apply Forall_app.
Qed.

Lemma NoDup_sort_by_date (l : list Entry) :
  NoDup (map path l) -> NoDup (map path (sort_by_date l)).
Proof.
  intros H. eapply NoDup_Permutation_proper; [|exact H].
  apply Permutation_map. apply stable_sort_perm.
Qed.

(** The plain directory: every path once, every record without history. *)
Lemma recent_plain_spec (exclude : gset string) (root : string) (o : Obs) (limit : Z)
      (trimmed : list Entry) :
  recent_plain isoformat exclude root o limit = inr trimmed ->
  (wf_obs o -> NoDup (map path trimmed))
  /\ Forall (untracked_record isoformat o root) trimmed.
Proof.
  intros H. apply recent_plain_inv in H as (u & Hu & ->).
  unfold _find_untracked_md_files in Hu.
  destruct (plain_loop_spec [".md"] root o (walk exclude root (walk_root o)) [])
    as (added & H1 & H2 & H3).
  destruct (plain_loop isoformat [".md"] root o _ []) as [r [x|]]; [discriminate|].
  injection Hu as <-. simpl in H1. subst r.
  assert (E : map (fun full => relpath full root)
                  (walk_fulls (walk exclude root (walk_root o)))
              = tree_paths exclude (walk_root o)).
  { rewrite walk_fulls_tree, map_map. rewrite <- (map_id (tree_paths _ _)) at 2.
    apply map_ext. intros x. apply relpath_join. }
  rewrite E in H2. split.
  - intros [_ Hwf]. apply slice_to_NoDup, NoDup_sort_by_date.
    eapply sublist_NoDup.
    + apply NoDup_sort_by_date. eapply sublist_NoDup;
        [apply (tree_paths_NoDup exclude _ Hwf) | exact H2].
    + change (map path ?l) with (path <$> l). apply fmap_sublist.
      apply sublist_filter.
  - apply slice_to_Forall. eapply Permutation_Forall; [symmetry; apply stable_sort_perm|].
    apply list.Forall_forall. intros e He. apply list_elem_of_filter in He as [_ He].
    apply list_elem_of_In in He. eapply Permutation_in in He; [|apply stable_sort_perm].
    rewrite Forall_forall in H3. apply found_untracked. now apply H3.
Qed.

End PlainScans.

Section ContainerScan.
Import GitService.
Variable isoformat : Z -> string.

(** The paths that the scan of a container may report for one entry of
    the root: the entry itself, and the files below it when it is a
    directory that is neither pruned nor a child repository. *)
Definition entry_block (exclude : gset string) (child_repo_names : gset string)
           (d : DirEntry) : list string :=
  name d ::
  (if pruned exclude (name d) || bool_decide (name d ∈ child_repo_names) then []
   else map (path_join (name d)) (tree_paths exclude (tree d))).

Lemma walk_relpaths (exclude : gset string) (root : string) (d : DirEntry) :
  map (fun full => relpath full root)
      (walk_fulls (walk exclude (path_join root (name d)) (tree d)))
  = map (path_join (name d)) (tree_paths exclude (tree d)).
Proof.
  rewrite walk_fulls_tree, map_map. apply map_ext. intros x.
  now rewrite path_join_assoc, relpath_join.
Qed.

Lemma container_scan_spec (exclude : gset string) (exts : list string)
      (child_repo_names : gset string) (root : string) (o : Obs) (entries : list DirEntry) :
  forall all_results,
    exists added,
      fst (container_scan isoformat exclude exts child_repo_names root o entries all_results)
      = all_results ++ added
      /\ map path added
           `sublist_of` concat (map (entry_block exclude child_repo_names) entries)
      /\ Forall (fun e => listed_at isoformat entries e \/ found_at isoformat o root e) added.
Proof.
  induction entries as [|d entries IH]; intros all_results.
  - exists []. simpl. rewrite app_nil_r. repeat split; constructor.
  - change (concat (map (entry_block exclude child_repo_names) (d :: entries)))
      with (entry_block exclude child_repo_names d
            ++ concat (map (entry_block exclude child_repo_names) entries)).
    set (blocks := concat (map (entry_block exclude child_repo_names) entries)) in *.
    assert (Hname : [name d] `sublist_of` entry_block exclude child_repo_names d).
    { unfold entry_block. apply sublist_skip, sublist_nil_l. }
    assert (Hwalk : pruned exclude (name d) || bool_decide (name d ∈ child_repo_names) = false ->
                    map (path_join (name d)) (tree_paths exclude (tree d))
                        `sublist_of` entry_block exclude child_repo_names d).
    { intros E. unfold entry_block. rewrite E. now apply sublist_cons. }
    remember (entry_block exclude child_repo_names d) as blk eqn:Eblk. clear Eblk.
    assert (Hskip : forall acc,
               exists added,
                 fst (container_scan isoformat exclude exts child_repo_names root o entries acc)
                 = acc ++ added
                 /\ map path added `sublist_of` blk ++ blocks
                 /\ Forall (fun e => listed_at isoformat (d :: entries) e
                                     \/ found_at isoformat o root e) added).
    { intros acc. destruct (IH acc) as (added & H1 & H2 & H3). exists added.
      repeat split; try assumption; [now apply sublist_inserts_l|].
      eapply Forall_impl; [|exact H3]. intros e [H|H]; [left|right]; auto.
      now apply listed_at_cons. }
    assert (Hstop : exists added : list Entry,
               all_results = all_results ++ added
               /\ map path added `sublist_of` blk ++ blocks
               /\ Forall (fun e => listed_at isoformat (d :: entries) e
                                   \/ found_at isoformat o root e) added).
    { exists []. rewrite app_nil_r. repeat split; try constructor. apply sublist_nil_l. }
    cbn [container_scan].
    destruct (is_file d) as [e1|isf]; [exact Hstop|].
    destruct (isf && _matches_ext exts (name d)).
    + destruct (entry_stat d) as [[| |]|st] eqn:Est;
        [apply Hskip | exact Hstop | exact Hstop |].
      destruct (IH (all_results ++ [untracked_entry isoformat (name d) st]))
        as (added & H1 & H2 & H3).
      exists (untracked_entry isoformat (name d) st :: added). rewrite H1, <- app_assoc.
      repeat split.
      * change (map path (untracked_entry isoformat (name d) st :: added))
          with ([name d] ++ map path added). now apply sublist_app.
      * constructor.
        -- left. exists d, st. split; [now left | auto].
        -- eapply Forall_impl; [|exact H3]. intros e [H|H]; [left|right]; auto.
           now apply listed_at_cons.
    + destruct (is_dir d) as [e2|[|]]; [exact Hstop | | apply Hskip].
      destruct (pruned exclude (name d) || bool_decide (name d ∈ child_repo_names)) eqn:Epr;
        [apply Hskip|].
      specialize (Hwalk eq_refl).
      destruct (plain_loop_spec isoformat exts root o
                  (walk exclude (path_join root (name d)) (tree d)) all_results)
        as (a1 & G1 & G2 & G3).
      rewrite walk_relpaths in G2.
      destruct (plain_loop isoformat exts root o _ all_results) as [r1 x1].
      simpl in G1. subst r1.
      assert (Hblock : map path a1 `sublist_of` blk) by (etransitivity; eassumption).
      destruct x1 as [ex|].
      * exists a1. assert (Hres : forall ee : exn,
                              fst (match ee with
                                   | OSError => (all_results ++ a1, Some OSError)
                                   | _ => (all_results ++ a1, Some ee)
                                   end) = all_results ++ a1) by (intros []; reflexivity).
        rewrite Hres. repeat split.
        -- now apply sublist_inserts_r.
        -- eapply Forall_impl; [|exact G3]. auto.
      * destruct (IH (all_results ++ a1)) as (a2 & K1 & K2 & K3).
        exists (a1 ++ a2). rewrite K1, <- app_assoc. repeat split.
        -- rewrite map_app. now apply sublist_app.
        -- apply Forall_app. split; [eapply Forall_impl; [|exact G3]; auto|].
           eapply Forall_impl; [|exact K3]. intros e [H|H]; [left|right]; auto.
           now apply listed_at_cons.
Qed.

End ContainerScan.

(** ** Fields of the records in the store *)

Section FieldsInvariant.
Import GitService.
Variable isoformat : Z -> string.
Variable monotonic : nat -> Z.








Lemma alloc_list_keeps (es : list Entry) (st : State) :
  Forall fields_rule es -> heap_fields_ok st -> heap_fields_ok (snd (alloc_list es st)).
Proof.
  intros Hes Hst. rewrite alloc_list_eq. unfold heap_fields_ok. simpl.
  apply Forall_app. split; assumption.
Qed.




End FieldsInvariant.

Section FieldsMain.
Import GitService.
Variable isoformat : Z -> string.
Variable monotonic : nat -> Z.





End FieldsMain.

(** ** Calls that compute their result *)

Section HeapFrames.
Import GitService.

(** The path of a record of the store. *)
Definition path_of (h : list Entry) (l : loc) : string :=
  match h !! l with Some e => path e | None => "" end.

(** The records present before are left as they were. *)
Definition frame (st st' : State) : Prop :=
  (length (heap st) <= length (heap st'))%nat
  /\ forall l : loc, (l < length (heap st))%nat -> heap st' !! l = heap st !! l.

(** The cache changed only at roots that satisfy [P]. *)
Definition touched (P : string -> Prop) (st st' : State) : Prop :=
  forall k limit exts,
    ~ P k ->
    _recent_files_cache st' !! ((k, limit, exts) : cache_key)
    = _recent_files_cache st !! ((k, limit, exts) : cache_key).

(** References to records made between the two states. *)
Definition fresh (st st' : State) (refs : list loc) : Prop :=
  Forall (fun l => (length (heap st) <= l < length (heap st'))%nat) refs.

Lemma lookup_valid (h : list Entry) (l : loc) :
  (l < length h)%nat -> exists e, h !! l = Some e.
Proof. apply lookup_lt_is_Some_2. Qed.

Lemma frame_refl (st : State) : frame st st.
Proof. split; auto. Qed.

Lemma frame_trans (s1 s2 s3 : State) : frame s1 s2 -> frame s2 s3 -> frame s1 s3.
Proof.
  intros [L1 F1] [L2 F2]. split; [lia|].
  intros l Hl. rewrite F2 by lia. now apply F1.
Qed.

Lemma touched_refl (P : string -> Prop) (st : State) : touched P st st.
Proof. intros k limit exts _. reflexivity. Qed.

Lemma touched_trans (P : string -> Prop) (s1 s2 s3 : State) :
  touched P s1 s2 -> touched P s2 s3 -> touched P s1 s3.
Proof.
  intros T1 T2 k limit exts Hk. rewrite (T2 k limit exts Hk). now apply T1.
Qed.

Lemma touched_weaken (P Q : string -> Prop) (s1 s2 : State) :
  (forall k, P k -> Q k) -> touched P s1 s2 -> touched Q s1 s2.
Proof. intros HPQ T k limit exts Hk. apply T. intros HP. apply Hk, HPQ, HP. Qed.

Lemma path_of_frame (st st' : State) (refs : list loc) :
  frame st st' -> Forall (fun l => (l < length (heap st))%nat) refs ->
  map (path_of (heap st')) refs = map (path_of (heap st)) refs.
Proof.
  intros [_ F] Hv. induction Hv as [|l refs Hl _ IH]; simpl; [reflexivity|].
  f_equal; [|exact IH]. unfold path_of. now rewrite F.
Qed.

Lemma path_of_fresh (h es : list Entry) :
  map (path_of (h ++ es)) (seq (length h) (length es)) = map path es.
Proof.
  revert h. induction es as [|e es IH]; intros h; simpl; [reflexivity|].
  f_equal.
  - unfold path_of. rewrite lookup_app_r by lia. now rewrite Nat.sub_diag.
  - specialize (IH (h ++ [e])). rewrite length_app in IH. simpl in IH.
    rewrite Nat.add_1_r, <- app_assoc in IH. exact IH.
Qed.

Lemma lookup_fresh (h es : list Entry) (P : Entry -> Prop) :
  Forall P es ->
  Forall (fun l : loc => exists e, (h ++ es) !! l = Some e /\ P e)
         (seq (length h) (length es)).
Proof.
  intros HP. apply Forall_forall. intros l Hl. apply in_seq in Hl.
  destruct (lookup_valid es (l - length h)) as [e He]; [lia|].
  exists e. split.
  - rewrite lookup_app_r by lia. exact He.
  - rewrite Forall_forall in HP. apply HP. apply list_elem_of_In.
    eapply list_elem_of_lookup_2. exact He.
Qed.

Lemma deref_paths (h : list Entry) (refs : list loc) :
  Forall (fun l => (l < length h)%nat) refs ->
  map path (deref h refs) = map (path_of h) refs.
Proof.
  intros Hv. unfold deref. induction Hv as [|l refs Hl _ IH]; simpl; [reflexivity|].
  unfold path_of at 1. destruct (lookup_valid h l Hl) as [e He].
  rewrite He. simpl. f_equal. exact IH.
Qed.


(** Renaming the records of a list without repetition: each of them gets
    the prefix once, and no other record changes. *)
Lemma prefix_paths_exact (prefix : string) (ls : list loc) :
  forall st,
    NoDup ls -> Forall (fun l => (l < length (heap st))%nat) ls ->
    exists h',
      prefix_paths prefix ls st = (inr tt, mkState (_recent_files_cache st) h' (ticks st))
      /\ length h' = length (heap st)
      /\ (forall l : loc, l ∉ ls -> h' !! l = heap st !! l)
      /\ (forall (l : loc) e, l ∈ ls -> heap st !! l = Some e ->
                      h' !! l = Some (set_path e (prefix ++ path e))).
Proof.
  induction ls as [|l ls IH]; intros st Hnd Hv; simpl.
  - exists (heap st). unfold ret. split; [now destruct st|].
    split; [reflexivity|]. split; [auto|]. intros l e Hl. inversion Hl.
  - apply list.NoDup_cons in Hnd as [Hnotin Hnd].
    inversion Hv as [|? ? Hl Hv']; subst.
    destruct (lookup_valid (heap st) l Hl) as [e He].
    unfold bind, prefix_path. rewrite He.
    set (st1 := mkState (_recent_files_cache st)
                        (<[ l := set_path e (prefix ++ path e) ]> (heap st)) (ticks st)).
    assert (Hv1 : Forall (fun l0 => (l0 < length (heap st1))%nat) ls).
    { simpl. rewrite length_insert. exact Hv'. }
    destruct (IH st1 Hnd Hv1) as (h' & Heq & Hlen & Hout & Hin).
    exists h'. split; [exact Heq|]. simpl in *.
    split; [now rewrite Hlen, length_insert|]. split.
    + intros l0 Hl0. rewrite Hout by (intros H; apply Hl0; now apply list_elem_of_further).
      apply list_lookup_insert_ne. intros ->. apply Hl0. apply list_elem_of_here.
    + intros l0 e0 Hl0 He0. apply elem_of_cons in Hl0 as [->|Hl0].
      * rewrite Hout by exact Hnotin. rewrite He in He0. injection He0 as <-.
        apply list_lookup_insert_eq. exact Hl.
      * apply Hin; [exact Hl0|].
        rewrite list_lookup_insert_ne; [exact He0|]. intros ->. contradiction.
Qed.

End HeapFrames.

Section ComputingCalls.
Import GitService.
Variable isoformat : Z -> string.
Variable monotonic : nat -> Z.

(** What a call on [root] does when the cache is cold there: it makes new
    records, leaves the others alone, touches the cache at or below [root]
    only, and returns references to new records with distinct paths, each
    of which satisfies [D]. *)
Definition computes (root : string) (D : Entry -> Prop) (m : M (list loc)) : Prop :=
  forall st refs st',
    cold root st -> m st = (inr refs, st') ->
    frame st st'
    /\ touched (below root) st st'
    /\ fresh st st' refs
    /\ NoDup (map (path_of (heap st')) refs)
    /\ Forall (fun l : loc => exists e, heap st' !! l = Some e /\ D e) refs.

Lemma prefix_is_join (a p : string) : ((a ++ "/") ++ p)%string = path_join a p.
Proof. unfold path_join. apply string_app_assoc. Qed.

(** Two sub-directories with different names have nothing in common. *)
Lemma below_siblings (root a b k : string) :
  no_slash a -> no_slash b ->
  below (path_join root a) k -> below (path_join root b) k -> a = b.
Proof.
  intros Ha Hb [->|[x ->]] [H|[y H]].
  - now apply path_join_inj_r in H.
  - rewrite path_join_assoc in H. apply path_join_inj_r in H.
    exfalso. apply (path_join_has_slash b y). now rewrite <- H.
  - rewrite path_join_assoc in H. apply path_join_inj_r in H.
    exfalso. apply (path_join_has_slash a x). now rewrite H.
  - rewrite !path_join_assoc in H. apply path_join_inj_r in H.
    eapply path_join_head; eassumption.
Qed.

Lemma below_refl (root : string) : below root root.
Proof. now left. Qed.

Lemma cold_below (root k : string) (st : State) : below root k -> cold root st -> cold k st.
Proof. intros Hk Hc k' limit exts Hk'. apply Hc. eapply below_trans; eassumption. Qed.

(** A list computed without the help of other services, then stored. *)
Lemma leaf_computes (root : string) (limit : Z) (exts : list string) (D : Entry -> Prop)
      (r : result (list Entry)) (st : State) (refs : list loc) (st' : State) :
  (forall trimmed, r = inr trimmed -> NoDup (map path trimmed) /\ Forall D trimmed) ->
  bind (lift r) (fun trimmed =>
  bind (alloc_list trimmed) (fun refs =>
  store monotonic (root, limit, exts) refs)) st = (inr refs, st') ->
  frame st st'
  /\ touched (below root) st st'
  /\ fresh st st' refs
  /\ NoDup (map (path_of (heap st')) refs)
  /\ Forall (fun l : loc => exists e, heap st' !! l = Some e /\ D e) refs.
Proof.
  intros Hr Hrun. unfold bind, lift in Hrun. destruct r as [e|trimmed]; [discriminate|].
  destruct (Hr trimmed eq_refl) as [Hnd HD].
  rewrite alloc_list_eq in Hrun. simpl in Hrun. injection Hrun as <- <-. simpl.
  split; [|split; [|split; [|split]]].
  - split; simpl; [rewrite length_app; lia|].
    intros l Hl. now apply lookup_app_l.
  - intros k limit' exts' Hk. simpl. apply lookup_insert_ne.
    intros H. injection H as <- _ _. apply Hk, below_refl.
  - unfold fresh. simpl. apply Forall_forall. intros l Hl. apply in_seq in Hl.
    rewrite length_app. lia.
  - now rewrite path_of_fresh.
  - now apply lookup_fresh.
Qed.

Lemma discover_loop_sublist {X : Type} (exclude : gset string) (entries : list (Obs * X)) :
  forall acc, exists s,
    fst (discover_loop exclude entries acc) = acc ++ s /\ s `sublist_of` entries.
Proof.
  induction entries as [|[eo x] entries IH]; intros acc; simpl.
  - exists []. now rewrite app_nil_r.
  - assert (Hskip : exists s, fst (discover_loop exclude entries acc) = acc ++ s
                              /\ s `sublist_of` (eo, x) :: entries).
    { destruct (IH acc) as (s & H1 & H2). exists s. split; [exact H1|].
      now apply sublist_cons. }
    assert (Hstop : exists s : list (Obs * X), acc = acc ++ s
                                               /\ s `sublist_of` (eo, x) :: entries).
    { exists []. rewrite app_nil_r. split; [reflexivity | apply sublist_nil_l]. }
    destruct (as_is_dir eo) as [e|[|]]; simpl; [exact Hstop | | exact Hskip].
    destruct (pruned exclude (as_name eo)); [exact Hskip|].
    destruct (as_git_exists eo) as [e|[|]]; simpl; [exact Hstop | | exact Hskip].
    destruct (IH (acc ++ [(eo, x)])) as (s & H1 & H2).
    exists ((eo, x) :: s). rewrite H1, <- app_assoc. split; [reflexivity|].
    now apply sublist_skip.
Qed.

Lemma discover_sublist {X : Type} (exclude : gset string) (o : Obs)
      (entries child_repos : list (Obs * X)) :
  _discover_child_git_repos exclude o entries = inr child_repos ->
  child_repos `sublist_of` entries.
Proof.
  unfold _discover_child_git_repos. intros H.
  destruct (discover_scandir o) as [[| |]|].
  - injection H as <-. apply sublist_nil_l.
  - discriminate.
  - discriminate.
  - destruct (discover_loop_sublist exclude entries []) as (s & H1 & H2).
    destruct (discover_loop exclude entries []) as [crs [[| |]|]]; simpl in *;
      try discriminate; injection H as <-; subst crs; exact H2.
Qed.

(** The first loop of [_get_recent_files_from_child_repos], when every
    child service computes: the records it gathers are new, and each is a
    record of one child with the child's name put before its path. *)
Lemma collect_children_computes (root : string)
      (Dx : Obs * M (list loc) -> Entry -> Prop)
      (child_repos : list (Obs * M (list loc))) :
  Forall (fun x => no_slash (as_name (fst x))) child_repos ->
  NoDup (map (fun x => as_name (fst x)) child_repos) ->
  Forall (fun x => computes (path_join root (as_name (fst x))) (Dx x) (snd x)) child_repos ->
  forall acc st refs st',
    Forall (fun x => cold (path_join root (as_name (fst x))) st) child_repos ->
    collect_children child_repos acc st = (inr refs, st') ->
    exists new,
      refs = acc ++ new
      /\ frame st st'
      /\ touched (fun k => exists x, In x child_repos
                                     /\ below (path_join root (as_name (fst x))) k) st st'
      /\ fresh st st' new
      /\ NoDup (map (path_of (heap st')) new)
      /\ Forall (fun l : loc =>
                   exists e e0 x,
                     heap st' !! l = Some e /\ In x child_repos /\ Dx x e0
                     /\ e = set_path e0 (path_join (as_name (fst x)) (path e0))) new.
Proof.
  induction child_repos as [|[co call] rest IH]; intros Hns Hnd Hall acc st refs st' Hcold Hrun.
  - simpl in Hrun. injection Hrun as <- <-. exists []. rewrite app_nil_r.
    split; [reflexivity|]. split; [apply frame_refl|]. split; [apply touched_refl|].
    split; [constructor|]. split; constructor.
  - inversion Hns as [|? ? Hns1 Hns']; subst.
    simpl in Hnd. apply list.NoDup_cons in Hnd as [Hnotin Hnd'].
    inversion Hall as [|? ? Hcall Hall']; subst.
    inversion Hcold as [|? ? Hcold1 Hcold']; subst. simpl in *.
    unfold bind in Hrun.
    destruct (call st) as [[e|refs1] st1] eqn:Ecall; [discriminate|].
    destruct (Hcall st refs1 st1 Hcold1 Ecall) as (F1 & T1 & Fr1 & ND1 & D1).
    unfold fresh in Fr1.
    assert (Hnd1 : NoDup refs1).
    { change (NoDup (path_of (heap st1) <$> refs1)) in ND1.
      eapply NoDup_fmap_1. exact ND1. }
    assert (Hv1 : Forall (fun l : loc => (l < length (heap st1))%nat) refs1).
    { eapply Forall_impl; [|exact Fr1]. intros l Hl. simpl in Hl. lia. }
    destruct (prefix_paths_exact (as_name co ++ "/") refs1 st1 Hnd1 Hv1)
      as (h2 & Heq & Hlen & Hout & Hin).
    rewrite Heq in Hrun.
    set (st2 := mkState (_recent_files_cache st1) h2 (ticks st1)) in *.
    assert (Hcold2 : Forall (fun x => cold (path_join root (as_name (fst x))) st2) rest).
    { rewrite Forall_forall in *. intros x Hx k limit exts Hk. simpl.
      rewrite T1; [now apply (Hcold' x Hx)|].
      intros Hk1. apply Hnotin.
      assert (as_name co = as_name (fst x)) as ->.
      { eapply (below_siblings root); [exact Hns1 | apply (Hns' x Hx) | exact Hk1 | exact Hk]. }
      apply list_elem_of_In, in_map_iff. exists x. split; [reflexivity | exact Hx]. }
    destruct (IH Hns' Hnd' Hall' (acc ++ refs1) st2 refs st' Hcold2 Hrun)
      as (new2 & Hrefs & F2 & T2 & Fr2 & ND2 & D2).
    unfold fresh in Fr2 |- *.
    destruct F1 as [L1 F1]. destruct F2 as [L2 F2]. simpl in L2, F2.
    assert (Hold : forall l : loc, l ∈ refs1 -> heap st' !! l = h2 !! l).
    { intros l Hl. apply F2. rewrite Hlen. rewrite Forall_forall in Hv1.
      apply Hv1. now apply list_elem_of_In. }
    exists (refs1 ++ new2). split; [now rewrite Hrefs, app_assoc|].
    split; [|split; [|split; [|split]]].
    + split; [lia|]. intros l Hl. rewrite F2 by lia. rewrite Hout; [now apply F1|].
      intros Hl1. rewrite Forall_forall in Fr1. apply list_elem_of_In, Fr1 in Hl1. lia.
    + intros k limit exts Hk. rewrite T2.
      * simpl. apply T1. intros Hk1. apply Hk. exists (co, call). split; [now left | exact Hk1].
      * intros (x & Hx & Hkx). apply Hk. exists x. split; [now right | exact Hkx].
    + apply Forall_app. split.
      * eapply Forall_impl; [|exact Fr1]. intros l Hl. simpl in Hl. lia.
      * eapply Forall_impl; [|exact Fr2]. intros l Hl. simpl in Hl. lia.
    + rewrite map_app. apply list.NoDup_app. split; [|split; [|exact ND2]].
      * assert (E : map (path_of (heap st')) refs1
                    = map (String.append (as_name co ++ "/")) (map (path_of (heap st1)) refs1)).
        { rewrite map_map. apply map_ext_in. intros l Hl. apply list_elem_of_In in Hl.
          unfold path_of. rewrite (Hold l Hl).
          rewrite Forall_forall in D1.
          destruct (D1 l (proj1 (list_elem_of_In _ _) Hl)) as (e0 & He0 & _).
          rewrite (Hin l e0 Hl He0), He0. reflexivity. }
        rewrite E. change (NoDup (String.append (as_name co ++ "/")
                                    <$> map (path_of (heap st1)) refs1)).
        apply NoDup_fmap_2; [|exact ND1]. intros a b. apply (inj (String.append _)).
      * intros p Hp1 Hp2.
        apply list_elem_of_In, in_map_iff in Hp1 as (l1 & Hl1 & Hin1).
        apply list_elem_of_In, in_map_iff in Hp2 as (l2 & Hl2 & Hin2).
        apply list_elem_of_In in Hin1.
        rewrite Forall_forall in D1, D2.
        destruct (D1 l1 (proj1 (list_elem_of_In _ _) Hin1)) as (e0 & He0 & _).
        destruct (D2 l2 Hin2) as (e2 & e02 & x & He2 & Hx & _ & Hform).
        unfold path_of in Hl1, Hl2.
        rewrite (Hold l1 Hin1), (Hin l1 e0 Hin1 He0) in Hl1. simpl in Hl1.
        rewrite He2, Hform in Hl2. simpl in Hl2.
        rewrite prefix_is_join in Hl1. rewrite <- Hl1 in Hl2.
        apply Hnotin. rewrite Forall_forall in Hns'.
        assert (as_name (fst x) = as_name co) as <-.
        { eapply path_join_head; [apply (Hns' x Hx) | exact Hns1 | exact Hl2]. }
        apply list_elem_of_In, in_map_iff. exists x. split; [reflexivity | exact Hx].
    + apply Forall_app. split.
      * apply Forall_forall. intros l Hl. apply list_elem_of_In in Hl.
        rewrite Forall_forall in D1.
        destruct (D1 l (proj1 (list_elem_of_In _ _) Hl)) as (e0 & He0 & HD).
        exists (set_path e0 ((as_name co ++ "/") ++ path e0)), e0, (co, call).
        split; [rewrite (Hold l Hl); now apply Hin|].
        split; [now left|]. split; [exact HD|]. simpl. now rewrite prefix_is_join.
      * eapply Forall_impl; [|exact D2].
        intros l (e & e0 & x & He & Hx & HD & Hform). exists e, e0, x.
        split; [exact He|]. split; [now right|]. split; assumption.
Qed.

(** The paths that the scan of a container may report are pairwise
    distinct, and none of them starts with the name of a child
    repository. *)
Lemma entry_blocks_perm (exclude : gset string) (names : gset string)
      (entries : list DirEntry) :
  Permutation
    (concat (map (entry_block exclude names) entries))
    (map name entries
     ++ concat (map (fun d => if pruned exclude (name d) || bool_decide (name d ∈ names)
                              then []
                              else map (path_join (name d)) (tree_paths exclude (tree d)))
                    entries)).
Proof.
  induction entries as [|d entries IH]; [constructor|].
  change (concat (map (entry_block exclude names) (d :: entries)))
    with (entry_block exclude names d ++ concat (map (entry_block exclude names) entries)).
  unfold entry_block at 1. simpl. constructor.
  rewrite IH. apply Permutation_app_swap_app.
Qed.

Lemma entry_blocks_NoDup (exclude : gset string) (names : gset string)
      (entries : list DirEntry) :
  wf_entries entries -> NoDup (concat (map (entry_block exclude names) entries)).
Proof.
  intros Hwf. eapply NoDup_Permutation_proper; [apply entry_blocks_perm|].
  eapply sublist_NoDup;
    [apply (tree_paths_NoDup exclude _ (root_tree_wf entries Hwf))|].
  rewrite root_tree_paths. apply sublist_app; [reflexivity|].
  apply sublist_concat_map; [reflexivity|].
  intros d _. destruct (pruned exclude (name d)); simpl; [reflexivity|].
  destruct (bool_decide (name d ∈ names)); [apply sublist_nil_l | reflexivity].
Qed.

Lemma entry_blocks_elem (exclude : gset string) (names : gset string)
      (entries : list DirEntry) (p : string) :
  wf_entries entries ->
  In p (concat (map (entry_block exclude names) entries)) ->
  no_slash p \/ exists d y, (d ∉ names) /\ no_slash d /\ p = path_join d y.
Proof.
  intros [_ Hall] Hp. apply in_concat in Hp as (blk & Hblk & Hp).
  apply in_map_iff in Hblk as (d & <- & Hd).
  rewrite Forall_forall in Hall. destruct (Hall d Hd) as [Hns _].
  unfold entry_block in Hp. destruct Hp as [<-|Hp]; [now left|].
  destruct (pruned exclude (name d) || bool_decide (name d ∈ names)) eqn:E;
    [contradiction|].
  apply in_map_iff in Hp as (y & <- & _). right. exists (name d), y.
  apply orb_false_iff in E as [_ E]. apply bool_decide_eq_false in E. auto.
Qed.

Lemma container_files_spec (exclude : gset string) (exts : list string)
      (names : gset string) (root : string) (o : Obs) (found : list Entry) :
  container_files isoformat exclude exts names root o = inr found ->
  Forall (untracked_record isoformat o root) found
  /\ (wf_obs o ->
      NoDup (map path found)
      /\ Forall (fun e => no_slash (path e)
                          \/ exists d y, (d ∉ names) /\ no_slash d /\ path e = path_join d y)
                found).
Proof.
  unfold container_files. destruct (scandir o) as [[| |]|entries] eqn:Escan; try discriminate.
  { intros H. injection H as <-. split; [constructor|]. intros _. split; constructor. }
  destruct (container_scan_spec isoformat exclude exts names root o entries [])
    as (added & H1 & H2 & H3).
  destruct (container_scan isoformat exclude exts names root o entries []) as [r x].
  simpl in H1. subst r. intros H.
  assert (found = added) as -> by (destruct x as [[| |]|]; try discriminate; now injection H).
  split.
  - eapply Forall_impl; [|exact H3]. intros e [He|He].
    + eapply listed_untracked; eassumption.
    + now apply found_untracked.
  - intros [Hwf _]. specialize (Hwf entries Escan). split.
    + eapply sublist_NoDup; [apply (entry_blocks_NoDup exclude names entries Hwf) | exact H2].
    + apply Forall_forall. intros e He.
      apply (entry_blocks_elem exclude names entries (path e) Hwf).
      apply list_elem_of_In. eapply sublist_subseteq; [exact H2|].
      apply list_elem_of_In, in_map. exact He.
Qed.

(** [_get_recent_files_from_child_repos] when every child service
    computes: a returned record is a renamed record of a child, or a file
    without history found by the scan of the container. *)
Lemma container_computes (exclude : gset string) (root : string) (o : Obs)
      (Dx : Obs * M (list loc) -> Entry -> Prop)
      (child_repos : list (Obs * M (list loc))) (limit : Z) (extensions : list string) :
  wf_obs o ->
  Forall (fun x => no_slash (as_name (fst x))) child_repos ->
  NoDup (map (fun x => as_name (fst x)) child_repos) ->
  Forall (fun x => computes (path_join root (as_name (fst x))) (Dx x) (snd x)) child_repos ->
  forall st refs st',
    Forall (fun x => cold (path_join root (as_name (fst x))) st) child_repos ->
    _get_recent_files_from_child_repos isoformat exclude root o child_repos limit extensions st
    = (inr refs, st') ->
    frame st st'
    /\ touched (fun k => exists x, In x child_repos
                                   /\ below (path_join root (as_name (fst x))) k) st st'
    /\ fresh st st' refs
    /\ NoDup (map (path_of (heap st')) refs)
    /\ Forall (fun l : loc =>
                 exists e,
                   heap st' !! l = Some e
                   /\ (untracked_record isoformat o root e
                       \/ exists e0 x,
                            In x child_repos /\ Dx x e0
                            /\ e = set_path e0 (path_join (as_name (fst x)) (path e0))))
              refs.
Proof.
  intros Hwf Hns Hnd Hall st refs st' Hcold Hrun.
  unfold _get_recent_files_from_child_repos, bind in Hrun.
  destruct (collect_children child_repos [] st) as [[e|from_children] st1] eqn:Ecol;
    [discriminate|].
  destruct (collect_children_computes root Dx child_repos Hns Hnd Hall [] st
              from_children st1 Hcold Ecol) as (new & Hnew & F1 & T1 & Fr1 & ND1 & D1).
  simpl in Hnew. subst new. unfold lift in Hrun.
  destruct (container_files _ _ _ _ _ _) as [e|found] eqn:Ef; [discriminate|].
  rewrite alloc_list_eq in Hrun. simpl in Hrun. unfold read_heap, ret in Hrun.
  simpl in Hrun. injection Hrun as <- <-. simpl.
  destruct (container_files_spec _ _ _ _ _ _ Ef) as (Hu & Hwfc).
  destruct (Hwfc Hwf) as (NDf & Hform). clear Hwfc.
  unfold fresh in *. destruct F1 as [L1 F1].
  assert (Hv1 : Forall (fun l : loc => (l < length (heap st1))%nat) from_children).
  { eapply Forall_impl; [|exact Fr1]. intros l Hl. simpl in Hl. lia. }
  assert (Hpaths : map (path_of (heap st1 ++ found)) from_children
                   = map (path_of (heap st1)) from_children).
  { apply (path_of_frame st1 (mkState (_recent_files_cache st1) (heap st1 ++ found)
                                      (ticks st1))); [|exact Hv1].
    split; simpl; [rewrite length_app; lia|]. intros l Hl. now apply lookup_app_l. }
  split; [|split; [|split; [|split]]].
  - split; simpl; [rewrite length_app; lia|].
    intros l Hl. rewrite lookup_app_l by lia. now apply F1.
  - exact T1.
  - apply slice_to_Forall. eapply Permutation_Forall; [symmetry; apply stable_sort_perm|].
    apply Forall_app. split.
    + eapply Forall_impl; [|exact Fr1]. intros l Hl. simpl in *. rewrite length_app. lia.
    + apply Forall_forall. intros l Hl. apply in_seq in Hl. simpl. rewrite length_app. lia.
  - apply slice_to_NoDup. eapply NoDup_Permutation_proper;
      [apply Permutation_map; apply stable_sort_perm|].
    rewrite map_app, Hpaths, path_of_fresh.
    apply list.NoDup_app. split; [exact ND1|]. split; [|exact NDf].
    intros p Hp1 Hp2.
    apply list_elem_of_In, in_map_iff in Hp1 as (l1 & Hl1 & Hin1).
    apply list_elem_of_In, in_map_iff in Hp2 as (e2 & He2 & Hin2).
    rewrite Forall_forall in D1, Hform.
    destruct (D1 l1 Hin1) as (e & e0 & x & He & Hx & _ & Hshape).
    unfold path_of in Hl1. rewrite He, Hshape in Hl1. simpl in Hl1.
    rewrite Forall_forall in Hns.
    destruct (Hform e2 Hin2) as [Hno|(d & y & Hd & Hnsd & Hp)].
    + apply (path_join_has_slash (as_name (fst x)) (path e0)).
      now rewrite Hl1, <- He2.
    + apply Hd. rewrite He2, <- Hl1 in Hp.
      assert (as_name (fst x) = d) as <-.
      { eapply path_join_head; [apply (Hns x Hx) | exact Hnsd | exact Hp]. }
      apply elem_of_list_to_set, list_elem_of_In, in_map_iff.
      exists x. split; [reflexivity | exact Hx].
  - apply slice_to_Forall. eapply Permutation_Forall; [symmetry; apply stable_sort_perm|].
    apply Forall_app. split.
    + rewrite Forall_forall in D1, Hv1. apply Forall_forall. intros l Hl.
      destruct (D1 l Hl) as (e & e0 & x & He & Hx & HD & Hshape).
      exists e. split; [rewrite lookup_app_l by (now apply Hv1); exact He|].
      right. exists e0, x. auto.
    + apply lookup_fresh. eapply Forall_impl; [|exact Hu]. intros e He. now left.
Qed.

Lemma computes_weaken (root : string) (D D' : Entry -> Prop) (m : M (list loc)) :
  (forall e, D e -> D' e) -> computes root D m -> computes root D' m.
Proof.
  intros HD Hm st refs st' Hcold Hrun.
  destruct (Hm st refs st' Hcold Hrun) as (F & T & Fr & ND & HDs).
  repeat (split; [assumption|]).
  eapply Forall_impl; [|exact HDs]. intros l (e & He & H). exists e. auto.
Qed.

Lemma untracked_record_dated (root : string) (o : Obs) (children : list Ctx) (e : Entry) :
  untracked_record isoformat o root e -> dated isoformat root (mkCtx o children) e.
Proof.
  intros (fs & Hs & He). exists (st_mtime fs). split; [now constructor|]. now rewrite He.
Qed.

Lemma tracked_record_dated (root wd : string) (o : Obs) (children : list Ctx) (e : Entry) :
  tracked_record isoformat o root wd e -> dated isoformat root (mkCtx o children) e.
Proof.
  intros (fs & sha & author & ts & msg & Hs & _ & He).
  exists (st_mtime fs). split; [now constructor|]. now rewrite He.
Qed.

(** A call of the entry point on a cold cache computes, at every depth. *)
Lemma get_recently_changed_files_computes (c : Ctx) :
  wf_ctx c ->
  forall exclude root limit extensions,
    computes root (dated isoformat root c)
      (get_recently_changed_files isoformat monotonic exclude root c limit extensions).
Proof.
  induction c as [o children IH] using Ctx_forall_ind.
  intros Hwf exclude root limit extensions st refs st' Hcold Hrun.
  inversion Hwf as [o' children' Hobs Hnames Hslash Hsub]; subst.
  rewrite get_recently_changed_files_run in Hrun. cbv zeta in Hrun.
  rewrite (Hcold root limit (default_extensions extensions) (below_refl root)) in Hrun.
  simpl cache_hit in Hrun.
  set (exts := default_extensions extensions) in *.
  set (st0 := mkState (_recent_files_cache st) (heap st) (S (ticks st))) in *.
  enough (H0 : frame st0 st' /\ touched (below root) st0 st' /\ fresh st0 st' refs
               /\ NoDup (map (path_of (heap st')) refs)
               /\ Forall (fun l : loc =>
                            exists e, heap st' !! l = Some e
                                      /\ dated isoformat root (mkCtx o children) e) refs)
    by exact H0.
  destruct (working_dir o) as [wd|] eqn:Hwd.
  - eapply leaf_computes; [|exact Hrun].
    intros trimmed H. apply recent_versioned_inv in H as (results & Hm & ->).
    destruct (merged_results_spec isoformat exclude root wd o exts results Hm)
      as (Hnd & Hall & _).
    split.
    + apply slice_to_NoDup, NoDup_sort_by_date, Hnd, Hobs.
    + apply slice_to_Forall. eapply Permutation_Forall; [symmetry; apply stable_sort_perm|].
      eapply Forall_impl; [|exact Hall]. intros e [H|H].
      * now apply untracked_record_dated.
      * eapply tracked_record_dated. exact H.
  - destruct (_discover_child_git_repos exclude o _) as [e|child_repos] eqn:Hd;
      [discriminate|].
    destruct child_repos as [|cr crs].
    + eapply leaf_computes; [|exact Hrun].
      intros trimmed H.
      destruct (recent_plain_spec isoformat exclude root o limit trimmed H) as (Hnd & Hall).
      split; [apply Hnd, Hobs|].
      eapply Forall_impl; [|exact Hall]. intros e. apply untracked_record_dated.
    + remember (cr :: crs) as child_repos eqn:Ecr.
      assert (Hfrom : forall x, In x child_repos ->
                exists ch, In ch children
                           /\ x = (ctx_obs ch,
                                   get_recently_changed_files isoformat monotonic exclude
                                     (path_join root (as_name (ctx_obs ch))) ch limit
                                     (Some exts))).
      { intros x Hx. apply list_elem_of_In in Hx. eapply discover_elem in Hx; [|exact Hd].
        apply list_elem_of_In, in_map_iff in Hx as (ch & <- & Hch). eauto. }
      set (Dx := fun (x : Obs * M (list loc)) (e0 : Entry) =>
                   exists ch, In ch children /\ fst x = ctx_obs ch
                              /\ dated isoformat (path_join root (as_name (ctx_obs ch))) ch e0).
      rewrite Forall_forall in IH, Hslash, Hsub.
      assert (Hns : Forall (fun x => no_slash (as_name (fst x))) child_repos).
      { apply Forall_forall. intros x Hx. destruct (Hfrom x Hx) as (ch & Hch & ->).
        simpl. now apply Hslash. }
      assert (Hnd : NoDup (map (fun x => as_name (fst x)) child_repos)).
      { eapply sublist_NoDup; [exact Hnames|].
        apply discover_sublist in Hd.
        apply (fmap_sublist (fun x => as_name (fst x))) in Hd.
        change (map (fun x => as_name (fst x)) child_repos
                  `sublist_of` map (fun x : Obs * M (list loc) => as_name (fst x))
                                   (map (fun ch =>
                                           (ctx_obs ch,
                                            get_recently_changed_files isoformat monotonic
                                              exclude (path_join root (as_name (ctx_obs ch)))
                                              ch limit (Some exts))) children)) in Hd.
        rewrite map_map in Hd. exact Hd. }
      assert (Hall : Forall (fun x => computes (path_join root (as_name (fst x))) (Dx x)
                                               (snd x)) child_repos).
      { apply Forall_forall. intros x Hx. destruct (Hfrom x Hx) as (ch & Hch & ->). simpl.
        eapply computes_weaken; [|apply (IH ch Hch (Hsub ch Hch))].
        intros e He. exists ch. auto. }
      assert (Hcolds : Forall (fun x => cold (path_join root (as_name (fst x))) st0)
                              child_repos).
      { apply Forall_forall. intros x _. eapply (cold_below root); [|exact Hcold].
        right. eexists. reflexivity. }
      unfold bind in Hrun.
      destruct (_get_recent_files_from_child_repos _ _ _ _ _ _ _ st0) as [[e|merged] st1]
        eqn:Ec; [discriminate|].
      destruct (container_computes exclude root o Dx child_repos limit exts Hobs Hns Hnd Hall
                  st0 merged st1 Hcolds Ec) as (F & T & Fr & ND & HD).
      rewrite store_spec in Hrun. injection Hrun as <- <-.
      split; [exact F|]. split; [|split; [exact Fr|split; [exact ND|]]].
      * intros k limit' exts' Hk. simpl. rewrite lookup_insert_ne.
        -- apply T. intros (x & Hx & Hb). apply Hk. eapply below_trans; [|exact Hb].
           right. eexists. reflexivity.
        -- intros H. injection H as <- _ _. apply Hk, below_refl.
      * eapply Forall_impl; [|exact HD]. simpl.
        intros l (e & He & Hcase). exists e. split; [exact He|].
        destruct Hcase
          as [Hu|(e0 & x & Hx & (ch & Hch & Hfst & mtime & Hm & Hdate) & Heq)].
        -- now apply untracked_record_dated.
        -- exists mtime. rewrite Heq. simpl. rewrite Hfst.
           split; [now apply mtime_child | exact Hdate].
Qed.

(** On a cold cache, over well-formed listings, a call returns no path
    twice, in each of the three modes. *)
Lemma computed_paths_distinct (exclude : gset string) (root : string) (c : Ctx) (limit : Z)
      (extensions : option (list string)) (st st' : State) (refs : list loc) :
  wf_ctx c -> cold root st ->
  get_recently_changed_files isoformat monotonic exclude root c limit extensions st
  = (inr refs, st') ->
  NoDup (map path (deref (heap st') refs)).
Proof.
  intros Hwf Hcold Hrun.
  destruct (get_recently_changed_files_computes c Hwf exclude root limit extensions
              st refs st' Hcold Hrun) as (_ & _ & Fr & ND & _).
  rewrite deref_paths; [exact ND|].
  eapply Forall_impl; [|exact Fr]. intros l Hl. simpl in Hl. lia.
Qed.


End ComputingCalls.





(** ** Paths of one result *)

(** C2 (the code departs from the claim).  The directory [/r] is asked for
    two files, then the repository [/r/g/g] two levels below it, within the
    TTL and without a flush.  Asked on its own, the repository reports
    [a.md] and [g/a.md].  During the call on [/r] the middle directory
    renames both of its records to [g/a.md] and [g/g/a.md], keeps the first
    of them within its limit, and [/r] renames that one to [g/g/a.md]; both
    renamings are made in place on the records that the repository's cache
    entry holds.  The second call is served from that entry and returns two
    records with the same path. *)
Theorem C2_cached_duplicate_paths :
  let call := GitService.get_recently_changed_files
                Scenarios.isoformat Scenarios.monotonic ∅ in
  let alone := call "/r/g/g" Scenarios.nested_repo 2%Z None GitService.initial_state in
  let r1 := call "/r" Scenarios.outer 2%Z None GitService.initial_state in
  let r2 := call "/r/g/g" Scenarios.nested_repo 2%Z None (snd r1) in
  Scenarios.returned_paths alone = Some ["a.md"; "g/a.md"]
  /\ Scenarios.returned_paths r1 = Some ["g/g/a.md"; "g/f.md"]
  /\ (Scenarios.monotonic (GitService.ticks (snd r1)) < GitService._RECENT_FILES_TTL)%Z
  /\ Scenarios.returned_paths r2 = Some ["g/g/a.md"; "g/g/a.md"]
  /\ ~ NoDup ["g/g/a.md"; "g/g/a.md"].
Proof.
  vm_compute. repeat split; try reflexivity.
  intros H. apply list.NoDup_cons in H as [H _]. apply H. apply list_elem_of_here.
Qed.

(** ** Parsing a unified diff *)

Section DiffFacts.
Import Diff.

(** An invariant of a left fold, stated on the part of the list already
    read. *)
Lemma foldl_prefix_ind {A B : Type} (f : A -> B -> A) (P : list B -> A -> Prop) (a0 : A) :
  P [] a0 ->
  (forall pre x a, P pre a -> P (pre ++ [x]) (f a x)) ->
  forall l, P l (foldl f a0 l).
Proof.
  intros H0 Hstep l. induction l as [|x l IH] using rev_ind; [exact H0|].
  rewrite foldl_app. simpl. now apply Hstep.
Qed.

Definition is_header (line : string) : bool := PyStr.startswith "@@" line.

Definition header_line (h : string) : DiffLine := mkDiffLine "header" h None None.

Definition body_type (l : DiffLine) : Prop :=
  type l = "add" \/ type l = "delete" \/ type l = "context".

(** A hunk opens with the record of its header; the rest are added,
    deleted and context lines. *)
Definition well_shaped (h : DiffHunk) : Prop :=
  exists body, lines h = header_line (header h) :: body /\ Forall body_type body.

Lemma close_hunk_headers (st : ParseState) :
  map header (close_hunk st)
  = map header (hunks st)
    ++ match current_lines st with [] => [] | _ => [current_header st] end.
Proof.
  unfold close_hunk. destruct (current_lines st); [now rewrite app_nil_r|].
  now rewrite map_app.
Qed.

Lemma parse_line_cases (st : ParseState) (line : string) :
  (is_header line = true
   /\ parse_line st line
      = mkParseState (close_hunk st) [header_line line] line
          (match match_hunk_header line with Some (a, _) => a | None => old_no st end)
          (match match_hunk_header line with Some (_, c) => c | None => new_no st end))
  \/ (is_header line = false
      /\ (parse_line st line = st
          \/ exists l o n,
               current_lines st <> []
               /\ body_type l
               /\ parse_line st line
                  = mkParseState (hunks st) (current_lines st ++ [l]) (current_header st) o n)).
Proof.
  unfold parse_line, is_header. destruct (PyStr.startswith "@@" line).
  - left. split; [reflexivity|]. destruct (match_hunk_header line) as [[a c]|]; reflexivity.
  - right. split; [reflexivity|]. destruct (current_lines st) as [|l0 ls] eqn:E; [now left|].
    destruct (PyStr.startswith "+" line).
    { right. eexists _, _, _. split; [discriminate|]. split; [|reflexivity]. now left. }
    destruct (PyStr.startswith "-" line).
    { right. eexists _, _, _. split; [discriminate|]. split; [|reflexivity]. right. now left. }
    destruct (PyStr.startswith " " line || String.eqb line "").
    { right. eexists _, _, _. split; [discriminate|]. split; [|reflexivity]. right. now right. }
    now left.
Qed.

Lemma filter_snoc {A : Type} (f : A -> bool) (l : list A) (x : A) :
  List.filter f (l ++ [x]) = List.filter f l ++ (if f x then [x] else []).
Proof. rewrite List.filter_app. simpl. now destruct (f x). Qed.

Lemma parse_shape (ls : list string) :
  let st := foldl parse_line initial ls in
  map header (close_hunk st) = List.filter is_header ls
  /\ Forall well_shaped (hunks st)
  /\ (current_lines st = []
      \/ exists body, current_lines st = header_line (current_header st) :: body
                      /\ Forall body_type body).
Proof.
  apply (foldl_prefix_ind parse_line
           (fun pre st =>
              map header (close_hunk st) = List.filter is_header pre
              /\ Forall well_shaped (hunks st)
              /\ (current_lines st = []
                  \/ exists body, current_lines st = header_line (current_header st) :: body
                                  /\ Forall body_type body))).
  - simpl. split; [reflexivity|]. split; [constructor | now left].
  - intros pre x st (Hh & Hw & Hc). rewrite filter_snoc.
    assert (Hclose : Forall well_shaped (close_hunk st)).
    { unfold close_hunk. destruct Hc as [->|(body & E & Hb)]; [exact Hw|].
      rewrite E. apply Forall_app. split; [exact Hw|]. constructor; [|constructor].
      exists body. simpl. split; [reflexivity | exact Hb]. }
    destruct (parse_line_cases st x) as [[Hx ->]|[Hx [->|(l & o & n & Hne & Hl & ->)]]];
      rewrite Hx.
    + split; [|split; [exact Hclose|]].
      * rewrite close_hunk_headers. simpl. now rewrite Hh.
      * right. exists []. split; [reflexivity | constructor].
    + rewrite app_nil_r. auto.
    + rewrite app_nil_r. split; [|split; [exact Hw|]].
      * rewrite close_hunk_headers in *. simpl in *.
        destruct (current_lines st) as [|l0 ls0]; [contradiction|].
        destruct ((l0 :: ls0) ++ [l]) eqn:E; [destruct ls0; discriminate | exact Hh].
      * right. destruct Hc as [E|(body & E & Hb)]; [contradiction|].
        exists (body ++ [l]). simpl. rewrite E. split; [reflexivity|].
        apply Forall_app. split; [exact Hb | now constructor].
Qed.

End DiffFacts.

(** X1.  [_parse_diff] makes one hunk for every line of the diff that
    starts with [@@], in order and with that line as its header; a hunk
    opens with the record of its header, and the records after it are
    added, deleted or context lines.  A diff without such a line gives no
    hunk. *)
Theorem parse_diff_one_hunk_per_header (raw_diff : string) :
  map Diff.header (Diff._parse_diff raw_diff)
  = List.filter (PyStr.startswith "@@") (PyStr.split Diff.LF raw_diff)
  /\ Forall (fun h =>
               exists body,
                 Diff.lines h = Diff.mkDiffLine "header" (Diff.header h) None None :: body
                 /\ Forall (fun l => Diff.type l = "add" \/ Diff.type l = "delete"
                                     \/ Diff.type l = "context") body)
            (Diff._parse_diff raw_diff).
Proof.
  unfold Diff._parse_diff.
  destruct (parse_shape (PyStr.split Diff.LF raw_diff)) as (Hh & Hw & Hc).
  split; [exact Hh|].
  unfold Diff.close_hunk. destruct Hc as [->|(body & E & Hb)]; [exact Hw|].
  rewrite E. apply Forall_app. split; [exact Hw|]. constructor; [|constructor].
  exists body. simpl. split; [reflexivity | exact Hb].
Qed.
Section DiffNumbers.
Import Diff.

(** [start], [start + 1], ... ([n] numbers). *)
Definition zseq (start : Z) (n : nat) : list Z :=
  map (fun i => (start + Z.of_nat i)%Z) (seq 0 n).

Lemma zseq_snoc (start : Z) (n : nat) :
  zseq start (S n) = zseq start n ++ [(start + Z.of_nat n)%Z].
Proof. unfold zseq. rewrite seq_S, map_app. reflexivity. Qed.

Lemma zseq_length (start : Z) (n : nat) : length (zseq start n) = n.
Proof. unfold zseq. now rewrite length_map, length_seq. Qed.

(** The numbers of the lines of a list run from [a0] on the old side and
    from [c0] on the new side, and [o], [n] are the next ones. *)
Definition numbered_from (a0 c0 : Z) (ls : list DiffLine) (o n : Z) : Prop :=
  exists ko kn,
    omap old_line_no ls = zseq a0 ko /\ o = (a0 + Z.of_nat ko)%Z
    /\ omap new_line_no ls = zseq c0 kn /\ n = (c0 + Z.of_nat kn)%Z.

Definition numbered (h : DiffHunk) : Prop :=
  forall a c,
    match_hunk_header (header h) = Some (a, c) ->
    exists o n, numbered_from a c (lines h) o n.

Lemma numbered_from_snoc (a0 c0 : Z) (ls : list DiffLine) (o n : Z) (l : DiffLine) :
  numbered_from a0 c0 ls o n ->
  numbered_from a0 c0 (ls ++ [l])
    (match old_line_no l with Some _ => o + 1 | None => o end)%Z
    (match new_line_no l with Some _ => n + 1 | None => n end)%Z
  \/ old_line_no l <> None /\ old_line_no l <> Some o
  \/ new_line_no l <> None /\ new_line_no l <> Some n.
Proof.
  intros (ko & kn & Ho & -> & Hn & ->).
  destruct (old_line_no l) as [x|] eqn:Eo, (new_line_no l) as [y|] eqn:En.
  - destruct (decide (x = (a0 + Z.of_nat ko)%Z)) as [->|Hx];
      [|right; left; split; congruence].
    destruct (decide (y = (c0 + Z.of_nat kn)%Z)) as [->|Hy];
      [|right; right; split; congruence].
    left. exists (S ko), (S kn). rewrite !omap_app, Ho, Hn. simpl. rewrite Eo, En.
    rewrite !zseq_snoc. repeat split; lia.
  - destruct (decide (x = (a0 + Z.of_nat ko)%Z)) as [->|Hx];
      [|right; left; split; congruence].
    left. exists (S ko), kn. rewrite !omap_app, Ho, Hn. simpl. rewrite Eo, En.
    rewrite zseq_snoc, app_nil_r. repeat split; lia.
  - destruct (decide (y = (c0 + Z.of_nat kn)%Z)) as [->|Hy];
      [|right; right; split; congruence].
    left. exists ko, (S kn). rewrite !omap_app, Ho, Hn. simpl. rewrite Eo, En.
    rewrite zseq_snoc, app_nil_r. repeat split; lia.
  - left. exists ko, kn. rewrite !omap_app, Ho, Hn. simpl. rewrite Eo, En.
    rewrite !app_nil_r. auto.
Qed.

Definition numbered_state (st : ParseState) : Prop :=
  Forall numbered (hunks st)
  /\ (current_lines st = []
      \/ exists a0 c0,
           (forall a c, match_hunk_header (current_header st) = Some (a, c) ->
                        a0 = a /\ c0 = c)
           /\ numbered_from a0 c0 (current_lines st) (old_no st) (new_no st)).

Lemma numbered_close (st : ParseState) : numbered_state st -> Forall numbered (close_hunk st).
Proof.
  intros [Hh Hc]. unfold close_hunk.
  destruct Hc as [->|(a0 & c0 & Hm & Hn)]; [exact Hh|].
  destruct (current_lines st) as [|l ls] eqn:E; [exact Hh|].
  apply Forall_app. split; [exact Hh|]. constructor; [|constructor].
  intros a c Hac. simpl in *. destruct (Hm a c Hac) as [<- <-]. eauto.
Qed.

Lemma parse_line_numbered (st : ParseState) (line : string) :
  numbered_state st -> numbered_state (parse_line st line).
Proof.
  intros Hst. pose proof (numbered_close st Hst) as Hclose. destruct Hst as [Hh Hc].
  unfold parse_line. destruct (PyStr.startswith "@@" line).
  - split.
    + destruct (match_hunk_header line) as [[a c]|]; exact Hclose.
    + right. destruct (match_hunk_header line) as [[a c]|] eqn:Em; simpl.
      * exists a, c. split; [intros a' c' H; rewrite Em in H; injection H as <- <-; auto|].
        exists 0%nat, 0%nat. simpl. repeat split; lia.
      * exists (old_no st), (new_no st). split; [intros a c H; rewrite Em in H; discriminate|].
        exists 0%nat, 0%nat. simpl. repeat split; lia.
  - destruct (current_lines st) as [|l0 ls0] eqn:E; [split; [exact Hh | left; exact E]|].
    destruct Hc as [Hc|(a0 & c0 & Hm & Hn)]; [discriminate|].
    assert (Hstep : forall l,
               (old_line_no l = None \/ old_line_no l = Some (old_no st)) ->
               (new_line_no l = None \/ new_line_no l = Some (new_no st)) ->
               numbered_state
                 (mkParseState (hunks st) ((l0 :: ls0) ++ [l]) (current_header st)
                    (match old_line_no l with Some _ => old_no st + 1 | None => old_no st end)
                    (match new_line_no l with Some _ => new_no st + 1 | None => new_no st end))).
    { intros l Ho Hn'. split; [exact Hh|]. right. exists a0, c0. split; [exact Hm|]. simpl.
      destruct (numbered_from_snoc a0 c0 (l0 :: ls0) (old_no st) (new_no st) l Hn)
        as [H|[[H1 H2]|[H1 H2]]]; [exact H| |]; exfalso; tauto. }
    destruct (PyStr.startswith "+" line).
    { apply (Hstep (mkDiffLine "add" _ None (Some (new_no st)))); simpl; auto. }
    destruct (PyStr.startswith "-" line).
    { apply (Hstep (mkDiffLine "delete" _ (Some (old_no st)) None)); simpl; auto. }
    destruct (PyStr.startswith " " line || String.eqb line "").
    { apply (Hstep (mkDiffLine "context" _ (Some (old_no st)) (Some (new_no st))));
        simpl; auto. }
    split; [exact Hh|]. right. exists a0, c0. rewrite E. auto.
Qed.

Lemma parse_numbered (ls : list string) : numbered_state (foldl parse_line initial ls).
Proof.
  apply (foldl_prefix_ind parse_line (fun _ st => numbered_state st)).
  - split; [constructor | now left].
  - intros pre x st. apply parse_line_numbered.
Qed.

End DiffNumbers.

(** X2.  In every hunk whose header has the form [@@ -a[,b] +c[,d] @@],
    the old line numbers of the deleted and context lines are [a], [a+1],
    ... in order, and the new line numbers of the added and context lines
    are [c], [c+1], ... in order. *)
Theorem parse_diff_line_numbers (raw_diff : string) :
  Forall (fun h =>
            forall a c,
              Diff.match_hunk_header (Diff.header h) = Some (a, c) ->
              omap Diff.old_line_no (Diff.lines h)
              = map (fun i => (a + Z.of_nat i)%Z)
                    (seq 0 (length (omap Diff.old_line_no (Diff.lines h))))
              /\ omap Diff.new_line_no (Diff.lines h)
                 = map (fun i => (c + Z.of_nat i)%Z)
                       (seq 0 (length (omap Diff.new_line_no (Diff.lines h)))))
         (Diff._parse_diff raw_diff).
Proof.
  unfold Diff._parse_diff.
  pose proof (numbered_close _ (parse_numbered (PyStr.split Diff.LF raw_diff))) as H.
  eapply Forall_impl; [|exact H]. intros h Hh a c Hac.
  destruct (Hh a c Hac) as (o & n & ko & kn & Ho & _ & Hn & _).
  rewrite Ho, Hn, !zseq_length. split; reflexivity.
Qed.
Section DiffRoundTrip.
Import Diff.

(** A parsed line written back as a line of a diff. *)
Definition render (l : DiffLine) : string :=
  if String.eqb (type l) "header" then content l
  else if String.eqb (type l) "add" then String "+" (content l)
  else if String.eqb (type l) "delete" then String "-" (content l)
  else String " " (content l).

(** The lines that the parser keeps, once a hunk is open. *)
Definition recognized (line : string) : bool :=
  PyStr.startswith "@@" line || PyStr.startswith "+" line || PyStr.startswith "-" line
  || PyStr.startswith " " line || String.eqb line "".

(** The lines of a diff from its first hunk header on. *)
Fixpoint from_first_header (ls : list string) : list string :=
  match ls with
  | [] => []
  | l :: rest => if PyStr.startswith "@@" l then ls else from_first_header rest
  end.

(** An empty line is read as an empty context line. *)
Definition as_context (line : string) : string :=
  if String.eqb line "" then " " else line.

Lemma from_first_header_snoc (ls : list string) (x : string) :
  from_first_header (ls ++ [x])
  = match from_first_header ls with
    | [] => if PyStr.startswith "@@" x then [x] else []
    | found => found ++ [x]
    end.
Proof.
  induction ls as [|l ls IH]; cbn [from_first_header app]; [reflexivity|].
  destruct (PyStr.startswith "@@" l); [reflexivity | exact IH].
Qed.

Lemma startswith_char (c : ascii) (line : string) :
  PyStr.startswith (String c "") line = true -> String c (PyStr.drop 1 line) = line.
Proof.
  destruct line as [|d line]; simpl; [discriminate|].
  rewrite andb_true_r. intros H. apply Ascii.eqb_eq in H. now subst.
Qed.

Lemma close_hunk_lines (st : ParseState) :
  concat (map lines (close_hunk st)) = concat (map lines (hunks st)) ++ current_lines st.
Proof.
  unfold close_hunk. destruct (current_lines st) eqn:E; [now rewrite app_nil_r|].
  rewrite map_app, concat_app. simpl. now rewrite app_nil_r.
Qed.

Definition rendered (pre : list string) (st : ParseState) : Prop :=
  map render (concat (map lines (close_hunk st)))
  = map as_context (List.filter recognized (from_first_header pre))
  /\ (current_lines st = [] -> from_first_header pre = [])
  /\ (current_lines st <> [] -> from_first_header pre <> []).

Lemma as_context_nonempty (c : ascii) (line : string) :
  PyStr.startswith (String c "") line = true -> as_context line = line.
Proof. destruct line; [discriminate | reflexivity]. Qed.

Lemma parse_line_body (st : ParseState) (x : string) :
  PyStr.startswith "@@" x = false ->
  (parse_line st x = st /\ (current_lines st = [] \/ recognized x = false))
  \/ (exists l o n,
        current_lines st <> [] /\ recognized x = true /\ render l = as_context x
        /\ parse_line st x
           = mkParseState (hunks st) (current_lines st ++ [l]) (current_header st) o n).
Proof.
  intros Hx. unfold parse_line, recognized. rewrite Hx. cbn [orb].
  destruct (current_lines st) as [|l0 ls0] eqn:E; [left; auto|].
  destruct (PyStr.startswith "+" x) eqn:Hp.
  { right. eexists _, _, _. split; [discriminate|]. split; [reflexivity|].
    split; [|reflexivity]. unfold render. cbn [type content String.eqb Ascii.eqb Bool.eqb].
    now rewrite (startswith_char "+" x Hp), (as_context_nonempty "+" x Hp). }
  destruct (PyStr.startswith "-" x) eqn:Hm.
  { right. eexists _, _, _. split; [discriminate|]. split; [reflexivity|].
    split; [|reflexivity]. unfold render. cbn [type content String.eqb Ascii.eqb Bool.eqb].
    now rewrite (startswith_char "-" x Hm), (as_context_nonempty "-" x Hm). }
  destruct (PyStr.startswith " " x) eqn:Hs.
  { right. eexists _, _, _. split; [discriminate|]. split; [reflexivity|].
    split; [|reflexivity]. unfold render. cbn [type content String.eqb Ascii.eqb Bool.eqb].
    now rewrite (startswith_char " " x Hs), (as_context_nonempty " " x Hs). }
  cbn [orb]. destruct (String.eqb x "") eqn:Hz.
  { right. eexists _, _, _. split; [discriminate|]. split; [reflexivity|].
    split; [|reflexivity]. apply String.eqb_eq in Hz. subst x. reflexivity. }
  left. auto.
Qed.

Lemma parse_rendered (ls : list string) : rendered ls (foldl parse_line initial ls).
Proof.
  apply (foldl_prefix_ind parse_line rendered).
  - split; [reflexivity|]. split; [reflexivity|]. intros H. now elim H.
  - intros pre x st (Hr & He & Hne). unfold rendered.
    rewrite from_first_header_snoc. rewrite close_hunk_lines in *.
    destruct (PyStr.startswith "@@" x) eqn:Hx.
    + unfold parse_line. rewrite Hx.
      assert (Rx : recognized x = true) by (unfold recognized; now rewrite Hx).
      assert (Ax : as_context x = x).
      { unfold as_context. destruct x; [discriminate | reflexivity]. }
      destruct (match_hunk_header x) as [[a c]|]; cbn [current_lines hunks].
      all: split; [|split; [intros H; discriminate H|]].
      all: try (intros _; destruct (from_first_header pre) as [|f fs];
                [discriminate | destruct fs; discriminate]).
      all: rewrite close_hunk_lines, map_app, Hr.
      all: cbn [map render type content String.eqb Ascii.eqb Bool.eqb].
      all: destruct (from_first_header pre) as [|f fs].
      all: try (cbn [List.filter map]; rewrite Rx; cbn [map]; now rewrite Ax).
      all: rewrite filter_snoc, Rx, map_app; cbn [map]; now rewrite Ax.
    + destruct (parse_line_body st x Hx)
        as [[-> Hcase]|(l & o & n & Hcur & Rx & Hl & ->)].
      * split; [|split].
        -- rewrite Hr. destruct (from_first_header pre) as [|f fs] eqn:Ef; [reflexivity|].
           destruct Hcase as [Hc|Rx]; [discriminate (He Hc)|].
           now rewrite filter_snoc, Rx, app_nil_r.
        -- intros Hc. now rewrite (He Hc).
        -- intros Hc. specialize (Hne Hc).
           destruct (from_first_header pre); [contradiction | destruct l; discriminate].
      * cbn [current_lines hunks]. specialize (Hne Hcur).
        destruct (from_first_header pre) as [|f fs] eqn:Ef; [contradiction|].
        split; [|split].
        -- rewrite app_assoc, map_app, Hr, filter_snoc, Rx, map_app. cbn [map].
           now rewrite Hl.
        -- intros H. destruct (current_lines st); discriminate.
        -- intros _. destruct fs; discriminate.
Qed.

(** While no hunk is open, none has been closed. *)
Lemma open_after_header (ls : list string) :
  current_lines (foldl parse_line initial ls) = [] -> hunks (foldl parse_line initial ls) = [].
Proof.
  apply (foldl_prefix_ind parse_line
           (fun _ st => current_lines st = [] -> hunks st = [])).
  - reflexivity.
  - intros pre x st IH. unfold parse_line.
    destruct (PyStr.startswith "@@" x).
    + destruct (match_hunk_header x) as [[a c]|]; intros H; discriminate H.
    + destruct (current_lines st) as [|l0 ls0] eqn:E; [now rewrite E|].
      destruct (PyStr.startswith "+" x); [intros H; destruct ls0; discriminate H|].
      destruct (PyStr.startswith "-" x); [intros H; destruct ls0; discriminate H|].
      destruct (PyStr.startswith " " x || String.eqb x "");
        [intros H; destruct ls0; discriminate H|].
      rewrite E. intros H. discriminate H.
Qed.

Lemma split_trailing_newline (raw_diff : string) :
  PyStr.split LF (raw_diff ++ String LF "") = PyStr.split LF raw_diff ++ [""].
Proof. apply (split_app LF raw_diff ""). Qed.

End DiffRoundTrip.

(** X3.  Writing the parsed lines back, each with the sign of its type
    before its content, gives the diff from its first [@@] line on, without
    the lines that start with none of [@@], [+], [-] and a blank (such as
    ["\ No newline at end of file"]), an empty line standing for an empty
    context line.  Everything before the first [@@] line is dropped. *)
Theorem parse_diff_round_trip (raw_diff : string) :
  map render (concat (map Diff.lines (Diff._parse_diff raw_diff)))
  = map as_context
        (List.filter recognized (from_first_header (PyStr.split Diff.LF raw_diff))).
Proof.
  unfold Diff._parse_diff.
  exact (proj1 (parse_rendered (PyStr.split Diff.LF raw_diff))).
Qed.

(** X4.  A diff that ends with a line break, as the output of [git] does,
    is parsed like the diff without it, with one more record at the end of
    the last hunk: a context line with empty content, numbered like a line
    of the file. *)
Theorem parse_diff_trailing_newline (raw_diff : string) (hs : list Diff.DiffHunk)
        (h : Diff.DiffHunk) :
  Diff._parse_diff raw_diff = hs ++ [h] ->
  exists o n,
    Diff._parse_diff (raw_diff ++ String Diff.LF "")
    = hs ++ [Diff.mkDiffHunk (Diff.header h)
               (Diff.lines h ++ [Diff.mkDiffLine "context" "" (Some o) (Some n)])].
Proof.
  unfold Diff._parse_diff. rewrite split_trailing_newline, foldl_app.
  cbn [foldl].
  set (st := foldl Diff.parse_line Diff.initial (PyStr.split Diff.LF raw_diff)).
  intros H. exists (Diff.old_no st), (Diff.new_no st).
  pose proof (open_after_header (PyStr.split Diff.LF raw_diff)) as Hopen. fold st in Hopen.
  unfold Diff.close_hunk in H.
  destruct (Diff.current_lines st) as [|l ls] eqn:E.
  - rewrite (Hopen eq_refl) in H. destruct hs; discriminate.
  - apply app_inj_tail in H as [<- <-].
    unfold Diff.parse_line, Diff.close_hunk. rewrite E.
    cbn [PyStr.startswith Diff.current_lines Diff.hunks Diff.current_header Diff.header
         Diff.lines String.eqb orb].
    destruct ((l :: ls) ++ [Diff.mkDiffLine "context" "" (Some (Diff.old_no st))
                              (Some (Diff.new_no st))]) eqn:E2;
      [destruct ls; discriminate|].
    rewrite <- E2. reflexivity.
Qed.
Lemma parse_diff_line_numbers_witness :
  let raw_diff := ("@@ -3,2 +5,3 @@" ++ String Diff.LF (" a" ++ String Diff.LF ("-b"
                   ++ String Diff.LF ("+c" ++ String Diff.LF "+d"))))%string in
  Diff.match_hunk_header "@@ -3,2 +5,3 @@" = Some (3, 5)%Z
  /\ map (fun h => omap Diff.new_line_no (Diff.lines h)) (Diff._parse_diff raw_diff)
     = [[5; 6; 7]%Z]
  /\ Forall (fun h =>
               forall a c,
                 Diff.match_hunk_header (Diff.header h) = Some (a, c) ->
                 omap Diff.old_line_no (Diff.lines h)
                 = map (fun i => (a + Z.of_nat i)%Z)
                       (seq 0 (length (omap Diff.old_line_no (Diff.lines h))))
                 /\ omap Diff.new_line_no (Diff.lines h)
                    = map (fun i => (c + Z.of_nat i)%Z)
                          (seq 0 (length (omap Diff.new_line_no (Diff.lines h)))))
            (Diff._parse_diff raw_diff).
Proof.
  intros raw_diff. split; [reflexivity|]. split; [reflexivity|].
  apply (parse_diff_line_numbers raw_diff).
Defined.

Lemma parse_diff_trailing_newline_witness :
  let h := Diff.mkDiffHunk "@@ -1 +1 @@"
             [Diff.mkDiffLine "header" "@@ -1 +1 @@" None None;
              Diff.mkDiffLine "add" "a" None (Some 1%Z)] in
  let raw_diff := ("@@ -1 +1 @@" ++ String Diff.LF "+a")%string in
  Diff._parse_diff raw_diff = [] ++ [h]
  /\ exists o n,
       Diff._parse_diff (raw_diff ++ String Diff.LF "")
       = [] ++ [Diff.mkDiffHunk (Diff.header h)
                  (Diff.lines h ++ [Diff.mkDiffLine "context" "" (Some o) (Some n)])].
Proof.
  intros h raw_diff. split; [reflexivity|].
  apply (parse_diff_trailing_newline raw_diff [] h). reflexivity.
Defined.

(** ** The daemon's configuration *)

Section ConfigFacts.
Import GitService Config.
Variable path_exists : string -> result bool.
Variable path_is_dir : string -> result bool.

Definition is_directory (p : string) : Prop :=
  path_exists p = inr true /\ path_is_dir p = inr true.

Lemma check_path_spec (p missing not_dir : string) (errors out : list string) :
  check_path path_exists path_is_dir p missing not_dir errors = inr out ->
  (exists added, out = errors ++ added) /\ (out = errors <-> is_directory p).
Proof.
  unfold check_path, is_directory.
  destruct (path_exists p) as [e|[|]]; [discriminate| |].
  - destruct (path_is_dir p) as [e|[|]]; [discriminate| |]; intros H; injection H as <-.
    + split; [exists []; now rewrite app_nil_r | tauto].
    + split; [eauto|]. split; [|intros [_ H]; discriminate].
      intros H. apply (f_equal length) in H. rewrite length_app in H. simpl in H. lia.
  - intros H; injection H as <-. split; [eauto|]. split; [|intros [H _]; discriminate].
    intros H. apply (f_equal length) in H. rewrite length_app in H. simpl in H. lia.
Qed.

Lemma grows_eq (errors added more : list string) :
  (errors ++ added) ++ more = errors <-> added = [] /\ more = [].
Proof.
  split; [|intros [-> ->]; now rewrite !app_nil_r].
  intros H. apply (f_equal length) in H. rewrite !length_app in H.
  destruct added, more; simpl in H; try lia. auto.
Qed.

Lemma check_roots_spec (repo_name : string) (allowed : list string) :
  forall errors out,
    check_roots path_exists path_is_dir repo_name allowed errors = inr out ->
    (exists added, out = errors ++ added)
    /\ (out = errors <-> Forall is_directory allowed).
Proof.
  induction allowed as [|a rest IH]; intros errors out; simpl.
  - intros H; injection H as <-. split; [exists []; now rewrite app_nil_r|]. split; auto.
  - destruct (check_path _ _ a _ _ errors) as [e|errors1] eqn:E1; [discriminate|].
    intros H. destruct (check_path_spec _ _ _ _ _ E1) as ((a1 & ->) & H1).
    destruct (IH _ _ H) as ((a2 & ->) & H2).
    split; [exists (a1 ++ a2); now rewrite app_assoc|].
    rewrite grows_eq. split.
    + intros [-> ->]. rewrite app_nil_r in *. constructor; [now apply H1 | now apply H2].
    + intros Hall. inversion Hall as [|? ? Ha Hrest]; subst.
      assert (a1 = []) as ->.
      { apply proj2 in H1. specialize (H1 Ha). rewrite <- (app_nil_r errors) in H1 at 2.
        now apply app_inv_head in H1. }
      rewrite app_nil_r in *. split; [reflexivity|].
      apply proj2 in H2. specialize (H2 Hrest). rewrite <- (app_nil_r errors) in H2 at 2.
      now apply app_inv_head in H2.
Qed.

Lemma validate_loop_spec (rs : list RepoConfig) :
  forall names errors out,
    validate_loop path_exists path_is_dir rs names errors = inr out ->
    (exists added, out = errors ++ added)
    /\ (out = errors
        <-> (forall n, In n (map name rs) -> n ∉ names)
            /\ NoDup (map name rs)
            /\ Forall (fun repo => is_directory (path repo)
                                   /\ Forall is_directory (allowed_read_roots repo)) rs).
Proof.
  induction rs as [|repo rest IH]; intros names errors out; cbn [validate_loop map].
  - intros H; injection H as <-. split; [exists []; now rewrite app_nil_r|].
    split; [|reflexivity]. intros _. split; [simpl; tauto|]. split; constructor.
  - set (dup := if bool_decide (name repo ∈ names)
                then errors ++ [("Duplicate repository name: " ++ name repo)%string]
                else errors).
    destruct (check_path _ _ (path repo) _ _ dup) as [e|errors2] eqn:E2; [discriminate|].
    destruct (check_roots _ _ (name repo) _ errors2) as [e|errors3] eqn:E3; [discriminate|].
    intros H.
    assert (Hdup : exists a0, dup = errors ++ a0 /\ (a0 = [] <-> name repo ∉ names)).
    { subst dup. destruct (bool_decide (name repo ∈ names)) eqn:Eb.
      - apply bool_decide_eq_true in Eb. eexists. split; [reflexivity|].
        split; [discriminate | tauto].
      - apply bool_decide_eq_false in Eb. exists []. rewrite app_nil_r. tauto. }
    destruct Hdup as (a0 & Ha0 & Hnew). rewrite Ha0 in E2.
    destruct (check_path_spec _ _ _ _ _ E2) as ((a1 & ->) & H1).
    destruct (check_roots_spec _ _ _ _ E3) as ((a2 & ->) & H2).
    destruct (IH _ _ _ H) as ((a3 & ->) & H3).
    split; [exists (a0 ++ a1 ++ a2 ++ a3); now rewrite !app_assoc|].
    assert (Hz : forall (l m : list string), l ++ m = l <-> m = []).
    { intros l m. split; [|intros ->; apply app_nil_r].
      intros Hm. rewrite <- (app_nil_r l) in Hm at 2. now apply app_inv_head in Hm. }
    rewrite Hz in H1, H2, H3.
    rewrite <- !app_assoc, Hz.
    split.
    + intros Hnil. apply app_eq_nil in Hnil as [-> Hnil].
      apply app_eq_nil in Hnil as [-> Hnil]. apply app_eq_nil in Hnil as [-> ->].
      destruct (proj1 H3 eq_refl) as (Hfresh & Hnd & Hall).
      split; [|split].
      * intros n [<-|Hn]; [now apply Hnew|]. specialize (Hfresh n Hn). set_solver.
      * apply list.NoDup_cons. split; [|exact Hnd].
        intros Hin. apply list_elem_of_In in Hin. specialize (Hfresh _ Hin). set_solver.
      * constructor; [|exact Hall]. split; [now apply H1 | now apply H2].
    + intros (Hfresh & Hnd & Hall). apply list.NoDup_cons in Hnd as [Hnotin Hnd].
      inversion Hall as [|? ? [Hp Hr] Hall']; subst.
      assert (a0 = []) as -> by (apply Hnew, Hfresh; now left).
      assert (a1 = []) as -> by now apply H1.
      assert (a2 = []) as -> by now apply H2.
      assert (a3 = []) as ->; [|reflexivity].
      apply H3. split; [|split; assumption].
      intros n Hn. apply not_elem_of_union. split.
      * intros Heq. apply elem_of_singleton in Heq. subst n.
        apply Hnotin. now apply list_elem_of_In.
      * apply Hfresh. now right.
Qed.

Lemma find_repo_first (rs : list RepoConfig) (repo : RepoConfig) :
  NoDup (map name rs) -> In repo rs -> find_repo rs (name repo) = Some repo.
Proof.
  induction rs as [|r rest IH]; simpl; [contradiction|].
  intros Hnd Hin. apply list.NoDup_cons in Hnd as [Hnotin Hnd].
  destruct Hin as [->|Hin]; [now rewrite String.eqb_refl|].
  destruct (String.eqb (name r) (name repo)) eqn:E; [|now apply IH].
  apply String.eqb_eq in E. exfalso. apply Hnotin. rewrite E.
  apply list_elem_of_In, in_map. exact Hin.
Qed.

End ConfigFacts.

(** X5.  [validate] returns no error exactly when at least one repository
    is configured, no two repositories have the same name, and the path
    and the allowed read roots of every repository are existing
    directories. *)
Theorem validate_accepts_iff
  (path_exists path_is_dir : string -> GitService.result bool)
  (cfg : Config.DaemonConfig) (errors : list string) :
  Config.validate path_exists path_is_dir cfg = inr errors ->
  (errors = []
   <-> Config.repos cfg <> []
       /\ NoDup (map Config.name (Config.repos cfg))
       /\ Forall (fun repo =>
                    is_directory path_exists path_is_dir (Config.path repo)
                    /\ Forall (is_directory path_exists path_is_dir)
                              (Config.allowed_read_roots repo))
                 (Config.repos cfg)).
Proof.
  unfold Config.validate. intros H.
  destruct (validate_loop_spec path_exists path_is_dir _ _ _ _ H) as ((added & ->) & Hiff).
  destruct (Config.repos cfg) as [|r rs] eqn:E.
  - simpl in H. split; [discriminate|]. intros [Hne _]. now elim Hne.
  - simpl app in *. rewrite Hiff. split.
    + intros (_ & Hnd & Hall). split; [discriminate|]. auto.
    + intros (_ & Hnd & Hall). split; [|auto]. intros n _. set_solver.
Qed.

(** X6.  In a configuration that [validate] accepts, [get_repo] finds
    every configured repository by its name; in any configuration it
    returns the first repository with the name, and [None] when there is
    none. *)
Theorem get_repo_after_validate
  (path_exists path_is_dir : string -> GitService.result bool)
  (cfg : Config.DaemonConfig) :
  (Config.validate path_exists path_is_dir cfg = inr [] ->
   forall repo, In repo (Config.repos cfg) ->
                Config.get_repo cfg (Config.name repo) = Some repo)
  /\ (forall nm,
        match Config.get_repo cfg nm with
        | Some repo =>
            exists before after,
              Config.repos cfg = before ++ repo :: after
              /\ Config.name repo = nm
              /\ Forall (fun r => Config.name r <> nm) before
        | None => Forall (fun r => Config.name r <> nm) (Config.repos cfg)
        end).
Proof.
  split.
  - intros Hv repo Hin.
    pose proof (validate_loop_spec path_exists path_is_dir _ _ _ _ Hv) as (_ & Hiff).
    apply find_repo_first; [|exact Hin].
    destruct (Config.repos cfg) as [|r rs] eqn:E; [contradiction|].
    apply Hiff. reflexivity.
  - intros nm. unfold Config.get_repo.
    induction (Config.repos cfg) as [|r rs IH]; simpl; [constructor|].
    destruct (String.eqb (Config.name r) nm) eqn:E.
    + apply String.eqb_eq in E. exists [], rs. repeat split; auto.
    + apply String.eqb_neq in E. destruct (Config.find_repo rs nm) as [repo|].
      * destruct IH as (before & after & -> & Hn & Hb).
        exists (r :: before), after. repeat split; auto.
      * now constructor.
Qed.
Lemma validate_accepts_iff_witness :
  let cfg := Config.mkDaemonConfig
               [Config.mkRepoConfig "notes" "/home/u/notes" ["/home/u/skills"];
                Config.mkRepoConfig "work" "/home/u/work" []] ∅ true in
  let present := fun _ : string => (inr true : GitService.result bool) in
  Config.validate present present cfg = inr []
  /\ (([] : list string) = []
      <-> Config.repos cfg <> []
          /\ NoDup (map Config.name (Config.repos cfg))
          /\ Forall (fun repo =>
                       is_directory present present (Config.path repo)
                       /\ Forall (is_directory present present)
                                 (Config.allowed_read_roots repo))
                    (Config.repos cfg)).
Proof.
  intros cfg present.
  assert (H : Config.validate present present cfg = inr []) by (vm_compute; reflexivity).
  split; [exact H|]. exact (validate_accepts_iff present present cfg [] H).
Defined.

Lemma get_repo_after_validate_witness :
  let cfg := Config.mkDaemonConfig
               [Config.mkRepoConfig "notes" "/home/u/notes" [];
                Config.mkRepoConfig "work" "/home/u/work" []] ∅ true in
  let present := fun _ : string => (inr true : GitService.result bool) in
  Config.validate present present cfg = inr []
  /\ forall repo, In repo (Config.repos cfg) ->
                  Config.get_repo cfg (Config.name repo) = Some repo.
Proof.
  intros cfg present.
  assert (H : Config.validate present present cfg = inr []) by (vm_compute; reflexivity).
  split; [exact H|]. exact (proj1 (get_repo_after_validate present present cfg) H).
Defined.

(** ** Registering and removing connections *)

Section ConnectionFacts.
Import SocketManager.

Lemma list_remove_absent (x : WebSocket) (l : list WebSocket) :
  ~ In x l -> list_remove x l = None.
Proof.
  induction l as [|y l IH]; simpl; [reflexivity|].
  intros H. destruct (Nat.eqb_spec x y) as [->|Hne]; [elim H; now left|].
  rewrite IH; [reflexivity|]. intros Hin. apply H. now right.
Qed.

Lemma remove_suppressed_absent (x : WebSocket) (l : list WebSocket) :
  ~ In x l -> remove_suppressed x l = l.
Proof. intros H. unfold remove_suppressed. now rewrite list_remove_absent. Qed.

Lemma list_remove_present (x : WebSocket) (l : list WebSocket) :
  In x l ->
  exists before after,
    l = before ++ x :: after /\ ~ In x before /\ list_remove x l = Some (before ++ after).
Proof.
  induction l as [|y l IH]; simpl; [contradiction|].
  intros H. destruct (Nat.eqb_spec x y) as [->|Hne].
  - exists [], l. simpl. auto.
  - destruct H as [->|H]; [contradiction|].
    destruct (IH H) as (before & after & El & Hb & Hr).
    exists (y :: before), after. rewrite Hr, El. split; [reflexivity|].
    split; [|reflexivity].
    intros [->|Hin]; [now elim Hne | contradiction].
Qed.

Lemma remove_suppressed_app_absent (x : WebSocket) (l : list WebSocket) :
  ~ In x l -> remove_suppressed x (l ++ [x]) = l.
Proof.
  unfold remove_suppressed. induction l as [|y l IH]; simpl; intros H.
  - now rewrite Nat.eqb_refl.
  - destruct (Nat.eqb_spec x y) as [->|Hne]; [elim H; now left|].
    assert (Hl : ~ In x l) by (intros Hin; apply H; now right).
    specialize (IH Hl). destruct (list_remove x (l ++ [x])); congruence.
Qed.

Lemma remove_suppressed_app_present (x : WebSocket) (l : list WebSocket) :
  In x l -> remove_suppressed x (l ++ [x]) = remove_suppressed x l ++ [x].
Proof.
  unfold remove_suppressed. induction l as [|y l IH]; simpl; intros H; [contradiction|].
  destruct (Nat.eqb_spec x y) as [->|Hne]; [reflexivity|].
  destruct H as [->|H]; [contradiction|]. specialize (IH H).
  destruct (list_remove x (l ++ [x])), (list_remove x l); simpl in *; congruence.
Qed.

End ConnectionFacts.

(** X7.  A connection that is registered and then disconnects leaves the
    list of connections as it was, when it was not registered before; when
    it was, the older registration is the one removed and the new one
    stays at the end. *)
Theorem connect_then_disconnect
  (accept : SocketManager.WebSocket -> bool)
  (active_connections registered : list SocketManager.WebSocket)
  (websocket : SocketManager.WebSocket) :
  SocketManager.connect accept active_connections websocket = Some registered ->
  (~ In websocket active_connections ->
   SocketManager.disconnect registered websocket = active_connections)
  /\ (In websocket active_connections ->
      SocketManager.disconnect registered websocket
      = SocketManager.disconnect active_connections websocket ++ [websocket])
  /\ length (SocketManager.disconnect registered websocket) = length active_connections.
Proof.
  unfold SocketManager.connect. destruct (accept websocket); [|discriminate].
  intros H. injection H as <-. unfold SocketManager.disconnect.
  split; [|split].
  - apply remove_suppressed_app_absent.
  - apply remove_suppressed_app_present.
  - destruct (in_dec Nat.eq_dec websocket active_connections) as [Hin|Hn];
      [|now rewrite remove_suppressed_app_absent].
    rewrite remove_suppressed_app_present by exact Hin.
    destruct (list_remove_present websocket active_connections Hin)
      as (before & after & El & _ & Hr).
    unfold SocketManager.remove_suppressed. rewrite Hr, El.
    rewrite !length_app. simpl. lia.
Qed.

Lemma connect_then_disconnect_witness :
  SocketManager.connect (fun _ => true) [1; 2]%nat 3%nat = Some [1; 2; 3]%nat
  /\ SocketManager.disconnect [1; 2; 3]%nat 3%nat = [1; 2]%nat.
Proof.
  split; [reflexivity|].
  refine (proj1 (connect_then_disconnect (fun _ => true) [1; 2]%nat [1; 2; 3]%nat 3%nat
                   eq_refl) _).
  simpl. intros [H|[H|[]]]; discriminate H.
Defined.

(** X8.  After a broadcast, the number of successful sends is the number
    of connections left, and with the failed ones it makes up the number
    of connections there were.  Disconnecting a connection whose send
    failed then changes nothing, and broadcasting the same message again
    with the same outcomes reaches every connection left and removes
    none. *)
Theorem broadcast_cleanup
  (send_json : SocketManager.WebSocket -> Message -> bool)
  (active_connections : list SocketManager.WebSocket) (message : Message) :
  let r := SocketManager.broadcast send_json active_connections message in
  SocketManager.sent r = length (SocketManager.remaining r)
  /\ (SocketManager.sent r + length (SocketManager.dead r) = length active_connections)%nat
  /\ (forall websocket,
        send_json websocket message = false ->
        SocketManager.disconnect (SocketManager.remaining r) websocket
        = SocketManager.remaining r)
  /\ SocketManager.remaining
       (SocketManager.broadcast send_json (SocketManager.remaining r) message)
     = SocketManager.remaining r
  /\ SocketManager.dead
       (SocketManager.broadcast send_json (SocketManager.remaining r) message) = [].
Proof.
  assert (Hb : forall conns,
             SocketManager.broadcast send_json conns message
             = SocketManager.mkBroadcastResult
                 (List.filter (fun c => send_json c message) conns)
                 (map (fun c => (c, message)) conns)
                 (List.filter (fun c => negb (send_json c message)) conns)
                 (length (List.filter (fun c => send_json c message) conns))).
  { intros conns. unfold SocketManager.broadcast. destruct conns as [|c cs]; [reflexivity|].
    rewrite deliver_spec. cbn [app Nat.add]. now rewrite remove_dead. }
  assert (Hgood : forall conns,
             List.filter (fun c => send_json c message)
                         (List.filter (fun c => send_json c message) conns)
             = List.filter (fun c => send_json c message) conns).
  { intros conns. induction conns as [|c cs IH]; simpl; [reflexivity|].
    destruct (send_json c message) eqn:E; simpl; [rewrite E; now f_equal | exact IH]. }
  assert (Hbad : forall conns,
             List.filter (fun c => negb (send_json c message))
                         (List.filter (fun c => send_json c message) conns) = []).
  { intros conns. induction conns as [|c cs IH]; simpl; [reflexivity|].
    destruct (send_json c message) eqn:E; simpl; [now rewrite E | exact IH]. }
  intros r. subst r. rewrite !Hb. cbn [SocketManager.sent SocketManager.remaining
                                         SocketManager.dead].
  split; [reflexivity|]. split; [|split; [|split]].
  - induction active_connections as [|c cs IH]; simpl; [reflexivity|].
    destruct (send_json c message); simpl; lia.
  - intros websocket Hw. unfold SocketManager.disconnect.
    apply remove_suppressed_absent. intros Hin. apply filter_In in Hin as [_ Hs]. congruence.
  - apply Hgood.
  - apply Hbad.
Qed.

(** ** How long a batch may wait *)

Section WatcherTiming.
Import Watcher.
Variable default_filter : Change -> string -> bool.
Variable target : string.

(** A batch has a start exactly while paths are pending. *)
Definition started_iff_pending (s : WatchState) : Prop :=
  batch_start s = None <-> pending s = ∅.

Lemma step_started (s : WatchState) (e : Event) :
  started_iff_pending s -> started_iff_pending (fst (step default_filter target s e)).
Proof.
  unfold started_iff_pending. intros [H1 H2]. destruct e as [now raw|]; simpl.
  - destruct (filter _ raw) as [|ch chs]; [simpl; tauto|].
    set (pend := add_changes target (ch :: chs) (pending s)).
    destruct (decide (pend = ∅)) as [He|Hne]; simpl.
    + split; [auto|]. intros _. apply H2.
      pose proof (add_changes_mono target (ch :: chs) (pending s)) as Hm.
      fold pend in Hm. rewrite He in Hm. set_solver.
    + destruct (_MAX_WAIT_S <=? _)%Z; simpl; split; try congruence; auto.
  - destruct (quiet_task s); simpl; tauto.
Qed.

Lemma run_started (es : list Event) (s : WatchState) :
  started_iff_pending s -> started_iff_pending (fst (run default_filter target s es)).
Proof.
  revert s. induction es as [|e es IH]; intros s Hs; simpl; [exact Hs|].
  pose proof (step_started s e Hs) as H1.
  destruct (step default_filter target s e) as [s1 out]. simpl in H1.
  specialize (IH s1 H1).
  destruct (run default_filter target s1 es) as [s2 outs]. exact IH.
Qed.

Lemma reachable_started (s : WatchState) :
  reachable default_filter target s -> started_iff_pending s.
Proof. intros [es <-]. apply run_started. unfold started_iff_pending. simpl. tauto. Qed.

End WatcherTiming.

(** X9.  In every state the watcher can reach, a batch has a start time
    exactly while paths are pending.  Once the watcher has reacted to a
    batch of changes delivered at [now], paths are still pending only if
    less than the maximum wait has passed since the start of the batch
    (the time of its first change), and then a quiet-period flush is
    scheduled: changes that keep arriving postpone a notification by less
    than the maximum wait. *)
Theorem watch_repo_bounded_wait
  (default_filter : Watcher.Change -> string -> bool) (target : string)
  (s : Watcher.WatchState) (now : Z) (raw : list (Watcher.Change * string)) :
  Watcher.reachable default_filter target s ->
  (Watcher.batch_start s = None <-> Watcher.pending s = ∅)
  /\ (let s' := fst (Watcher.step default_filter target s (Watcher.Changes now raw)) in
      filter (fun ch => Watcher.git_aware_filter default_filter (fst ch) (snd ch) = true) raw
      <> [] ->
      Watcher.pending s' <> ∅ ->
      exists start,
        Watcher.batch_start s' = Some start
        /\ start = match Watcher.batch_start s with Some b => b | None => now end
        /\ (now - start < Watcher._MAX_WAIT_S)%Z
        /\ Watcher.quiet_task s' = true).
Proof.
  intros Hr. split; [exact (reachable_started default_filter target s Hr)|].
  simpl. destruct (filter _ raw) as [|ch chs]; [intros H; now elim H|]. intros _.
  set (pend := Watcher.add_changes target (ch :: chs) (Watcher.pending s)).
  destruct (decide (pend = ∅)) as [He|Hne]; simpl; [intros H; now elim H|].
  set (start := match Watcher.batch_start s with Some b => b | None => now end).
  destruct (Z.leb_spec Watcher._MAX_WAIT_S (now - start)) as [Hlate|Hsoon]; simpl.
  - intros Hp. now elim Hp.
  - intros _. exists start. auto.
Qed.

Lemma watch_repo_bounded_wait_witness :
  let s := Watcher.mkWatchState {["a.md"]} true (Some 0%Z) in
  let raw := [(Watcher.modified, "/repo/b.md")] in
  Watcher.reachable (fun _ _ => true) "/repo" s
  /\ exists start,
       Watcher.batch_start
         (fst (Watcher.step (fun _ _ => true) "/repo" s (Watcher.Changes 100%Z raw)))
       = Some start
       /\ (100 - start < Watcher._MAX_WAIT_S)%Z.
Proof.
  intros s raw.
  assert (Hr : Watcher.reachable (fun _ _ => true) "/repo" s).
  { exists [Watcher.Changes 0 [(Watcher.modified, "/repo/a.md")]]. vm_compute. reflexivity. }
  split; [exact Hr|].
  destruct (proj2 (watch_repo_bounded_wait (fun _ _ => true) "/repo" s 100%Z raw Hr))
    as (start & Hs & _ & Hlt & _).
  - vm_compute. discriminate.
  - vm_compute. discriminate.
  - exists start. split; [exact Hs | exact Hlt].
Defined.

(** ** The watcher of several repositories *)

Section MultiWatcherFacts.
Import Watcher WatcherMulti.
Variable default_filter : Change -> string -> bool.
Variable resolve : string -> string.

Lemma route_first (before rest : list (string * string)) (root name abs_path rel : string) :
  Forall (fun e => relative_to (fst e) abs_path = None) before ->
  relative_to root abs_path = Some rel ->
  route (before ++ (root, name) :: rest) abs_path
  = if _is_relevant rel then Some (name, rel) else None.
Proof.
  intros Hb Hr. induction Hb as [|[r n] before Hn _ IH]; simpl.
  - now rewrite Hr.
  - simpl in Hn. now rewrite Hn.
Qed.

Lemma route_values (p2r : list (string * string)) (abs_path name rel : string) :
  route p2r abs_path = Some (name, rel) ->
  In name (map snd p2r) /\ _is_relevant rel = true.
Proof.
  induction p2r as [|[r n] p2r IH]; simpl; [discriminate|].
  destruct (relative_to r abs_path) as [rel'|].
  - destruct (_is_relevant rel') eqn:E; [|discriminate].
    intros H. injection H as <- <-. auto.
  - intros H. destruct (IH H). auto.
Qed.

Lemma dict_set_values (k v : string) (d : list (string * string)) (x : string) :
  In x (map snd (dict_set k v d)) -> x = v \/ In x (map snd d).
Proof.
  induction d as [|[k' v'] d IH]; simpl; [intros [H|[]]; auto|].
  destruct (String.eqb k' k); simpl; [intros [H|H]; auto|].
  intros [H|H]; [auto|]. destruct (IH H); auto.
Qed.

Lemma path_to_repo_values (repos : list Config.RepoConfig) (x : string) :
  In x (map snd (path_to_repo resolve repos)) -> In x (map Config.name repos).
Proof.
  unfold path_to_repo.
  assert (G : forall d,
             In x (map snd (foldl (fun d repo =>
                                     dict_set (resolve (Config.path repo))
                                              (Config.name repo) d) d repos)) ->
             In x (map snd d) \/ In x (map Config.name repos)).
  { induction repos as [|r repos IH]; intros d; simpl; [auto|].
    intros H. destruct (IH _ H) as [H1|H1]; [|auto].
    apply dict_set_values in H1 as [->|H1]; auto. }
  intros H. destruct (G [] H) as [[]|H1]. exact H1.
Qed.

(** The pending paths, by repository: names occur once, no set is empty,
    and every name is that of an entry of [path_to_repo]. *)
Definition well_kept (p2r : list (string * string)) (pend : list (string * gset string))
  : Prop :=
  NoDup (map fst pend)
  /\ Forall (fun kv => snd kv <> ∅ /\ In (fst kv) (map snd p2r)) pend.

Lemma setdefault_add_names (name rel : string) (pend : list (string * gset string)) :
  forall n, In n (map fst (setdefault_add name rel pend)) -> n = name \/ In n (map fst pend).
Proof.
  induction pend as [|[n0 s0] pend IH]; simpl; intros n; [intros [H|[]]; auto|].
  destruct (String.eqb n0 name); simpl; [intros [H|H]; auto|].
  intros [H|H]; [auto|]. destruct (IH n H); auto.
Qed.

Lemma setdefault_add_kept (p2r : list (string * string)) (name rel : string)
      (pend : list (string * gset string)) :
  In name (map snd p2r) -> well_kept p2r pend -> well_kept p2r (setdefault_add name rel pend).
Proof.
  intros Hname [Hnd Hall]. induction pend as [|[n0 s0] pend IH]; simpl.
  - split; [repeat constructor; set_solver|].
    constructor; [|constructor]. simpl. split; [set_solver | exact Hname].
  - simpl in Hnd. apply list.NoDup_cons in Hnd as [Hnotin Hnd].
    inversion Hall as [|? ? [Hne Hin] Hall']; subst. simpl in *.
    destruct (String.eqb_spec n0 name) as [->|Hneq]; simpl.
    + split; [apply list.NoDup_cons; auto|].
      constructor; [|exact Hall']. simpl. split; [set_solver | exact Hin].
    + destruct (IH Hnd Hall') as [Hnd1 Hall1]. split.
      * apply list.NoDup_cons. split; [|exact Hnd1].
        intros H. apply list_elem_of_In, setdefault_add_names in H as [H|H];
          [simpl in H; congruence|]. apply Hnotin. now apply list_elem_of_In.
      * constructor; [|exact Hall1]. simpl. auto.
Qed.

Lemma add_changes_kept (p2r : list (string * string)) (changes : list (Change * string)) :
  forall pend, well_kept p2r pend -> well_kept p2r (add_changes p2r changes pend).
Proof.
  unfold add_changes. induction changes as [|ch changes IH]; intros pend H; simpl;
    [exact H|].
  apply IH. destruct (route p2r (snd ch)) as [[name rel]|] eqn:E; [|exact H].
  apply route_values in E as [Hn _]. now apply setdefault_add_kept.
Qed.

Lemma step_kept (p2r : list (string * string)) (s : WatchState) (e : Event) :
  well_kept p2r (pending s) ->
  well_kept p2r (pending (fst (step default_filter p2r s e))).
Proof.
  intros H. assert (Hnil : well_kept p2r []) by (split; constructor).
  destruct e as [now raw|]; simpl.
  - destruct (filter _ raw) as [|ch chs]; [exact H|].
    pose proof (add_changes_kept p2r (ch :: chs) (pending s) H) as Hk.
    destruct (add_changes p2r (ch :: chs) (pending s)) as [|kv pend]; [exact Hnil|].
    destruct (_MAX_WAIT_S <=? _)%Z; [exact Hnil | exact Hk].
  - destruct (quiet_task s); [exact Hnil | exact H].
Qed.

Lemma run_kept (p2r : list (string * string)) (es : list Event) :
  forall s, well_kept p2r (pending s) ->
            well_kept p2r (pending (fst (run default_filter p2r s es))).
Proof.
  induction es as [|e es IH]; intros s Hs; simpl; [exact Hs|].
  pose proof (step_kept p2r s e Hs) as H1.
  destruct (step default_filter p2r s e) as [s1 out]. simpl in H1.
  specialize (IH s1 H1).
  destruct (run default_filter p2r s1 es) as [s2 outs]. exact IH.
Qed.

End MultiWatcherFacts.

(** X10.  In multi-repository mode a changed path is attributed to the
    first repository, in the order of [path_to_repo], whose root it is
    below, whatever comes later: it is recorded under that repository's
    name with the path relative to that root when it is relevant there,
    and dropped otherwise.  So for a repository nested in an earlier one,
    a change of a state marker of its control directory is recorded for no
    repository. *)
Theorem multi_repo_first_root_wins
  (before rest : list (string * string)) (root name abs_path rel : string) :
  Forall (fun e => relative_to (fst e) abs_path = None) before ->
  relative_to root abs_path = Some rel ->
  WatcherMulti.route (before ++ (root, name) :: rest) abs_path
  = (if Watcher._is_relevant rel then Some (name, rel) else None)
  /\ (forall pre m,
        path_parts rel = pre ++ [".git"; m] -> pre <> [] -> Watcher.git_idx pre = None ->
        PyStr.mem m Watcher._GIT_STATE_FILES = true ->
        WatcherMulti.route (before ++ (root, name) :: rest) abs_path = None).
Proof.
  intros Hb Hr. rewrite (route_first before rest root name abs_path rel Hb Hr).
  split; [reflexivity|]. intros pre m Hparts Hne Hpre Hm.
  destruct (nested_not_relevant rel pre m Hparts Hne Hpre Hm) as [-> _]. reflexivity.
Qed.

Lemma multi_repo_first_root_wins_witness :
  WatcherMulti.route [("/srv/docs", "docs"); ("/srv/docs/wiki", "wiki")]
                     "/srv/docs/wiki/page.md"
  = Some ("docs", "wiki/page.md")
  /\ WatcherMulti.route [("/srv/docs", "docs"); ("/srv/docs/wiki", "wiki")]
                        "/srv/docs/wiki/.git/HEAD" = None.
Proof.
  split.
  - exact (proj1 (multi_repo_first_root_wins [] [("/srv/docs/wiki", "wiki")]
                    "/srv/docs" "docs" "/srv/docs/wiki/page.md" "wiki/page.md"
                    (Forall_nil _) eq_refl)).
  - exact (proj2 (multi_repo_first_root_wins [] [("/srv/docs/wiki", "wiki")]
                    "/srv/docs" "docs" "/srv/docs/wiki/.git/HEAD" "wiki/.git/HEAD"
                    (Forall_nil _) eq_refl)
                 ["wiki"] "HEAD" eq_refl ltac:(discriminate) eq_refl eq_refl).
Defined.

(** X11.  In every state that the watcher of several repositories can
    reach, a repository name has at most one pending set, no pending set
    is empty and every name is that of a configured repository.  When no
    configured name is empty, a flush leaves nothing pending and emits,
    for each repository with pending paths and in their order, one
    notification with the repository's name and its sorted pending paths,
    preceded by the clearing of the cache when one of them is a state
    change. *)
Theorem multi_repo_flush
  (default_filter : Watcher.Change -> string -> bool) (resolve : string -> string)
  (repos : list Config.RepoConfig) (s : WatcherMulti.WatchState) :
  WatcherMulti.reachable default_filter resolve repos s ->
  NoDup (map fst (WatcherMulti.pending s))
  /\ Forall (fun kv => snd kv <> ∅ /\ In (fst kv) (map Config.name repos))
            (WatcherMulti.pending s)
  /\ (Forall (fun repo => Config.name repo <> "") repos ->
      WatcherMulti.pending (fst (WatcherMulti.flush s)) = []
      /\ Forall2 (fun kv effs => Watcher.notifies_batch (snd kv) (Some (fst kv)) effs)
                 (WatcherMulti.pending s) (snd (WatcherMulti.flush s))).
Proof.
  intros [es <-].
  pose proof (run_kept default_filter resolve (WatcherMulti.path_to_repo resolve repos) es
                WatcherMulti.initial) as H.
  destruct H as [Hnd Hall]; [split; constructor|].
  set (s := fst (WatcherMulti.run default_filter _ WatcherMulti.initial es)) in *.
  assert (Hall' : Forall (fun kv => snd kv <> ∅ /\ In (fst kv) (map Config.name repos))
                         (WatcherMulti.pending s)).
  { eapply Forall_impl; [|exact Hall]. intros kv [H1 H2]. split; [exact H1|].
    eapply path_to_repo_values. exact H2. }
  split; [exact Hnd|]. split; [exact Hall'|].
  intros Hnames. unfold WatcherMulti.flush, Watcher.flush_multi. simpl.
  split; [reflexivity|]. clear Hnd Hall.
  induction Hall' as [|[n P] pend [HP Hn] _ IH]; simpl; constructor.
  - simpl in *. rewrite Forall_forall in Hnames.
    apply in_map_iff in Hn as (repo & <- & Hrepo).
    pose proof (Hnames repo Hrepo) as Hne.
    pose proof (coalesce_notifies P (Some (Config.name repo)) HP) as Hc.
    destruct (Config.name repo) as [|c nm]; [contradiction | exact Hc].
  - exact IH.
Qed.

Lemma multi_repo_flush_witness :
  let repos := [Config.mkRepoConfig "docs" "/srv/docs" []] in
  let s := fst (WatcherMulti.run (fun _ _ => true) (WatcherMulti.path_to_repo id repos)
                  WatcherMulti.initial
                  [Watcher.Changes 0 [(Watcher.modified, "/srv/docs/a.md")]]) in
  map fst (WatcherMulti.pending s) = ["docs"]
  /\ WatcherMulti.reachable (fun _ _ => true) id repos s
  /\ Forall2 (fun kv effs => Watcher.notifies_batch (snd kv) (Some (fst kv)) effs)
             (WatcherMulti.pending s) (snd (WatcherMulti.flush s)).
Proof.
  intros repos s. split; [vm_compute; reflexivity|].
  assert (Hr : WatcherMulti.reachable (fun _ _ => true) id repos s).
  { exists [Watcher.Changes 0 [(Watcher.modified, "/srv/docs/a.md")]]. reflexivity. }
  split; [exact Hr|].
  refine (proj2 (proj2 (proj2 (multi_repo_flush (fun _ _ => true) id repos s Hr)) _)).
  repeat constructor. discriminate.
Defined.

(** ** History of a file *)

Section HistoryFacts.
Import GitService GitQueries.
Variable datetime : Type.
Variable parse_int : string -> option Z.
Variable fromtimestamp : Z -> option datetime.


Lemma commit_of_empty_line : commit_of_line datetime parse_int fromtimestamp "" = None.
Proof. reflexivity. Qed.


(** The loop of [get_history]: every line with five fields gives a
    commit, unless one of them fails, which ends the loop. *)
Lemma history_loop_spec (lines : list string) :
  forall commits,
    (Forall (fun c => c <> None) (omap (commit_of_line datetime parse_int fromtimestamp) lines) ->
     exists more,
       history_loop datetime parse_int fromtimestamp lines commits = Some (commits ++ more)
       /\ map Some more = omap (commit_of_line datetime parse_int fromtimestamp) lines)
    /\ (Exists (fun c => c = None) (omap (commit_of_line datetime parse_int fromtimestamp) lines) ->
        history_loop datetime parse_int fromtimestamp lines commits = None).
Proof.
  induction lines as [|line lines IH]; intros commits; simpl.
  - split; [|intros H; inversion H]. intros _. exists []. now rewrite app_nil_r.
  - destruct (String.eqb_spec line "") as [->|Hne].
    { rewrite commit_of_empty_line. apply IH. }
    destruct (commit_of_line datetime parse_int fromtimestamp line) as [[c|]|]; simpl.
    + split.
      * intros H. inversion H as [|? ? _ Hrest]; subst.
        destruct (proj1 (IH (commits ++ [c])) Hrest) as (more & -> & Hm).
        exists (c :: more). rewrite <- app_assoc. simpl. now rewrite Hm.
      * intros H. inversion H as [? ? Hc|? ? Hrest]; subst; [discriminate|].
        now apply IH.
    + split; [|reflexivity]. intros H. inversion H as [|? ? Hc _]. now elim Hc.
    + apply IH.
Qed.

Lemma history_loop_authors (lines : list string) :
  forall commits out,
    Forall (fun c => author_name datetime c <> "") commits ->
    history_loop datetime parse_int fromtimestamp lines commits = Some out ->
    Forall (fun c => author_name datetime c <> "") out.
Proof.
  induction lines as [|line lines IH]; intros commits out Hc; simpl.
  - intros H. now injection H as <-.
  - destruct (String.eqb line ""); [now apply IH|].
    unfold GitQueries.commit_of_line.
    destruct (PyStr.split_max NUL 4 line) as [|h [|an [|ae [|ts [|msg [|x xs]]]]]];
      try (now apply IH).
    destruct (parse_int ts) as [z|]; [|discriminate].
    destruct (fromtimestamp z) as [d|]; [|discriminate].
    apply IH. apply Forall_app. split; [exact Hc|]. constructor; [|constructor].
    simpl. destruct an; discriminate.
Qed.

Lemma get_history_eq (s : Service) (path : string) (limit : Z) :
  get_history datetime parse_int fromtimestamp s path limit
  = match working_dir s with
    | None =>
        match _resolve_child_repo s path with
        | Some (child, rel) => get_history datetime parse_int fromtimestamp child rel limit
        | None => []
        end
    | Some _ => history_here datetime parse_int fromtimestamp s path limit
    end.
Proof.
  destruct s as [rp wd rs g cs]. simpl.
  destruct wd as [w|]; [reflexivity|].
  unfold _resolve_child_repo. simpl.
  destruct (path_parts path) as [|child_name [|p1 ps]]; [reflexivity | reflexivity|].
  induction cs as [|[n c] cs IH]; simpl; [reflexivity|].
  destruct (String.eqb n child_name); [reflexivity|]. exact IH.
Qed.


End HistoryFacts.

(** X12.  For a service with a repository whose [git log] succeeds:
    [get_history] returns one commit for each line of the output that has
    five NUL-separated fields, in order, when the timestamp of every such
    line can be read; if one cannot, the result is empty, whatever the
    other lines hold.  No returned commit has an empty author name.  When
    [git] fails, the result is empty. *)
Theorem get_history_all_or_nothing
  (datetime : Type) (parse_int : string -> option Z) (fromtimestamp : Z -> option datetime)
  (s : GitQueries.Service) (wd path : string) (limit : Z) :
  GitQueries.working_dir s = Some wd ->
  let history := GitQueries.get_history datetime parse_int fromtimestamp s path limit in
  match GitQueries.log_for (GitQueries.git s) limit
          (GitQueries._get_repo_relative_path s path) with
  | inl _ => history = []
  | inr proc =>
      if (GitService.returncode proc =? 0)%Z then
        let parsed :=
          omap (GitQueries.commit_of_line datetime parse_int fromtimestamp)
               (PyStr.splitlines (PyStr.strip (GitService.stdout proc))) in
        (Forall (fun c => c <> None) parsed -> map Some history = parsed)
        /\ (Exists (fun c => c = None) parsed -> history = [])
        /\ Forall (fun c => GitQueries.author_name datetime c <> "") history
      else history = []
  end.
Proof.
  intros Hwd history. subst history. rewrite get_history_eq, Hwd.
  unfold GitQueries.history_here.
  destruct (GitQueries.log_for _ _ _) as [e|proc]; [reflexivity|].
  destruct (GitService.returncode proc =? 0)%Z; [|reflexivity].
  set (lines := PyStr.splitlines (PyStr.strip (GitService.stdout proc))).
  destruct (history_loop_spec datetime parse_int fromtimestamp lines []) as [Hall Hbad].
  split; [|split].
  - intros H. destruct (Hall H) as (more & -> & Hm). exact Hm.
  - intros H. now rewrite (Hbad H).
  - destruct (GitQueries.history_loop _ _ _ lines []) as [out|] eqn:E; [|constructor].
    eapply history_loop_authors; [|exact E]. constructor.
Qed.

Lemma get_history_all_or_nothing_witness :
  let line := PyStr.join (String GitService.NUL "")
                ["0a1b2c3"; ""; "ann@example.org"; "1700000000"; "Add notes"] in
  let g := GitQueries.mkGit
             (fun _ _ => inr (GitService.mkProc 0 line))
             (inl GitService.OtherError) (inl GitService.OtherError)
             (inl GitService.OtherError) (inl GitService.OtherError) in
  let s := GitQueries.mkService "/r" (Some "/r") id g [] in
  let parse_int := fun t : string => if String.eqb t "1700000000"
                                     then Some 1700000000%Z else None in
  GitQueries.get_history Z parse_int Some s "notes.md" 10
  = [GitQueries.mkGitCommit Z "0a1b2c3" "Unknown" "ann@example.org" 1700000000%Z "Add notes"]
  /\ Forall (fun c => GitQueries.author_name Z c <> "")
            (GitQueries.get_history Z parse_int Some s "notes.md" 10).
Proof.
  intros line g s parse_int. split; [vm_compute; reflexivity|].
  exact (proj2 (proj2 (get_history_all_or_nothing Z parse_int Some s "/r" "notes.md" 10
                         eq_refl))).
Defined.

(** ** Status of the work tree *)

Section StatusFacts.
Import GitService GitQueries.

(** A dict filled by assignments in a loop: the last assignment to a key
    is the one that stays. *)
Lemma foldl_insert_last {V : Type} (entry : string -> option (string * V))
      (lines : list string) :
  forall (m : gmap string V) (k : string),
    match foldl (fun result line =>
                   match entry line with
                   | Some (key, v) => <[ key := v ]> result
                   | None => result
                   end) m lines !! k with
    | Some v =>
        (exists pre line post,
           lines = pre ++ line :: post /\ entry line = Some (k, v)
           /\ Forall (fun l => forall v', entry l <> Some (k, v')) post)
        \/ (m !! k = Some v /\ Forall (fun l => forall v', entry l <> Some (k, v')) lines)
    | None => m !! k = None /\ Forall (fun l => forall v', entry l <> Some (k, v')) lines
    end.
Proof.
  induction lines as [|line lines IH]; intros m k; simpl.
  - destruct (m !! k); [right|]; split; auto.
  - set (m1 := match entry line with Some (key, v) => <[ key := v ]> m | None => m end).
    specialize (IH m1 k).
    destruct (foldl _ m1 lines !! k) as [v|].
    + destruct IH as [(pre & l & post & -> & He & Hp)|[Hm1 Hall]].
      * left. exists (line :: pre), l, post. auto.
      * subst m1. destruct (entry line) as [[key v0]|] eqn:E.
        -- destruct (decide (key = k)) as [->|Hne].
           ++ rewrite lookup_insert_eq in Hm1. injection Hm1 as ->.
              left. exists [], line, lines. auto.
           ++ rewrite lookup_insert_ne in Hm1 by exact Hne. right. split; [exact Hm1|].
              constructor; [|exact Hall]. intros v' H. rewrite E in H. congruence.
        -- right. split; [exact Hm1|]. constructor; [|exact Hall].
           intros v' H. rewrite E in H. discriminate.
    + destruct IH as [Hm1 Hall]. subst m1.
      destruct (entry line) as [[key v0]|] eqn:E.
      * destruct (decide (key = k)) as [->|Hne].
        -- rewrite lookup_insert_eq in Hm1. discriminate.
        -- rewrite lookup_insert_ne in Hm1 by exact Hne. split; [exact Hm1|].
           constructor; [|exact Hall]. intros v' H. rewrite E in H. congruence.
      * split; [exact Hm1|]. constructor; [|exact Hall].
        intros v' H. rewrite E in H. discriminate.
Qed.

End StatusFacts.

(** X14.  When [git status] succeeds, [get_working_dir_status] holds, for
    a path, the status of the last line of the output that names it
    (after the arrow, for a rename), relative to [repo_path]; a path that
    no line names, or whose lines lie outside [repo_path], is absent.
    Without a repository, or when [git] fails, the result is empty. *)
Theorem working_dir_status_last_line_wins (s : GitQueries.Service) (path : string) :
  match GitQueries.working_dir s with
  | None => GitQueries.get_working_dir_status s = ∅
  | Some wd =>
      match GitQueries.status_uall (GitQueries.git s) with
      | inl _ => GitQueries.get_working_dir_status s = ∅
      | inr proc =>
          if (GitService.returncode proc =? 0)%Z then
            let lines := PyStr.splitlines (GitService.stdout proc) in
            match GitQueries.get_working_dir_status s !! path with
            | Some status =>
                exists pre line post,
                  lines = pre ++ line :: post
                  /\ GitQueries.status_entry s wd line = Some (path, status)
                  /\ Forall (fun l => forall st,
                                        GitQueries.status_entry s wd l <> Some (path, st))
                            post
            | None =>
                Forall (fun l => forall st,
                                   GitQueries.status_entry s wd l <> Some (path, st)) lines
            end
          else GitQueries.get_working_dir_status s = ∅
      end
  end.
Proof.
  unfold GitQueries.get_working_dir_status.
  destruct (GitQueries.working_dir s) as [wd|]; [|reflexivity].
  destruct (GitQueries.status_uall _) as [e|proc]; [reflexivity|].
  destruct (GitService.returncode proc =? 0)%Z; [|reflexivity].
  pose proof (foldl_insert_last (GitQueries.status_entry s wd)
                (PyStr.splitlines (GitService.stdout proc)) ∅ path) as H.
  cbv zeta. destruct (foldl _ ∅ _ !! path) as [status|].
  - destruct H as [H|[H _]]; [exact H|]. rewrite lookup_empty in H. discriminate.
  - exact (proj2 H).
Qed.
(** ** The last commit of several paths *)

Section BatchFacts.
Import GitService GitQueries.
Variable datetime : Type.
Variable parse_int : string -> option Z.
Variable fromtimestamp : Z -> option datetime.

(** The commit that is current after reading [lines], none of which
    raises: that of the last commit line. *)
Definition commit_after (cur : option (GitCommit datetime)) (lines : list string)
  : option (GitCommit datetime) :=
  foldl (fun cur line =>
           match commit_of_line datetime parse_int fromtimestamp line with
           | Some (Some c) => Some c
           | _ => cur
           end) cur lines.

(** [line] is a file line that names the path asked for as [p]. *)
Definition names (repo_paths : gmap string string) (p line : string) : Prop :=
  line <> "" /\ PyStr.contains_char NUL line = false
  /\ repo_paths !! PyStr.strip line = Some p.

(** [c] is the commit that is current at the first file line of [lines]
    that names [p] under a current commit. *)
Definition first_hit (repo_paths : gmap string string) (lines : list string)
           (cur : option (GitCommit datetime)) (p : string) (c : GitCommit datetime) : Prop :=
  exists pre fl post,
    lines = pre ++ fl :: post
    /\ names repo_paths p fl
    /\ commit_after cur pre = Some c
    /\ forall a x b, pre = a ++ x :: b -> names repo_paths p x -> commit_after cur a = None.

Lemma split_max_no_sep (sep : ascii) (s : string) :
  PyStr.contains_char sep s = false -> forall m, PyStr.split_max sep m s = [s].
Proof.
  induction s as [|c s IH]; intros H m; destruct m as [|m]; try reflexivity.
  simpl in H. apply orb_false_iff in H as [Hc Hs].
  cbn [PyStr.split_max]. rewrite Hc, (IH Hs (S m)). reflexivity.
Qed.

Lemma commit_of_file_line (line : string) :
  PyStr.contains_char NUL line = false ->
  commit_of_line datetime parse_int fromtimestamp line = None.
Proof.
  intros H. unfold commit_of_line. rewrite (split_max_no_sep _ _ H). reflexivity.
Qed.

Lemma first_hit_cons (rp : gmap string string) (line : string) (rest : list string)
      (cur : option (GitCommit datetime)) (p : string) (c : GitCommit datetime) :
  first_hit rp (line :: rest) cur p c
  <-> (names rp p line /\ cur = Some c)
      \/ ((names rp p line -> cur = None)
          /\ first_hit rp rest (commit_after cur [line]) p c).
Proof.
  split.
  - intros (pre & fl & post & E & Hn & Hc & Hfirst).
    destruct pre as [|x pre]; simpl in E; injection E as <- ->.
    + left. split; [exact Hn | exact Hc].
    + right. split.
      * intros Hx. exact (Hfirst [] line pre eq_refl Hx).
      * exists pre, fl, post. split; [reflexivity|]. split; [exact Hn|].
        split; [exact Hc|]. intros a x b -> Hx.
        exact (Hfirst (line :: a) x b eq_refl Hx).
  - intros [[Hn Hc]|[Hcur (pre & fl & post & -> & Hn & Hc & Hfirst)]].
    + exists [], line, rest. split; [reflexivity|]. split; [exact Hn|].
      split; [exact Hc|]. intros a x b E. destruct a; discriminate E.
    + exists (line :: pre), fl, post. split; [reflexivity|]. split; [exact Hn|].
      split; [exact Hc|]. intros a x b E Hx.
      destruct a as [|y a]; simpl in E; injection E as <- ->.
      * exact (Hcur Hx).
      * exact (Hfirst a x b eq_refl Hx).
Qed.

(** The loop, from any state in which the paths found and the paths that
    remain are apart and hold every path asked for. *)
Lemma batch_loop_spec (rp : gmap string string) (lines : list string) :
  Forall (fun l => commit_of_line datetime parse_int fromtimestamp l <> Some None) lines ->
  forall cur res (rem : gset string),
    (forall k p, rp !! k = Some p -> p ∈ rem \/ is_Some (res !! p)) ->
    (forall p, p ∈ rem -> res !! p = None) ->
    forall p c,
      batch_loop datetime parse_int fromtimestamp rp lines cur res rem !! p = Some c
      <-> res !! p = Some c \/ (res !! p = None /\ first_hit rp lines cur p c).
Proof.
  induction 1 as [|line rest Hline _ IH]; intros cur res rem I1 I2 p c.
  - simpl. split; [auto|]. intros [H|[_ (pre & fl & post & E & _)]]; [exact H|].
    destruct pre; discriminate E.
  - rewrite first_hit_cons. cbn [batch_loop commit_after foldl].
    destruct (String.eqb line "") eqn:Eempty.
    { apply String.eqb_eq in Eempty. subst line.
      rewrite (IH cur res rem I1 I2 p c). cbn.
      split; (intros [H|[Hn H]]; [left; exact H|right; split; [exact Hn|]]).
      - right. split; [intros (Hne & _); contradiction|exact H].
      - destruct H as [[(Hne & _) _]|[_ H]]; [contradiction|exact H]. }
    destruct (PyStr.contains_char NUL line) eqn:Enul.
    { assert (Hnot : ~ names rp p line) by (intros (_ & H & _); congruence).
      destruct (commit_of_line datetime parse_int fromtimestamp line) as [[c'|]|] eqn:Ec;
        [| contradiction |];
        rewrite (IH _ res rem I1 I2 p c);
        (split; (intros [H|[Hn H]]; [left; exact H|right; split; [exact Hn|]]));
        try (right; split; [intros Hx; contradiction|exact H]);
        (destruct H as [[Hx _]|[_ H]]; [contradiction|exact H]). }
    rewrite (commit_of_file_line line Enul).
    assert (Hne : line <> "") by (intros ->; discriminate Eempty).
    destruct cur as [c0|].
    2:{ rewrite (IH None res rem I1 I2 p c).
        split; (intros [H|[Hn H]]; [left; exact H|right; split; [exact Hn|]]).
        - right. split; [reflexivity|exact H].
        - destruct H as [[_ Hx]|[_ H]]; [discriminate Hx|exact H]. }
    destruct (rp !! PyStr.strip line) as [orig|] eqn:Erp.
    2:{ assert (Hnot : ~ names rp p line) by (intros (_ & _ & H); congruence).
        rewrite (IH (Some c0) res rem I1 I2 p c).
        split; (intros [H|[Hn H]]; [left; exact H|right; split; [exact Hn|]]).
        - right. split; [intros Hx; contradiction|exact H].
        - destruct H as [[Hx _]|[_ H]]; [contradiction|exact H]. }
    assert (Hnames : names rp p line <-> p = orig).
    { unfold names. rewrite Erp. split.
      - intros (_ & _ & H). congruence.
      - intros ->. auto. }
    destruct (bool_decide (orig ∈ rem)) eqn:Erem.
    + apply bool_decide_eq_true in Erem. cbv zeta.
      pose proof (I2 orig Erem) as Hres.
      destruct (decide (rem ∖ {[orig]} = ∅)) as [Hlast|Hmore].
      * destruct (decide (p = orig)) as [->|Hp].
        -- rewrite lookup_insert_eq, Hres. split.
           ++ intros H. injection H as <-. right. split; [reflexivity|]. left.
              split; [now apply Hnames | reflexivity].
           ++ intros [H|[_ [[_ H]|[H _]]]]; [discriminate H | congruence |].
              specialize (H (proj2 Hnames eq_refl)). discriminate H.
        -- rewrite lookup_insert_ne by congruence. split; [auto|].
           intros [H|[Hn [[Hx _]|[_ Hhit]]]]; [exact H | |].
           ++ apply Hnames in Hx. contradiction.
           ++ exfalso. destruct Hhit as (pre & fl & post & _ & (_ & _ & Hfl) & _).
              destruct (I1 _ _ Hfl) as [Hin|[v Hv]]; [|congruence].
              assert (p ∈ rem ∖ {[orig]}) by set_solver. set_solver.
      * rewrite (IH (Some c0) (<[orig := c0]> res) (rem ∖ {[orig]})).
        -- destruct (decide (p = orig)) as [->|Hp].
           ++ rewrite lookup_insert_eq, Hres. split.
              ** intros [H|[H _]]; [|discriminate H]. injection H as <-.
                 right. split; [reflexivity|]. left.
                 split; [now apply Hnames | reflexivity].
              ** intros [H|[_ [[_ H]|[H _]]]]; [discriminate H | left; congruence |].
                 specialize (H (proj2 Hnames eq_refl)). discriminate H.
           ++ rewrite lookup_insert_ne by congruence.
              split; (intros [H|[Hn H]]; [left; exact H|right; split; [exact Hn|]]).
              ** right. split; [intros Hx; apply Hnames in Hx; contradiction|exact H].
              ** destruct H as [[Hx _]|[_ H]]; [apply Hnames in Hx; contradiction|exact H].
        -- intros k q Hk. destruct (decide (q = orig)) as [->|Hq].
           ++ right. rewrite lookup_insert_eq. eauto.
           ++ rewrite lookup_insert_ne by congruence.
              destruct (I1 _ _ Hk) as [Hin|Hs]; [left; set_solver|right; exact Hs].
        -- intros q Hq. assert (q <> orig) by set_solver.
           rewrite lookup_insert_ne by congruence. apply I2. set_solver.
    + apply bool_decide_eq_false in Erem.
      destruct (I1 _ _ Erp) as [Hin|[v Hv]]; [contradiction|].
      rewrite (IH (Some c0) res rem I1 I2 p c).
      destruct (decide (p = orig)) as [->|Hp].
      * rewrite Hv. split; (intros [H|[H _]]; [left; exact H|discriminate H]).
      * split; (intros [H|[Hn H]]; [left; exact H|right; split; [exact Hn|]]).
        -- right. split; [intros Hx; apply Hnames in Hx; contradiction|exact H].
        -- destruct H as [[Hx _]|[_ H]]; [apply Hnames in Hx; contradiction|exact H].
Qed.

(** A timestamp that cannot be read ends the loop: the lines before it
    decide the result. *)
Lemma batch_loop_stops (rp : gmap string string) (pre : list string) (bad : string)
      (post : list string) :
  commit_of_line datetime parse_int fromtimestamp bad = Some None ->
  forall cur res rem,
    batch_loop datetime parse_int fromtimestamp rp (pre ++ bad :: post) cur res rem
    = batch_loop datetime parse_int fromtimestamp rp pre cur res rem.
Proof.
  intros Hbad. induction pre as [|line pre IH]; intros cur res rem.
  - cbn [app batch_loop].
    destruct (String.eqb bad "") eqn:E.
    { apply String.eqb_eq in E. subst bad. discriminate Hbad. }
    destruct (PyStr.contains_char NUL bad) eqn:En.
    + rewrite Hbad. reflexivity.
    + rewrite (commit_of_file_line bad En) in Hbad. discriminate Hbad.
  - cbn [app batch_loop].
    destruct (String.eqb line ""); [apply IH|].
    destruct (PyStr.contains_char NUL line).
    + destruct (commit_of_line _ _ _ line) as [[c|]|]; [apply IH | reflexivity | apply IH].
    + destruct cur as [c0|]; [|apply IH].
      destruct (rp !! PyStr.strip line) as [orig|]; [|apply IH].
      destruct (bool_decide _); [|apply IH]. cbv zeta.
      destruct (decide _); [reflexivity | apply IH].
Qed.

Lemma repo_paths_values (s : Service) (paths : list string) (k p : string) :
  repo_paths_of s paths !! k = Some p -> p ∈ paths.
Proof.
  unfold repo_paths_of.
  assert (H : forall m : gmap string string,
             (forall k p, m !! k = Some p -> p ∈ paths) ->
             forall l, (forall p, p ∈ l -> p ∈ paths) ->
             forall k p, foldl (fun m p => <[ _get_repo_relative_path s p := p ]> m) m l !! k
                         = Some p -> p ∈ paths).
  { intros m Hm l. revert m Hm. induction l as [|q l IH]; intros m Hm Hl; simpl; [exact Hm|].
    apply IH.
    - intros k' p'. destruct (decide (_get_repo_relative_path s q = k')) as [<-|Hne].
      + rewrite lookup_insert_eq. intros H. injection H as <-. apply Hl, list_elem_of_here.
      + rewrite lookup_insert_ne by exact Hne. apply Hm.
    - intros p' Hp'. apply Hl. now apply list_elem_of_further. }
  apply (H ∅); [|auto]. intros k' p'. rewrite lookup_empty. discriminate.
Qed.

End BatchFacts.

(** X15.  For a service with a repository whose [git log --name-only]
    succeeds, [get_last_commits_batch] is decided by the lines of the
    output before the first commit line whose timestamp cannot be read
    (by all lines when there is none): a path has an entry exactly when
    one of these lines is a file line that names it under a current
    commit, and the entry is the commit current at the first such line.
    What was found before the unreadable timestamp is kept. *)
Theorem last_commits_batch_first_match
  (datetime : Type) (parse_int : string -> option Z) (fromtimestamp : Z -> option datetime)
  (s : GitQueries.Service) (wd : string) (paths : list string)
  (proc : GitService.CompletedProcess) (good rest : list string) :
  GitQueries.working_dir s = Some wd ->
  paths <> [] ->
  GitQueries.log_name_only (GitQueries.git s) = inr proc ->
  GitService.returncode proc = 0%Z ->
  PyStr.splitlines (GitService.stdout proc) = good ++ rest ->
  Forall (fun l => GitQueries.commit_of_line datetime parse_int fromtimestamp l <> Some None)
         good ->
  match rest with
  | [] => True
  | bad :: _ => GitQueries.commit_of_line datetime parse_int fromtimestamp bad = Some None
  end ->
  forall p c,
    GitQueries.get_last_commits_batch datetime parse_int fromtimestamp s paths !! p = Some c
    <-> first_hit datetime parse_int fromtimestamp (GitQueries.repo_paths_of s paths)
                  good None p c.
Proof.
  intros Hwd Hpaths Hlog Hrc Hlines Hgood Hrest p c.
  unfold GitQueries.get_last_commits_batch.
  destruct paths as [|p0 paths]; [contradiction|].
  rewrite Hwd, Hlog, Hrc, Hlines. cbn [Z.eqb].
  assert (E : GitQueries.batch_loop datetime parse_int fromtimestamp
                (GitQueries.repo_paths_of s (p0 :: paths)) (good ++ rest) None ∅
                (list_to_set (p0 :: paths))
              = GitQueries.batch_loop datetime parse_int fromtimestamp
                  (GitQueries.repo_paths_of s (p0 :: paths)) good None ∅
                  (list_to_set (p0 :: paths))).
  { destruct rest as [|bad post]; [now rewrite app_nil_r|].
    now apply batch_loop_stops. }
  rewrite E.
  rewrite (batch_loop_spec datetime parse_int fromtimestamp _ good Hgood None ∅
             (list_to_set (p0 :: paths))).
  - rewrite lookup_empty. split.
    + intros [H|[_ H]]; [discriminate H | exact H].
    + intros H. right. split; [reflexivity | exact H].
  - intros k q Hk. left. apply elem_of_list_to_set. eapply repo_paths_values. exact Hk.
  - intros q _. apply lookup_empty.
Qed.
Lemma last_commits_batch_first_match_witness :
  let line := PyStr.join (String GitService.NUL "")
                ["0a1b2c3"; "Ann"; "ann@example.org"; "1700000000"; "Add notes"] in
  let nl := String (ascii_of_nat 10) "" in
  let out := (line ++ nl ++ "notes.md" ++ nl)%string in
  let failing := inl GitService.OtherError : GitService.result GitService.CompletedProcess in
  let g := GitQueries.mkGit (fun _ _ => failing) (inr (GitService.mkProc 0 out))
             failing failing failing in
  let s := GitQueries.mkService "/r" (Some "/r") id g [] in
  let parse_int := fun t : string => if String.eqb t "1700000000"
                                     then Some 1700000000%Z else None in
  let c := GitQueries.mkGitCommit Z "0a1b2c3" "Ann" "ann@example.org" 1700000000%Z
             "Add notes" in
  GitQueries.get_last_commits_batch Z parse_int Some s ["notes.md"] !! "notes.md" = Some c
  /\ first_hit Z parse_int Some (GitQueries.repo_paths_of s ["notes.md"])
               [line; "notes.md"] None "notes.md" c.
Proof.
  intros line nl out failing g s parse_int c.
  assert (H : GitQueries.get_last_commits_batch Z parse_int Some s ["notes.md"] !! "notes.md"
              = Some c) by (vm_compute; reflexivity).
  split; [exact H|].
  refine (proj1 (last_commits_batch_first_match Z parse_int Some s "/r" ["notes.md"]
                   (GitService.mkProc 0 out) [line; "notes.md"] []
                   eq_refl _ eq_refl eq_refl _ _ I "notes.md" c) H).
  - discriminate.
  - vm_compute. reflexivity.
  - repeat constructor; vm_compute; discriminate.
Defined.
(** ** The endpoints *)

Section StripFacts.








End StripFacts.

(** X17.  The legacy [/git/recent] answers 404 in multi-repo mode and 400
    when a daemon configuration is set.  Otherwise it asks the service of
    [target_repo] with the limit brought into the range 1 to 1000: in
    every state that the process can reach, and for every integer
    [limit], a list it returns has at most 1000 records and at most
    [max limit 1], in the order of their dates, newest first. *)
Theorem legacy_recent_clamped
  (isoformat : Z -> string) (monotonic : nat -> Z)
  (settings : Api.Settings) (daemon_config : option Config.DaemonConfig)
  (resolve : string -> string) (observed : string -> GitService.Ctx)
  (limit : Z) (st : GitService.State) :
  GitService.reachable isoformat monotonic st ->
  match Api.get_recent_files isoformat monotonic settings daemon_config resolve observed
          limit with
  | inl e =>
      (Api.multi_repo settings = true /\ Api.status_code e = 404%Z)
      \/ (Api.multi_repo settings = false /\ daemon_config <> None
          /\ Api.status_code e = 400%Z)
  | inr m =>
      Api.multi_repo settings = false /\ daemon_config = None
      /\ GitService.reachable isoformat monotonic (snd (m st))
      /\ forall refs,
           fst (m st) = inr refs ->
           (length refs <= 1000)%nat
           /\ (Z.of_nat (length refs) <= Z.max limit 1)%Z
           /\ GitService.valid_refs (GitService.heap (snd (m st))) refs
           /\ GitService.date_sorted (GitService.heap (snd (m st))) refs
  end.
Proof.
  intros Hreach. unfold Api.get_recent_files, Api._require_single_repo_mode.
  destruct (Api.multi_repo settings); [left; auto|].
  unfold Api.get_git_service. cbv zeta.
  destruct daemon_config as [cfg|].
  { right. split; [reflexivity|]. split; [discriminate | reflexivity]. }
  split; [reflexivity|]. split; [reflexivity|].
  unfold Api.recent_of. cbn [fst snd]. split; [now constructor|].
  intros refs Hrefs.
  destruct (get_recently_changed_files_sound isoformat monotonic
              (observed (resolve (Api.target_repo settings)))
              (Api.exclude_dirs settings) (resolve (Api.target_repo settings))
              (Z.min (Z.max limit 1) 1000) None st
              (reachable_cache_ok isoformat monotonic st Hreach))
    as (_ & _ & Hok).
  destruct (Hok refs Hrefs) as (Hvalid & Hsorted & Hlen).
  assert (Hle : (Z.of_nat (length refs) <= Z.min (Z.max limit 1) 1000)%Z)
    by (apply Hlen; lia).
  split; [lia|]. split; [lia|]. split; assumption.
Qed.

Lemma legacy_recent_clamped_witness :
  let settings := Api.mkSettings "/r/c" false ∅ in
  match Api.get_recent_files Scenarios.isoformat Scenarios.monotonic settings None id
          (fun _ => Scenarios.child) (-3) with
  | inl _ => False
  | inr m =>
      exists refs, fst (m GitService.initial_state) = inr refs
                   /\ (Z.of_nat (length refs) <= Z.max (-3) 1)%Z
  end.
Proof.
  intros settings.
  pose proof (legacy_recent_clamped Scenarios.isoformat Scenarios.monotonic settings None id
                (fun _ => Scenarios.child) (-3) GitService.initial_state
                (GitService.reach_initial _ _)) as H.
  destruct (Api.get_recent_files Scenarios.isoformat Scenarios.monotonic settings None id
              (fun _ => Scenarios.child) (-3)) as [e|m] eqn:E.
  - destruct H as [[H _]|(_ & H & _)]; [discriminate H | now apply H].
  - destruct H as (_ & _ & _ & H).
    assert (Em : m = Api.recent_of Scenarios.isoformat Scenarios.monotonic id
                       (fun _ => Scenarios.child) ("/r/c", ∅) 1)
      by (injection E as <-; reflexivity).
    destruct (fst (m GitService.initial_state)) as [x|refs] eqn:Er.
    + exfalso. rewrite Em in Er. vm_compute in Er. discriminate Er.
    + exists refs. split; [reflexivity|]. exact (proj1 (proj2 (H refs eq_refl))).
Defined.


(** ** The filters of the feed *)

Section FeedFilters.
Import GitService.
Variable isoformat : Z -> string.
Variable monotonic : nat -> Z.

(** No directory on the way to [p] has an excluded name. *)
Definition outside_excluded (exclude : gset string) (p : string) : Prop :=
  Forall (fun seg => seg ∉ exclude) (removelast (PyStr.split "/" p)).

(** A record whose path has one of the extensions and lies in no excluded
    directory. *)
Definition passes (exclude : gset string) (exts : list string) (e : Entry) : Prop :=
  _matches_ext exts (path e) = true /\ outside_excluded exclude (path e).

Lemma Forall_removelast {A : Type} (P : A -> Prop) (l : list A) :
  Forall P l -> Forall P (removelast l).
Proof.
  induction 1 as [|x l Hx Hl IH]; [constructor|]. simpl.
  destruct l; [constructor|]. constructor; assumption.
Qed.

Lemma should_skip_outside (exclude : gset string) (p : string) :
  should_skip exclude p = false -> outside_excluded exclude p.
Proof.
  unfold should_skip, outside_excluded. intros H. apply Forall_removelast.
  apply List.Forall_forall. intros seg Hin Hex.
  assert (Ht : existsb (fun part => bool_decide (part ∈ exclude)) (PyStr.split "/" p) = true).
  { apply existsb_exists. exists seg. split; [exact Hin|]. now apply bool_decide_eq_true. }
  congruence.
Qed.

Lemma endswith_app (e a b : string) :
  PyStr.endswith e b = true -> PyStr.endswith e (a ++ b) = true.
Proof.
  intros H. induction a as [|c a IH]; [exact H|].
  change (String c a ++ b)%string with (String c (a ++ b)).
  rewrite endswith_cons, IH. apply orb_true_r.
Qed.

Lemma lower_app (a b : string) :
  PyStr.lower (a ++ b) = (PyStr.lower a ++ PyStr.lower b)%string.
Proof. induction a as [|c a IH]; simpl; [reflexivity | now rewrite IH]. Qed.

Lemma matches_ext_suffix (exts : list string) (a b : string) :
  _matches_ext exts b = true -> _matches_ext exts (a ++ b) = true.
Proof.
  unfold _matches_ext. intros H. apply existsb_exists in H as (e & He & H).
  apply existsb_exists. exists e. split; [exact He|].
  rewrite lower_app. now apply endswith_app.
Qed.

Lemma matches_ext_join (exts : list string) (a f : string) :
  _matches_ext exts f = true -> _matches_ext exts (path_join a f) = true.
Proof.
  intros H. unfold path_join.
  replace (a ++ "/" ++ f)%string with ((a ++ "/") ++ f)%string
    by apply string_app_assoc.
  now apply matches_ext_suffix.
Qed.

Lemma split_no_slash (s : string) : no_slash s -> PyStr.split "/" s = [s].
Proof.
  unfold no_slash. induction s as [|c s IH]; intros H; [reflexivity|].
  simpl in H. apply orb_false_iff in H as [Hc Hs]. simpl. rewrite Hc, (IH Hs). reflexivity.
Qed.

(** The paths of a walk: directories that were entered, then a file. *)
Lemma tree_paths_segments (exclude : gset string) (t : Tree) :
  wf_tree t ->
  forall x, In x (tree_paths exclude t) ->
            exists segs f,
              PyStr.split "/" x = segs ++ [f]
              /\ Forall (fun seg => pruned exclude seg = false) segs.
Proof.
  induction t as [fs ds IH] using Tree_forall_ind.
  intros Hwf x Hx. inversion Hwf as [? ? _ _ Hfs Hds Hsub]; subst.
  rewrite tree_paths_eq in Hx. apply in_app_or in Hx as [Hx|Hx].
  - exists [], x. split; [|constructor].
    rewrite List.Forall_forall in Hfs. apply split_no_slash, Hfs, Hx.
  - apply in_concat in Hx as (block & Hblock & Hx).
    apply in_map_iff in Hblock as ([d sub] & <- & Hd). cbn [fst snd] in Hx.
    destruct (pruned exclude d) eqn:Ep; [destruct Hx|].
    apply in_map_iff in Hx as (y & <- & Hy).
    rewrite List.Forall_forall in IH, Hds, Hsub.
    destruct (IH (d, sub) Hd (Hsub (d, sub) Hd) y Hy) as (segs & f & Hsplit & Hsegs).
    exists (d :: segs), f. split; [|now constructor].
    unfold path_join. change (d ++ "/" ++ y)%string with (d ++ String "/" y)%string.
    rewrite split_app, (split_no_slash d (Hds (d, sub) Hd)), Hsplit. reflexivity.
Qed.

Lemma not_pruned_not_excluded (exclude : gset string) (d : string) :
  pruned exclude d = false -> d ∉ exclude.
Proof.
  unfold pruned. intros H. apply orb_false_iff in H as [_ H].
  now apply bool_decide_eq_false in H.
Qed.

(** The extension of the files that a walk reports. *)
Lemma walk_files_ext (exts : list string) (tracked : gset string) (root : string) (o : Obs)
      (top dirpath : string) (fnames : list string) :
  below (path_join root top) dirpath ->
  forall found,
    Forall (fun e => _matches_ext exts (path e) = true) found ->
    Forall (fun e => _matches_ext exts (path e) = true)
           (fst (walk_files isoformat exts tracked root o dirpath fnames found)).
Proof.
  intros Hbelow. induction fnames as [|f fnames IH]; intros found Hfound; simpl; [exact Hfound|].
  destruct (_matches_ext exts f) eqn:Ef; simpl; [|now apply IH].
  destruct (bool_decide _); [now apply IH|].
  destruct (stat o (path_join dirpath f)) as [[| |]|st]; simpl;
    [now apply IH | exact Hfound | exact Hfound |].
  apply IH. apply Forall_app. split; [exact Hfound|]. constructor; [|constructor].
  cbn [path untracked_entry].
  destruct Hbelow as [->|(x & ->)].
  - rewrite path_join_assoc, relpath_join. now apply matches_ext_join.
  - rewrite !path_join_assoc, relpath_join. now do 2 apply matches_ext_join.
Qed.

Lemma walk_loop_ext (exts : list string) (tracked : gset string) (root : string) (o : Obs)
      (top : string) (steps : list (string * list string)) :
  Forall (fun step => below (path_join root top) (fst step)) steps ->
  forall found,
    Forall (fun e => _matches_ext exts (path e) = true) found ->
    Forall (fun e => _matches_ext exts (path e) = true)
           (fst (walk_loop isoformat exts tracked root o steps found)).
Proof.
  induction 1 as [|[dirpath fnames] steps Hb _ IH]; intros found Hfound; simpl; [exact Hfound|].
  pose proof (walk_files_ext exts tracked root o top dirpath fnames Hb found Hfound) as H.
  destruct (walk_files isoformat exts tracked root o dirpath fnames found) as [found' [e|]];
    simpl in *; [exact H | now apply IH].
Qed.

Lemma walk_subdir_ext (exclude : gset string) (exts : list string) (tracked : gset string)
      (root : string) (o : Obs) (d : DirEntry) :
  Forall (fun e => _matches_ext exts (path e) = true)
         (suppress [] (_walk_subdir isoformat exclude exts tracked root o d)).
Proof.
  unfold _walk_subdir.
  pose proof (walk_loop_ext exts tracked root o (name d)
                (walk exclude (path_join root (name d)) (tree d))
                (walk_below exclude (tree d) (path_join root (name d))) [] (Forall_nil _))
    as H.
  destruct (walk_loop isoformat exts tracked root o _ []) as [found [e|]]; simpl in *;
    [constructor | exact H].
Qed.

Lemma scan_top_ext (exclude : gset string) (exts : list string) (tracked : gset string)
      (entries : list DirEntry) :
  forall top_dirs top_untracked,
    Forall (fun e => _matches_ext exts (path e) = true) top_untracked ->
    Forall (fun e => _matches_ext exts (path e) = true)
           (snd (fst (scan_top isoformat exclude exts tracked entries top_dirs
                               top_untracked))).
Proof.
  induction entries as [|d entries IH]; intros top_dirs top_untracked Hacc; simpl;
    [exact Hacc|].
  destruct (is_dir d) as [e1|[|]]; simpl; [exact Hacc | | ].
  - destruct (pruned exclude (name d)); now apply IH.
  - destruct (is_file d) as [e2|isf]; simpl; [exact Hacc|].
    destruct (isf && _matches_ext exts (name d)) eqn:E; [|now apply IH].
    apply andb_true_iff in E as [_ E].
    destruct (bool_decide (name d ∈ tracked)); [now apply IH|].
    destruct (entry_stat d) as [[| |]|st]; simpl; try exact Hacc; try (now apply IH).
    apply IH. apply Forall_app. split; [exact Hacc|]. constructor; [exact E | constructor].
Qed.

(** What the walks of Step 2 and Step 3 report passes the filters. *)
Lemma walk_results_pass (exclude : gset string) (exts : list string) (tracked : gset string)
      (root : string) (o : Obs) (top_dirs : list DirEntry) (top_untracked : list Entry) :
  wf_obs o ->
  top_level isoformat exclude exts tracked o = inr (top_dirs, top_untracked) ->
  Forall (passes exclude exts)
         (collect_walks isoformat exclude exts tracked root o top_dirs top_untracked).
Proof.
  intros [Hwf _] Htop. unfold top_level in Htop.
  destruct (scandir o) as [[| |]|entries] eqn:Escan; try discriminate.
  { injection Htop as <- <-. constructor. }
  specialize (Hwf entries eq_refl). destruct Hwf as [_ Hwf].
  destruct (scan_top_spec isoformat exclude exts tracked entries [] [])
    as (ds & us & Hscan & Hds & Hus & _ & _).
  pose proof (scan_top_unpruned isoformat exclude exts tracked entries [] [] (Forall_nil _))
    as Hunpruned.
  pose proof (scan_top_ext exclude exts tracked entries [] [] (Forall_nil _)) as Hext.
  rewrite Hscan in Hunpruned, Hext. cbn [fst snd app] in Hunpruned, Hext.
  assert (E : (top_dirs, top_untracked) = (ds, us)).
  { destruct (scan_top isoformat exclude exts tracked entries [] []) as [[tds tus] [[| |]|]];
      simpl in Hscan; try discriminate; injection Htop as <- <-; exact Hscan. }
  injection E as -> ->. unfold collect_walks. apply Forall_app. split.
  - apply List.Forall_forall. intros e He. split.
    + rewrite List.Forall_forall in Hext. now apply Hext.
    + assert (Hin : In (path e) (map name entries)).
      { apply list_elem_of_In. eapply elem_of_sublist; [|exact Hus].
        apply list_elem_of_In, in_map, He. }
      apply in_map_iff in Hin as (d & Hd & Hin).
      rewrite List.Forall_forall in Hwf. destruct (Hwf d Hin) as [Hns _].
      unfold outside_excluded. rewrite <- Hd, (split_no_slash _ Hns). constructor.
  - apply List.Forall_forall. intros e He.
    apply in_concat in He as (found & Hfound & He).
    apply in_map_iff in Hfound as (d & <- & Hd).
    assert (Hin : In d entries).
    { apply list_elem_of_In. eapply elem_of_sublist; [|exact Hds]. now apply list_elem_of_In. }
    rewrite List.Forall_forall in Hwf, Hunpruned. destruct (Hwf d Hin) as [Hns Hwft].
    split.
    + pose proof (walk_subdir_ext exclude exts tracked root o d) as H.
      rewrite List.Forall_forall in H. now apply H.
    + destruct (walk_subdir_spec isoformat exclude exts tracked root o d) as (Hsub & _ & _).
      assert (Hp : In (path e) (map (path_join (name d)) (tree_paths exclude (tree d)))).
      { apply list_elem_of_In. eapply elem_of_sublist; [|exact Hsub].
        apply list_elem_of_In, in_map, He. }
      apply in_map_iff in Hp as (x & Hx & Hxin).
      destruct (tree_paths_segments exclude (tree d) Hwft x Hxin) as (segs & f & Hsplit & Hsegs).
      unfold outside_excluded. rewrite <- Hx. unfold path_join.
      change (name d ++ "/" ++ x)%string with (name d ++ String "/" x)%string.
      rewrite split_app, (split_no_slash _ Hns), Hsplit.
      change ([name d] ++ segs ++ [f]) with ((name d :: segs) ++ [f]).
      rewrite removelast_last. constructor.
      * apply not_pruned_not_excluded, Hunpruned, Hd.
      * eapply Forall_impl; [|exact Hsegs]. intros seg. apply not_pruned_not_excluded.
Qed.

Lemma ita_loop_pass (exclude : gset string) (exts : list string) (repo_path : string)
      (o : Obs) (ita_files : list string) :
  forall results seen,
    Forall (passes exclude exts) results ->
    Forall (passes exclude exts)
           (fst (fst (ita_loop isoformat exclude exts repo_path o ita_files results seen))).
Proof.
  induction ita_files as [|f rest IH]; intros results seen Hacc; simpl; [exact Hacc|].
  destruct (relative_to repo_path f) as [rel|]; [|now apply IH].
  destruct (bool_decide (rel ∈ seen)); simpl; [now apply IH|].
  destruct (_matches_ext exts rel) eqn:Eext; simpl; [|now apply IH].
  destruct (should_skip exclude rel) eqn:Eskip; simpl; [now apply IH|].
  destruct (hidden_parent rel); simpl; [now apply IH|].
  destruct (stat o f) as [[| |]|st]; simpl; try exact Hacc; try (now apply IH).
  apply IH. apply Forall_app. split; [exact Hacc|]. constructor; [|constructor].
  split; [exact Eext | now apply should_skip_outside].
Qed.

Lemma log_loop_pass (exclude : gset string) (exts : list string) (repo_path wd : string)
      (o : Obs) (lines : list string) :
  forall current_info results seen,
    Forall (passes exclude exts) results ->
    Forall (passes exclude exts)
           (fst (fst (log_loop isoformat exclude exts repo_path wd o lines current_info
                               results seen))).
Proof.
  induction lines as [|line rest IH]; intros current_info results seen Hacc;
    cbn [log_loop]; [exact Hacc|].
  destruct (String.eqb line ""); [now apply IH|].
  destruct (PyStr.contains_char NUL line).
  { destruct (PyStr.split_max NUL 3 line) as [|p0 [|p1 [|p2 [|p3 [|p4 ps]]]]];
      now apply IH. }
  destruct current_info as [[[[sha author] ts] msg]|]; [|now apply IH].
  cbv zeta. destruct (String.eqb (PyStr.strip line) ""); [now apply IH|].
  destruct (relative_to repo_path (path_join wd (PyStr.strip line))) as [rel|];
    [|now apply IH].
  destruct (should_skip exclude rel) eqn:Eskip; cbn [orb]; [now apply IH|].
  destruct (_matches_ext exts rel) eqn:Eext; cbn [negb orb]; [|now apply IH].
  destruct (bool_decide (rel ∈ seen)); [now apply IH|].
  destruct (stat o (path_join repo_path rel)) as [[| |]|st]; cbn [fst];
    try exact Hacc; try (now apply IH).
  destruct (negb (st_isreg st)); [now apply IH|].
  apply IH. apply Forall_app. split; [exact Hacc|]. constructor; [|constructor].
  split; [exact Eext | now apply should_skip_outside].
Qed.

Lemma staged_loop_pass (exclude : gset string) (exts : list string) (repo_path : string)
      (o : Obs) (tracked : list string) :
  forall results seen,
    Forall (passes exclude exts) results ->
    Forall (passes exclude exts)
           (fst (fst (staged_loop isoformat exclude exts repo_path o tracked results seen))).
Proof.
  induction tracked as [|p rest IH]; intros results seen Hacc; simpl; [exact Hacc|].
  destruct (bool_decide (p ∈ seen)); simpl; [now apply IH|].
  destruct (_matches_ext exts p) eqn:Eext; simpl; [|now apply IH].
  destruct (should_skip exclude p) eqn:Eskip; simpl; [now apply IH|].
  destruct (hidden_parent p); simpl; [now apply IH|].
  destruct (stat o (path_join repo_path p)) as [[| |]|st]; simpl;
    try exact Hacc; try (now apply IH).
  destruct (negb (st_isreg st)); [now apply IH|].
  apply IH. apply Forall_app. split; [exact Hacc|]. constructor; [|constructor].
  split; [exact Eext | now apply should_skip_outside].
Qed.

Lemma merged_results_pass (exclude : gset string) (repo_path wd : string) (o : Obs)
      (extensions : list string) (results : list Entry) :
  wf_obs o ->
  merged_results isoformat exclude repo_path wd o extensions = inr results ->
  Forall (passes exclude (ext_lower extensions)) results.
Proof.
  intros Hwf Hm. unfold merged_results in Hm.
  destruct (top_level isoformat exclude (ext_lower extensions)
                      (_build_tracked_set repo_path o) o)
    as [e0|[top_dirs top_untracked]] eqn:Etop; [discriminate|].
  cbv zeta in Hm.
  pose proof (walk_results_pass exclude (ext_lower extensions)
                (_build_tracked_set repo_path o) repo_path o top_dirs top_untracked
                Hwf Etop) as H0.
  set (wr := collect_walks isoformat exclude (ext_lower extensions)
               (_build_tracked_set repo_path o) repo_path o top_dirs top_untracked) in *.
  pose proof (ita_loop_pass exclude (ext_lower extensions) repo_path o
                (elements (_find_intent_to_add_files o (git_output (run_status o))))
                wr (list_to_set (map path wr)) H0) as H1.
  destruct (ita_loop isoformat exclude (ext_lower extensions) repo_path o _ wr _)
    as [[r1 s1] [x1|]]; [discriminate|]. cbn [fst] in H1.
  pose proof (log_loop_pass exclude (ext_lower extensions) repo_path wd o
                (PyStr.splitlines (git_output (run_log o))) None r1 s1 H1) as H2.
  destruct (log_loop isoformat exclude (ext_lower extensions) repo_path wd o _ None r1 s1)
    as [[r2 s2] [x2|]]; [discriminate|]. cbn [fst] in H2.
  pose proof (staged_loop_pass exclude (ext_lower extensions) repo_path o
                (elements (_build_tracked_set repo_path o)) r2 s2 H2) as H3.
  destruct (staged_loop isoformat exclude (ext_lower extensions) repo_path o _ r2 s2)
    as [[r3 s3] [x3|]]; [discriminate|]. cbn [fst] in H3.
  injection Hm as <-. exact H3.
Qed.

End FeedFilters.

(** X18.  For a root under version control whose listings are well
    formed, on a call that computes: every record returned has a path
    that ends, in lower case, with one of the extensions asked for (in
    lower case), and no directory on the way to it has an excluded
    name. *)
Theorem versioned_feed_passes_filters
  (isoformat : Z -> string) (monotonic : nat -> Z)
  (exclude : gset string) (repo_path wd : string) (o : GitService.Obs)
  (children : list GitService.Ctx) (limit : Z) (extensions : option (list string))
  (st st' : GitService.State) (refs : list GitService.loc) :
  GitService.wf_obs o ->
  GitService.working_dir o = Some wd ->
  GitService.cache_hit
    (GitService._recent_files_cache st
       !! ((repo_path, limit, GitService.default_extensions extensions)
           : GitService.cache_key))
    (monotonic (GitService.ticks st)) = None ->
  GitService.get_recently_changed_files isoformat monotonic exclude repo_path
    (GitService.mkCtx o children) limit extensions st = (inr refs, st') ->
  Forall (fun e =>
            GitService._matches_ext
              (GitService.ext_lower (GitService.default_extensions extensions))
              (GitService.path e) = true
            /\ Forall (fun seg => seg ∉ exclude)
                      (removelast (PyStr.split "/" (GitService.path e))))
         (GitService.deref (GitService.heap st') refs).
Proof.
  intros Hwf Hwd Hmiss Hrun.
  pose proof (versioned_run isoformat monotonic exclude repo_path wd o children limit
                extensions st st' refs Hwd Hmiss Hrun) as Hv.
  apply recent_versioned_inv in Hv as (results & Hm & ->).
  apply slice_to_Forall.
  eapply Permutation_Forall; [symmetry; apply stable_sort_perm|].
  exact (merged_results_pass isoformat exclude repo_path wd o _ results Hwf Hm).
Qed.
Lemma versioned_feed_passes_filters_witness :
  exists refs st',
    GitService.get_recently_changed_files Scenarios.isoformat Scenarios.monotonic
      {[ "node_modules" ]} "/r/c" Scenarios.child 30%Z None GitService.initial_state
    = (inr refs, st')
    /\ Forall (fun e =>
                 GitService._matches_ext [".md"] (GitService.path e) = true
                 /\ Forall (fun seg => seg ∉ ({[ "node_modules" ]} : gset string))
                           (removelast (PyStr.split "/" (GitService.path e))))
              (GitService.deref (GitService.heap st') refs).
Proof.
  eexists. eexists. split; [vm_compute; reflexivity|].
  refine (versioned_feed_passes_filters Scenarios.isoformat Scenarios.monotonic
            {[ "node_modules" ]} "/r/c" "/r/c" Scenarios.child_obs [] 30%Z None
            GitService.initial_state _ _ _ eq_refl eq_refl _).
  - split; [|constructor; constructor].
    intros entries H. injection H as <-. split.
    + apply (bool_decide_unpack _). vm_compute. exact I.
    + repeat constructor.
  - vm_compute. reflexivity.
Defined.
(** ** The list of all files *)

Section AllFiles.
Import GitService.
Variable exclude_dirs : gset string.
Variable show_hidden : bool.
Variable extensions : list string.

Definition files_of (t : Tree) : list string := match t with Node fs _ => fs end.
Definition dirs_of (t : Tree) : list (string * Tree) := match t with Node _ ds => ds end.

(** The sub-directory of a name. *)
Fixpoint find_dir (d : string) (ds : list (string * Tree)) : option Tree :=
  match ds with
  | [] => None
  | (d', sub) :: ds' => if String.eqb d' d then Some sub else find_dir d ds'
  end.

(** The directory reached from [t] through the names [segs]. *)
Fixpoint descend (t : Tree) (segs : list string) : option Tree :=
  match segs with
  | [] => Some t
  | seg :: rest =>
      match find_dir seg (dirs_of t) with
      | Some sub => descend sub rest
      | None => None
      end
  end.

(** The files listed below a directory, relative to it, in the order of
    the walk. *)
Fixpoint listed (t : Tree) : list string :=
  match t with
  | Node filenames dirs =>
      List.filter (fun fname => negb (FsService.passed_over extensions fname)) filenames ++
      (fix listed_dirs (ds : list (string * Tree)) : list string :=
         match ds with
         | [] => []
         | (d, sub) :: ds' =>
             (if FsService.entered exclude_dirs show_hidden d
              then map (path_join d) (listed sub) else []) ++ listed_dirs ds'
         end) dirs
  end.

Lemma listed_eq (fs : list string) (ds : list (string * Tree)) :
  listed (Node fs ds)
  = List.filter (fun fname => negb (FsService.passed_over extensions fname)) fs
    ++ concat (map (fun d => if FsService.entered exclude_dirs show_hidden (fst d)
                             then map (path_join (fst d)) (listed (snd d)) else [])
                   ds).
Proof.
  simpl. f_equal. induction ds as [|[d sub] ds IH]; simpl; [reflexivity|].
  now rewrite IH.
Qed.

Lemma fs_walk_eq (dirpath : string) (fs : list string) (ds : list (string * Tree)) :
  FsService.walk exclude_dirs show_hidden dirpath (Node fs ds)
  = (dirpath, fs)
    :: concat (map (fun d => if FsService.entered exclude_dirs show_hidden (fst d)
                             then FsService.walk exclude_dirs show_hidden
                                    (path_join dirpath (fst d)) (snd d)
                             else []) ds).
Proof.
  simpl. f_equal. induction ds as [|[d sub] ds IH]; simpl; [reflexivity|].
  destruct (FsService.entered exclude_dirs show_hidden d); now rewrite IH.
Qed.

(** What the loop over the walk collects, before the sort. *)
Definition collected (root_path : string) (steps : list (string * list string))
  : list string :=
  concat (map (fun step =>
                 map (fun fname => relpath (path_join (fst step) fname) root_path)
                     (List.filter (fun fname => negb (FsService.passed_over extensions fname))
                                  (snd step)))
              steps).

Lemma collected_app (root_path : string) (a b : list (string * list string)) :
  collected root_path (a ++ b) = collected root_path a ++ collected root_path b.
Proof. unfold collected. now rewrite map_app, concat_app. Qed.

Lemma collected_below (root_path : string) (t : Tree) :
  forall x,
    collected root_path (FsService.walk exclude_dirs show_hidden (path_join root_path x) t)
    = map (path_join x) (listed t).
Proof.
  induction t as [fs ds IH] using Tree_forall_ind. intros x.
  rewrite fs_walk_eq, listed_eq, map_app.
  change (collected root_path (?s :: ?l)) with
    (map (fun fname => relpath (path_join (fst s) fname) root_path)
         (List.filter (fun fname => negb (FsService.passed_over extensions fname)) (snd s))
     ++ collected root_path l).
  cbn [fst snd]. f_equal.
  - apply map_ext. intros f. now rewrite path_join_assoc, relpath_join.
  - induction ds as [|[d sub] ds IHds]; [reflexivity|].
    inversion IH as [|? ? Hd IH']; subst. cbn [map concat fst snd] in *.
    rewrite collected_app, map_app. f_equal; [|exact (IHds IH')].
    destruct (FsService.entered exclude_dirs show_hidden d); [|reflexivity].
    rewrite path_join_assoc, (Hd (path_join x d)), map_map.
    apply map_ext. intros y. apply path_join_assoc.
Qed.

Lemma collected_root (root_path : string) (t : Tree) :
  collected root_path (FsService.walk exclude_dirs show_hidden root_path t) = listed t.
Proof.
  destruct t as [fs ds]. rewrite fs_walk_eq, listed_eq.
  change (collected root_path (?s :: ?l)) with
    (map (fun fname => relpath (path_join (fst s) fname) root_path)
         (List.filter (fun fname => negb (FsService.passed_over extensions fname)) (snd s))
     ++ collected root_path l).
  cbn [fst snd]. f_equal.
  - rewrite <- (map_id (List.filter _ fs)) at 2. apply map_ext. intros f. apply relpath_join.
  - induction ds as [|[d sub] ds IHds]; [reflexivity|]. cbn [map concat fst snd].
    rewrite collected_app, IHds. f_equal.
    destruct (FsService.entered exclude_dirs show_hidden d); [|reflexivity].
    apply collected_below.
Qed.

Lemma find_dir_In (d : string) (ds : list (string * Tree)) (sub : Tree) :
  find_dir d ds = Some sub -> In (d, sub) ds.
Proof.
  induction ds as [|[d' sub'] ds IH]; simpl; [discriminate|].
  destruct (String.eqb d' d) eqn:E.
  - apply String.eqb_eq in E. intros H. injection H as <-. subst. now left.
  - intros H. right. now apply IH.
Qed.

Lemma In_find_dir (d : string) (ds : list (string * Tree)) (sub : Tree) :
  NoDup (map fst ds) -> In (d, sub) ds -> find_dir d ds = Some sub.
Proof.
  induction ds as [|[d' sub'] ds IH]; simpl; [contradiction|].
  intros Hnd Hin. apply list.NoDup_cons in Hnd as [Hnotin Hnd].
  destruct Hin as [H|H].
  - injection H as -> ->. now rewrite String.eqb_refl.
  - destruct (String.eqb d' d) eqn:E; [|now apply IH].
    apply String.eqb_eq in E. subst d'. exfalso. apply Hnotin.
    apply list_elem_of_In, in_map_iff. exists (d, sub). auto.
Qed.

Lemma split_single (p f : string) : PyStr.split "/" p = [f] -> p = f.
Proof.
  intros H. rewrite <- (join_split "/" p), H. reflexivity.
Qed.

Lemma split_cons_inv (p a b : string) (rest : list string) :
  PyStr.split "/" p = a :: b :: rest ->
  exists y, p = path_join a y /\ PyStr.split "/" y = b :: rest.
Proof.
  revert a. induction p as [|c p IH]; intros a H; simpl in H; [discriminate|].
  destruct (Ascii.eqb c "/") eqn:Ec.
  - apply Ascii.eqb_eq in Ec. subst c. injection H as <- H. exists p. auto.
  - destruct (PyStr.split "/" p) as [|q qs] eqn:Es; [discriminate|].
    injection H as <- ->. destruct (IH q eq_refl) as (y & -> & Hy).
    exists y. auto.
Qed.

(** The files listed are those that can be reached through directories
    that are entered, and are not passed over. *)
Lemma listed_spec (t : Tree) :
  wf_tree t ->
  forall p,
    In p (listed t)
    <-> exists segs f node,
          PyStr.split "/" p = segs ++ [f]
          /\ Forall (fun d => FsService.entered exclude_dirs show_hidden d = true) segs
          /\ descend t segs = Some node
          /\ In f (files_of node)
          /\ FsService.passed_over extensions f = false.
Proof.
  induction t as [fs ds IH] using Tree_forall_ind. intros Hwf p.
  inversion Hwf as [? ? _ Hnd Hfs Hds Hsub]; subst.
  rewrite listed_eq, in_app_iff, filter_In, negb_true_iff. split.
  - intros [[Hp Hext]|Hp].
    + exists [], p, (Node fs ds). split; [|auto].
      rewrite List.Forall_forall in Hfs. now apply split_no_slash, Hfs.
    + apply in_concat in Hp as (block & Hblock & Hp).
      apply in_map_iff in Hblock as ([d sub] & <- & Hd). cbn [fst snd] in Hp.
      destruct (FsService.entered exclude_dirs show_hidden d) eqn:Ed; [|destruct Hp].
      apply in_map_iff in Hp as (y & <- & Hy).
      rewrite List.Forall_forall in IH, Hds, Hsub.
      apply (IH (d, sub) Hd (Hsub (d, sub) Hd)) in Hy
        as (segs & f & node & Hsplit & Hsegs & Hdesc & Hf & Hext).
      exists (d :: segs), f, node. split; [|split; [|split; [|auto]]].
      * unfold path_join. change (d ++ "/" ++ y)%string with (d ++ String "/" y)%string.
        rewrite split_app, (split_no_slash d (Hds (d, sub) Hd)), Hsplit. reflexivity.
      * now constructor.
      * cbn [descend dirs_of]. now rewrite (In_find_dir d ds sub Hnd Hd).
  - intros (segs & f & node & Hsplit & Hsegs & Hdesc & Hf & Hext).
    destruct segs as [|d segs].
    + left. simpl in Hdesc. injection Hdesc as <-. apply split_single in Hsplit.
      subst p. auto.
    + right. cbn [descend dirs_of] in Hdesc.
      destruct (find_dir d ds) as [sub|] eqn:Efind; [|discriminate].
      apply find_dir_In in Efind. inversion Hsegs as [|? ? Hd Hsegs']; subst.
      assert (Hy : exists y, p = path_join d y /\ PyStr.split "/" y = segs ++ [f]).
      { destruct segs as [|s segs]; simpl in Hsplit; now apply split_cons_inv in Hsplit. }
      destruct Hy as (y & -> & Hy).
      apply in_concat. exists (map (path_join d) (listed sub)). split.
      * apply in_map_iff. exists (d, sub). cbn [fst snd]. now rewrite Hd.
      * apply in_map. rewrite List.Forall_forall in IH, Hsub.
        apply (IH (d, sub) Efind (Hsub (d, sub) Efind)).
        exists segs, f, node. auto.
Qed.

Lemma NoDup_list_filter {A : Type} (f : A -> bool) (l : list A) :
  NoDup l -> NoDup (List.filter f l).
Proof.
  intros H. eapply sublist_NoDup; [exact H|]. clear H.
  induction l as [|x l IH]; simpl; [constructor|].
  destruct (f x); [now apply sublist_skip | now apply sublist_cons].
Qed.

Lemma listed_NoDup (t : Tree) : wf_tree t -> NoDup (listed t).
Proof.
  induction t as [fs ds IH] using Tree_forall_ind. intros Hwf.
  inversion Hwf as [fs' ds' Hfs Hds Hnf Hnd Hsub]; subst.
  rewrite listed_eq. apply list.NoDup_app. split; [now apply NoDup_list_filter|]. split.
  - intros x Hx Hin. apply list_elem_of_In, filter_In in Hx as [Hx _].
    apply list_elem_of_In, in_concat in Hin as (blk & Hblk & Hxb).
    apply in_map_iff in Hblk as ([d sub] & <- & _). simpl in Hxb.
    destruct (FsService.entered exclude_dirs show_hidden d); [|contradiction].
    apply in_map_iff in Hxb as (y & <- & _).
    rewrite List.Forall_forall in Hnf. apply (path_join_has_slash d y). now apply Hnf.
  - clear Hfs Hnf Hwf.
    induction ds as [|[d sub] ds IHds]; simpl; [constructor|].
    inversion IH as [|? ? Hd IH']; subst. inversion Hsub as [|? ? Hwd Hsub']; subst.
    inversion Hnd as [|? ? Hnd1 Hnd']; subst. simpl in *.
    apply list.NoDup_cons in Hds as [Hnotin Hds'].
    apply list.NoDup_app. split; [|split; [|now apply IHds]].
    + destruct (FsService.entered exclude_dirs show_hidden d); [|constructor].
      apply NoDup_map_path_join. auto.
    + intros x Hx Hin.
      destruct (FsService.entered exclude_dirs show_hidden d);
        [|now apply elem_of_nil in Hx].
      apply list_elem_of_In, in_map_iff in Hx as (y & <- & _).
      apply list_elem_of_In, in_concat in Hin as (blk & Hblk & Hxb).
      apply in_map_iff in Hblk as ([d2 sub2] & <- & Hd2). simpl in Hxb.
      destruct (FsService.entered exclude_dirs show_hidden d2); [|contradiction].
      apply in_map_iff in Hxb as (z & Hz & _).
      rewrite List.Forall_forall in Hnd'.
      assert (d2 = d) by (eapply path_join_head; [apply (Hnd' _ Hd2) | exact Hnd1 | exact Hz]).
      subst d2. apply Hnotin. apply list_elem_of_In, in_map_iff.
      exists (d, sub2). split; [reflexivity | exact Hd2].
Qed.

End AllFiles.

(** X19.  For a well-formed tree below [root_path], [list_all_files]
    returns, in ascending order and each once, exactly the paths of the
    files that are reached from the root through directories that are not
    excluded and, unless hidden entries are shown, not hidden, and whose
    lower-cased name ends with one of the extensions ([.md] by default;
    an empty list lets every file through). *)
Theorem list_all_files_exact
  (exclude_dirs : gset string) (show_hidden : bool) (root_path : string)
  (tree : GitService.Tree) (extensions : option (list string)) :
  GitService.wf_tree tree ->
  let files := FsService.list_all_files exclude_dirs show_hidden root_path tree extensions in
  let exts := match extensions with Some l => l | None => [".md"] end in
  StronglySorted (fun a b => PyStr.leb a b = true) files
  /\ NoDup files
  /\ forall p,
       In p files
       <-> exists segs f node,
             PyStr.split "/" p = segs ++ [f]
             /\ Forall (fun d => FsService.entered exclude_dirs show_hidden d = true) segs
             /\ descend tree segs = Some node
             /\ In f (files_of node)
             /\ FsService.passed_over exts f = false.
Proof.
  intros Hwf files exts. subst files. unfold FsService.list_all_files. cbv zeta.
  fold exts. fold (collected exts root_path
                             (FsService.walk exclude_dirs show_hidden root_path tree)).
  rewrite collected_root.
  destruct (sorted_str_spec (listed exclude_dirs show_hidden exts tree)) as [Hsorted Hperm].
  split; [exact Hsorted|]. split.
  - rewrite Hperm. now apply listed_NoDup.
  - intros p. rewrite <- (listed_spec exclude_dirs show_hidden exts tree Hwf p).
    split; apply Permutation_in; [exact Hperm | symmetry; exact Hperm].
Qed.
Lemma list_all_files_exact_witness :
  let tree := GitService.Node ["README.md"; "todo.txt"]
                [("docs", GitService.Node ["Guide.MD"] []);
                 ("node_modules", GitService.Node ["x.md"] [])] in
  FsService.list_all_files {[ "node_modules" ]} true "/srv/notes" tree None
  = ["README.md"; "docs/Guide.MD"]
  /\ NoDup (FsService.list_all_files {[ "node_modules" ]} true "/srv/notes" tree None).
Proof.
  intros tree. split; [vm_compute; reflexivity|].
  assert (Hwf : GitService.wf_tree tree).
  { assert (Hleaf : forall fs, NoDup fs -> Forall GitService.no_slash fs ->
                               GitService.wf_tree (GitService.Node fs [])).
    { intros fs H1 H2. constructor; [exact H1 | constructor | exact H2 | constructor
                                     | constructor]. }
    constructor.
    - apply (bool_decide_unpack _). vm_compute. exact I.
    - apply (bool_decide_unpack _). vm_compute. exact I.
    - repeat constructor.
    - repeat constructor.
    - repeat (constructor; [apply Hleaf; [apply NoDup_singleton | repeat constructor]|]).
      constructor. }
  exact (proj1 (proj2 (list_all_files_exact {[ "node_modules" ]} true "/srv/notes" tree None
                         Hwf))).
Defined.

(** ** The filters of the feed without a repository *)

Section PlainFilters.
Import GitService.
Variable isoformat : Z -> string.
Variable monotonic : nat -> Z.

Lemma plain_files_ext (exts : list string) (root : string) (o : Obs)
      (dirpath : string) (fnames : list string) :
  below root dirpath ->
  forall results,
    Forall (fun e => _matches_ext exts (path e) = true) results ->
    Forall (fun e => _matches_ext exts (path e) = true)
           (fst (plain_files isoformat exts root o dirpath fnames results)).
Proof.
  intros Hbelow. induction fnames as [|f fnames IH]; intros results Hacc; simpl; [exact Hacc|].
  destruct (_matches_ext exts f) eqn:Ef; simpl; [|now apply IH].
  destruct (relative_to root (path_join dirpath f)) as [rel|] eqn:Erel; [|exact Hacc].
  destruct (stat o (path_join dirpath f)) as [[| |]|st]; simpl;
    [now apply IH | exact Hacc | exact Hacc |].
  apply IH. apply Forall_app. split; [exact Hacc|]. constructor; [|constructor].
  cbn [path untracked_entry].
  destruct Hbelow as [->|(x & ->)].
  - rewrite relative_to_join in Erel. injection Erel as <-. exact Ef.
  - rewrite path_join_assoc, relative_to_join in Erel. injection Erel as <-.
    now apply matches_ext_join.
Qed.

Lemma plain_loop_ext (exts : list string) (root : string) (o : Obs)
      (steps : list (string * list string)) :
  Forall (fun step => below root (fst step)) steps ->
  forall results,
    Forall (fun e => _matches_ext exts (path e) = true) results ->
    Forall (fun e => _matches_ext exts (path e) = true)
           (fst (plain_loop isoformat exts root o steps results)).
Proof.
  induction 1 as [|[dirpath fnames] steps Hb _ IH]; intros results Hacc; simpl; [exact Hacc|].
  pose proof (plain_files_ext exts root o dirpath fnames Hb results Hacc) as H.
  destruct (plain_files isoformat exts root o dirpath fnames results) as [results' [e|]];
    simpl in *; [exact H | now apply IH].
Qed.

Lemma not_pruned_not_hidden (exclude : gset string) (d : string) :
  pruned exclude d = false -> PyStr.startswith "." d = false.
Proof. unfold pruned. intros H. now apply orb_false_iff in H as [H _]. Qed.

(** The entries that the discovery keeps hold a [.git] entry. *)
Lemma discover_loop_marked {X : Type} (exclude : gset string) (entries : list (Obs * X)) :
  forall acc,
    Forall (fun x => as_git_exists (fst x) = inr true) acc ->
    Forall (fun x => as_git_exists (fst x) = inr true)
           (fst (discover_loop exclude entries acc)).
Proof.
  induction entries as [|[eo y] entries IH]; intros acc Hacc; simpl; [exact Hacc|].
  destruct (as_is_dir eo) as [e|[|]]; simpl; [exact Hacc | | now apply IH].
  destruct (pruned exclude (as_name eo)); [now apply IH|].
  destruct (as_git_exists eo) as [e|[|]] eqn:Eg; simpl; [exact Hacc | | now apply IH].
  apply IH. apply Forall_app. split; [exact Hacc|]. constructor; [exact Eg | constructor].
Qed.

Lemma discover_marked {X : Type} (exclude : gset string) (o : Obs)
      (entries child_repos : list (Obs * X)) :
  _discover_child_git_repos exclude o entries = inr child_repos ->
  Forall (fun x => as_git_exists (fst x) = inr true) child_repos.
Proof.
  unfold _discover_child_git_repos. intros H.
  destruct (discover_scandir o) as [[| |]|]; try discriminate.
  - injection H as <-. constructor.
  - pose proof (discover_loop_marked exclude entries [] (Forall_nil _)) as Hl.
    destruct (discover_loop exclude entries []) as [crs [[| |]|]]; simpl in *;
      try discriminate; injection H as <-; exact Hl.
Qed.

End PlainFilters.

(** X20.  For a directory without a repository none of whose
    sub-directories holds a [.git] entry, with well-formed listings, on a
    call that computes: every record returned has a path that ends, in
    lower case, with [.md], whatever extensions were asked for; no segment
    of the path is an excluded name, and no directory on the way to it is
    hidden. *)
Theorem plain_feed_passes_filters
  (isoformat : Z -> string) (monotonic : nat -> Z)
  (exclude : gset string) (repo_path : string) (o : GitService.Obs)
  (children : list GitService.Ctx) (limit : Z) (extensions : option (list string))
  (st st' : GitService.State) (refs : list GitService.loc) :
  GitService.wf_obs o ->
  GitService.working_dir o = None ->
  Forall (fun ch => GitService.as_git_exists (GitService.ctx_obs ch) <> inr true) children ->
  GitService.cache_hit
    (GitService._recent_files_cache st
       !! ((repo_path, limit, GitService.default_extensions extensions)
           : GitService.cache_key))
    (monotonic (GitService.ticks st)) = None ->
  GitService.get_recently_changed_files isoformat monotonic exclude repo_path
    (GitService.mkCtx o children) limit extensions st = (inr refs, st') ->
  Forall (fun e =>
            GitService._matches_ext [".md"] (GitService.path e) = true
            /\ GitService.should_skip exclude (GitService.path e) = false
            /\ GitService.hidden_parent (GitService.path e) = false)
         (GitService.deref (GitService.heap st') refs).
Proof.
  intros [_ Hwf] Hwd Hchildren Hmiss Hrun.
  rewrite get_recently_changed_files_run in Hrun. cbv zeta in Hrun.
  rewrite Hmiss, Hwd in Hrun.
  destruct (GitService._discover_child_git_repos _ _ _) as [e|child_repos] eqn:Hd;
    [discriminate|].
  assert (child_repos = []) as ->.
  { destruct child_repos as [|cr crs]; [reflexivity|]. exfalso.
    pose proof (discover_marked exclude o _ _ Hd) as Hm.
    inversion Hm as [|? ? Hcr _]; subst.
    assert (Hin : cr ∈ cr :: crs) by apply list_elem_of_here.
    eapply discover_elem in Hin; [|exact Hd].
    apply list_elem_of_In, in_map_iff in Hin as (ch & <- & Hch).
    rewrite List.Forall_forall in Hchildren. exact (Hchildren ch Hch Hcr). }
  unfold GitService.bind, GitService.lift in Hrun.
  destruct (GitService.recent_plain isoformat exclude repo_path o limit) as [e|trimmed] eqn:Hp;
    [discriminate|].
  rewrite alloc_list_eq in Hrun. rewrite store_spec in Hrun. injection Hrun as <- <-.
  cbn [GitService.heap]. rewrite deref_fresh.
  apply recent_plain_inv in Hp as (u & Hu & ->).
  apply slice_to_Forall.
  eapply Permutation_Forall; [symmetry; apply stable_sort_perm|].
  apply List.Forall_forall. intros e He.
  apply list_elem_of_In, list_elem_of_filter in He as [Hskip He].
  apply list_elem_of_In in He.
  unfold GitService._find_untracked_md_files in Hu.
  pose proof (plain_loop_ext isoformat [".md"] repo_path o
                (GitService.walk exclude repo_path (GitService.walk_root o))
                (walk_below exclude (GitService.walk_root o) repo_path) [] (Forall_nil _))
    as Hext.
  destruct (plain_loop_spec isoformat [".md"] repo_path o
              (GitService.walk exclude repo_path (GitService.walk_root o)) [])
    as (added & H1 & H2 & _).
  destruct (GitService.plain_loop isoformat [".md"] repo_path o _ []) as [r [x|]];
    [discriminate|].
  injection Hu as <-. cbn [fst app] in H1, Hext. subst r.
  eapply Permutation_in in He; [|apply stable_sort_perm].
  split; [|split; [exact Hskip|]].
  - rewrite List.Forall_forall in Hext. now apply Hext.
  - assert (Hin : In (GitService.path e)
                     (map (fun full => GitService.relpath full repo_path)
                          (walk_fulls (GitService.walk exclude repo_path
                                         (GitService.walk_root o))))).
    { apply list_elem_of_In. eapply elem_of_sublist; [|exact H2].
      apply list_elem_of_In, in_map, He. }
    rewrite walk_fulls_tree, map_map in Hin.
    apply in_map_iff in Hin as (y & Hy & Hyin). rewrite relpath_join in Hy. subst y.
    destruct (tree_paths_segments exclude (GitService.walk_root o) Hwf _ Hyin)
      as (segs & f & Hsplit & Hsegs).
    unfold GitService.hidden_parent. rewrite Hsplit, removelast_last.
    destruct (existsb (PyStr.startswith ".") segs) eqn:Ex; [|reflexivity].
    apply existsb_exists in Ex as (seg & Hseg & Hdot).
    rewrite List.Forall_forall in Hsegs.
    rewrite (not_pruned_not_hidden exclude seg (Hsegs seg Hseg)) in Hdot. discriminate.
Qed.

Lemma plain_feed_passes_filters_witness :
  let tree := GitService.Node ["todo.md"; "notes.txt"] [] in
  let o := GitService.mkObs None "" (inl GitService.OtherError) (inl GitService.OtherError)
             (inl GitService.OtherError) (inr []) tree
             (fun p => if String.eqb p "/n/todo.md"
                       then inr (GitService.mkStat true 1) else inl GitService.OSError)
             (fun p => p) "n" (inr true) (inr false) None in
  exists refs st',
    GitService.get_recently_changed_files Scenarios.isoformat Scenarios.monotonic
      ∅ "/n" (GitService.mkCtx o []) 30%Z (Some [".txt"]) GitService.initial_state
    = (inr refs, st')
    /\ map GitService.path (GitService.deref (GitService.heap st') refs) = ["todo.md"]
    /\ Forall (fun e =>
                 GitService._matches_ext [".md"] (GitService.path e) = true
                 /\ GitService.should_skip ∅ (GitService.path e) = false
                 /\ GitService.hidden_parent (GitService.path e) = false)
              (GitService.deref (GitService.heap st') refs).
Proof.
  intros tree o. eexists. eexists. split; [vm_compute; reflexivity|].
  split; [vm_compute; reflexivity|].
  refine (plain_feed_passes_filters Scenarios.isoformat Scenarios.monotonic
            ∅ "/n" o [] 30%Z (Some [".txt"]) GitService.initial_state _ _ _ eq_refl
            (Forall_nil _) eq_refl _).
  - split.
    + intros entries H. injection H as <-. split; [constructor | constructor].
    + constructor; [|constructor|repeat constructor|constructor|constructor].
      apply (bool_decide_unpack _). vm_compute. exact I.
  - vm_compute. reflexivity.
Defined.
(** ** The cache after a call *)

(** X21.  A call that returns a list leaves that very list in the cache
    under its key, the root with the limit and the extensions.  The same
    request made while the entry is younger than the TTL is answered with
    it by any service for that root, whatever its exclusions and whatever
    it would observe: nothing is computed, and the cache and the records
    stay as they are. *)
Theorem feed_answer_is_cached
  (isoformat : Z -> string) (monotonic : nat -> Z)
  (exclude : gset string) (repo_path : string) (c : GitService.Ctx)
  (limit : Z) (extensions : option (list string))
  (st st' : GitService.State) (refs : list GitService.loc) :
  GitService.get_recently_changed_files isoformat monotonic exclude repo_path c
    limit extensions st = (inr refs, st') ->
  exists ts,
    GitService._recent_files_cache st'
      !! ((repo_path, limit, GitService.default_extensions extensions)
          : GitService.cache_key) = Some (ts, refs)
    /\ forall exclude2 c2 st2,
         GitService._recent_files_cache st2
           !! ((repo_path, limit, GitService.default_extensions extensions)
               : GitService.cache_key) = Some (ts, refs) ->
         (monotonic (GitService.ticks st2) - ts < GitService._RECENT_FILES_TTL)%Z ->
         GitService.get_recently_changed_files isoformat monotonic exclude2 repo_path c2
           limit extensions st2
         = (inr refs,
            GitService.mkState (GitService._recent_files_cache st2) (GitService.heap st2)
                               (S (GitService.ticks st2))).
Proof.
  intros Hrun.
  assert (Hstored : exists ts,
             GitService._recent_files_cache st'
               !! ((repo_path, limit, GitService.default_extensions extensions)
                   : GitService.cache_key) = Some (ts, refs)).
  { destruct c as [o children].
    rewrite get_recently_changed_files_run in Hrun. cbv zeta in Hrun.
    destruct (GitService.cache_hit _ _) as [data|] eqn:Hhit.
    { injection Hrun as <- <-. apply cache_hit_lookup in Hhit. exact Hhit. }
    destruct (GitService.working_dir o) as [wd|].
    - unfold GitService.bind, GitService.lift in Hrun.
      destruct (GitService.recent_versioned _ _ _ _ _ _ _) as [e|trimmed]; [discriminate|].
      rewrite alloc_list_eq in Hrun. rewrite store_spec in Hrun.
      injection Hrun as <- <-. eexists. cbn [GitService._recent_files_cache].
      apply lookup_insert_eq.
    - destruct (GitService._discover_child_git_repos _ _ _) as [e|[|cr crs]];
        [discriminate | |].
      + unfold GitService.bind, GitService.lift in Hrun.
        destruct (GitService.recent_plain _ _ _ _ _) as [e|trimmed]; [discriminate|].
        rewrite alloc_list_eq in Hrun. rewrite store_spec in Hrun.
        injection Hrun as <- <-. eexists. cbn [GitService._recent_files_cache].
        apply lookup_insert_eq.
      + unfold GitService.bind in Hrun.
        destruct (GitService._get_recent_files_from_child_repos _ _ _ _ _ _ _ _)
          as [[e|merged] st1]; [discriminate|].
        rewrite store_spec in Hrun.
        injection Hrun as <- <-. eexists. cbn [GitService._recent_files_cache].
        apply lookup_insert_eq. }
  destruct Hstored as (ts & Hts). exists ts. split; [exact Hts|].
  intros exclude2 c2 st2 Hl Ht.
  exact (cache_hit_returns_stored isoformat monotonic exclude2 repo_path c2 limit extensions
           st2 ts refs Hl Ht).
Qed.

Lemma feed_answer_is_cached_witness :
  exists refs st' ts,
    GitService.get_recently_changed_files Scenarios.isoformat Scenarios.monotonic
      ∅ "/r/c" Scenarios.child 30%Z None GitService.initial_state = (inr refs, st')
    /\ GitService._recent_files_cache st' !! (("/r/c", 30%Z, [".md"]) : GitService.cache_key)
       = Some (ts, refs).
Proof.
  destruct (GitService.get_recently_changed_files Scenarios.isoformat Scenarios.monotonic
              ∅ "/r/c" Scenarios.child 30%Z None GitService.initial_state)
    as [[e|refs] st'] eqn:E.
  - exfalso. vm_compute in E. discriminate E.
  - destruct (feed_answer_is_cached Scenarios.isoformat Scenarios.monotonic
                ∅ "/r/c" Scenarios.child 30%Z None GitService.initial_state st' refs E)
      as (ts & Hts & _).
    exists refs, st', ts. split; [reflexivity | exact Hts].
Defined.
